(** * A shallow embedding of selected workbench services

    Each module below embeds one source file (or one class of it) as Rocq
    definitions and proves properties of these definitions.

    - [Nls]                  : src/vs/nls.ts (the in-process formatter)
    - [UtilityProcessMain]   : class UtilityProcess
    - [ConfigurationEditing] : class ConfigurationEditingService
    - [NodeNls]              : src/vs/base/node/nls.js (the language-pack resolver)
    - [Watcher]              : class BaseWatcher
    - [Files]                : class FileService2 (move and copy)
    - [ScmHistory]           : scmHistory.ts (graph controller and renderer)
    - [ScmMultiDiff]         : class ScmMultiDiffSourceResolver

    JavaScript strings are sequences of UTF-16 code units; where the code
    inspects single characters they are modelled as [list N].  Asynchronous
    code ([async]/[await], promise chains) is modelled by its sequential
    order of effects: none of the properties below depends on interleaving. *)

From Stdlib Require Import ZArith NArith Bool List Ascii String DecimalString DecimalN Lia.
From stdpp Require Import base option list strings gmap.
Import ListNotations.

#[local] Set Warnings "-register-all".
#[local] Open Scope Z_scope.

(** How a call ends: it returns a value, or an exception reaches the
    caller. *)
Inductive completion (A : Type) : Type :=
| Returns (a : A)
| Throws (message : string).
Arguments Returns {A} a.
Arguments Throws {A} message.

(* ===================================================================== *)
(** * JSON values                                                         *)
(* ===================================================================== *)

(** The values [JSON.parse] returns.  The code under study only calls
    [JSON.parse] and [JSON.stringify]; the modules below take them as
    parameters.  This module gives the value type, the property and
    truthiness tests the code applies to parsed values, and a small printer
    and parser to run the models on concrete inputs. *)
Module Json.

#[local] Open Scope string_scope.

Inductive json : Type :=
| JNull
| JBool (b : bool)
| JNumber (literal : string)
| JString (s : string)
| JArray (items : list json)
| JObject (members : list (string * json)).

(** [typeof v === 'string'] *)
Definition asString (v : option json) : option string :=
  match v with Some (JString s) => Some s | _ => None end.

Fixpoint assoc (key : string) (members : list (string * json)) : option json :=
  match members with
  | [] => None
  | (k, v) :: rest => if String.eqb k key then Some v else assoc key rest
  end.

(** [v[key]] for a key that is no array index and no inherited property:
    [None] stands for [undefined]. *)
Definition getProperty (v : json) (key : string) : option json :=
  match v with
  | JObject members => assoc key members
  | _ => None
  end.

(** [typeof v === 'object' && v !== null] *)
Definition isObjectLike (v : json) : bool :=
  match v with
  | JObject _ | JArray _ => true
  | _ => false
  end.

(** A number literal denotes zero when no digit from 1 to 9 stands before
    its exponent. *)
Fixpoint isZeroLiteral (literal : string) : bool :=
  match literal with
  | EmptyString => true
  | String c rest =>
      if Ascii.eqb c "e"%char || Ascii.eqb c "E"%char then true
      else if ((49 <=? nat_of_ascii c) && (nat_of_ascii c <=? 57))%nat then false
      else isZeroLiteral rest
  end.

(** Truthiness of a parsed value. *)
Definition truthy (v : json) : bool :=
  match v with
  | JNull => false
  | JBool b => b
  | JNumber literal => negb (isZeroLiteral literal)
  | JString s => negb (String.eqb s "")
  | JArray _ | JObject _ => true
  end.

(** ** A printer *)

Fixpoint escape (s : string) : string :=
  match s with
  | EmptyString => EmptyString
  | String c rest =>
      if Ascii.eqb c "034"%char then String "\" (String "034" (escape rest))
      else if Ascii.eqb c "\"%char then String "\" (String "\" (escape rest))
      else String c (escape rest)
  end.

Definition quote (s : string) : string := String "034" (escape s ++ String "034" EmptyString).

Fixpoint stringify (v : json) : string :=
  match v with
  | JNull => "null"
  | JBool true => "true"
  | JBool false => "false"
  | JNumber literal => literal
  | JString s => quote s
  | JArray items =>
      "[" ++ (fix elements (l : list json) : string :=
                match l with
                | [] => ""
                | [x] => stringify x
                | x :: rest => stringify x ++ "," ++ elements rest
                end) items ++ "]"
  | JObject members =>
      "{" ++ (fix fields (l : list (string * json)) : string :=
                match l with
                | [] => ""
                | [(k, x)] => quote k ++ ":" ++ stringify x
                | (k, x) :: rest => quote k ++ ":" ++ stringify x ++ "," ++ fields rest
                end) members ++ "}"
  end.

(** ** A parser, bounded by fuel *)

Definition isSpace (c : ascii) : bool :=
  Ascii.eqb c " "%char || Ascii.eqb c "009"%char || Ascii.eqb c "010"%char
  || Ascii.eqb c "013"%char.

Fixpoint skipSpace (s : string) : string :=
  match s with
  | String c rest => if isSpace c then skipSpace rest else s
  | EmptyString => s
  end.

(** The characters of a string literal up to its closing quote. *)
Fixpoint parseChars (s : string) : option (string * string) :=
  match s with
  | EmptyString => None
  | String c rest =>
      if Ascii.eqb c "034"%char then Some (EmptyString, rest)
      else if Ascii.eqb c "\"%char then
        match rest with
        | String e rest' =>
            if Ascii.eqb e "034"%char || Ascii.eqb e "\"%char || Ascii.eqb e "/"%char then
              match parseChars rest' with
              | Some (text, after) => Some (String e text, after)
              | None => None
              end
            else None
        | EmptyString => None
        end
      else
        match parseChars rest with
        | Some (text, after) => Some (String c text, after)
        | None => None
        end
  end.

Definition isNumberChar (c : ascii) : bool :=
  let n := nat_of_ascii c in
  ((48 <=? n) && (n <=? 57))%nat || Ascii.eqb c "-"%char || Ascii.eqb c "."%char.

Fixpoint spanNumber (s : string) : string * string :=
  match s with
  | String c rest =>
      if isNumberChar c then let (lit, after) := spanNumber rest in (String c lit, after)
      else (EmptyString, s)
  | EmptyString => (EmptyString, EmptyString)
  end.

Definition dropPrefix (prefix s : string) : option string :=
  if String.prefix prefix s
  then Some (String.substring (String.length prefix) (String.length s - String.length prefix) s)
  else None.

Fixpoint parseValue (fuel : nat) (s : string) : option (json * string) :=
  match fuel with
  | O => None
  | S fuel' =>
      match skipSpace s with
      | String "n" _ as t => option_map (pair JNull) (dropPrefix "null" t)
      | String "t" _ as t => option_map (pair (JBool true)) (dropPrefix "true" t)
      | String "f" _ as t => option_map (pair (JBool false)) (dropPrefix "false" t)
      | String "034" rest =>
          match parseChars rest with
          | Some (text, after) => Some (JString text, after)
          | None => None
          end
      | String "[" rest =>
          match skipSpace rest with
          | String "]" after => Some (JArray [], after)
          | _ =>
              match parseElements fuel' rest with
              | Some (items, after) => Some (JArray items, after)
              | None => None
              end
          end
      | String "{" rest =>
          match skipSpace rest with
          | String "}" after => Some (JObject [], after)
          | _ =>
              match parseMembers fuel' rest with
              | Some (members, after) => Some (JObject members, after)
              | None => None
              end
          end
      | String c _ as t =>
          if isNumberChar c then let (lit, after) := spanNumber t in Some (JNumber lit, after)
          else None
      | EmptyString => None
      end
  end
with parseElements (fuel : nat) (s : string) : option (list json * string) :=
  match fuel with
  | O => None
  | S fuel' =>
      match parseValue fuel' s with
      | Some (v, after) =>
          match skipSpace after with
          | String "]" after' => Some ([v], after')
          | String "," after' =>
              match parseElements fuel' after' with
              | Some (vs, after'') => Some (v :: vs, after'')
              | None => None
              end
          | _ => None
          end
      | None => None
      end
  end
with parseMembers (fuel : nat) (s : string) : option (list (string * json) * string) :=
  match fuel with
  | O => None
  | S fuel' =>
      match skipSpace s with
      | String "034" rest =>
          match parseChars rest with
          | Some (key, after) =>
              match skipSpace after with
              | String ":" after' =>
                  match parseValue fuel' after' with
                  | Some (v, after'') =>
                      match skipSpace after'' with
                      | String "}" rest' => Some ([(key, v)], rest')
                      | String "," rest' =>
                          match parseMembers fuel' rest' with
                          | Some (ms, rest'') => Some ((key, v) :: ms, rest'')
                          | None => None
                          end
                      | _ => None
                      end
                  | None => None
                  end
              | _ => None
              end
          | None => None
          end
      | _ => None
      end
  end.

(** [JSON.parse]; [None] stands for the SyntaxError it throws. *)
Definition parse (text : string) : option json :=
  match parseValue (S (String.length text)) text with
  | Some (v, after) =>
      match skipSpace after with
      | EmptyString => Some v
      | _ => None
      end
  | None => None
  end.

(** ** Strings survive printing and parsing *)

Lemma parseChars_escape (s rest : string) :
  parseChars (escape s ++ String "034" rest) = Some (s, rest).
Proof.
  induction s as [|c s IH]; [reflexivity|].
  simpl. destruct (Ascii.eqb_spec c "034") as [->|Hq].
  - simpl. rewrite IH. reflexivity.
  - destruct (Ascii.eqb_spec c "\") as [->|Hb].
    + simpl. rewrite IH. reflexivity.
    + simpl. rewrite (proj2 (Ascii.eqb_neq _ _) Hq), (proj2 (Ascii.eqb_neq _ _) Hb), IH.
      reflexivity.
Qed.

Lemma append_assoc (a b c : string) : (a ++ b) ++ c = a ++ (b ++ c).
Proof.
  induction a as [|x a IH]; [reflexivity|].
  change (String x ((a ++ b) ++ c) = String x (a ++ (b ++ c))). f_equal. exact IH.
Qed.

Lemma append_cons (c : ascii) (a b : string) : String c a ++ b = String c (a ++ b).
Proof. reflexivity. Qed.

Lemma append_empty (b : string) : EmptyString ++ b = b.
Proof. reflexivity. Qed.

Lemma length_append_cons (a b : string) (c : ascii) :
  exists m, String.length (a ++ String c b) = S m.
Proof. destruct a; simpl; eauto. Qed.

(** An object of two string members is read back as it was printed. *)
Lemma parse_stringify_two_strings (k1 k2 v1 v2 : string) :
  parse (stringify (JObject [(k1, JString v1); (k2, JString v2)]))
    = Some (JObject [(k1, JString v1); (k2, JString v2)]).
Proof.
  unfold parse, stringify, quote.
  repeat (rewrite append_cons || rewrite append_empty || rewrite append_assoc).
  cbn [String.length parseValue skipSpace isSpace Ascii.eqb Bool.eqb orb].
  destruct (length_append_cons (escape k1)
     (String ":" (String "034" (escape v1 ++ String "034" (String "," (String "034"
        (escape k2 ++ String "034" (String ":" (String "034" (escape v2 ++
           String "034" (String "}" EmptyString)))))))))) "034") as [m ->].
  do 4 (cbn [parseMembers parseValue skipSpace isSpace Ascii.eqb Bool.eqb orb];
        rewrite !parseChars_escape).
  reflexivity.
Qed.

End Json.


(* ===================================================================== *)
(** * vs/nls.ts : [_format], [localize], [localize2]                      *)
(* ===================================================================== *)

Module Nls.

(** A JavaScript string, as its UTF-16 code units. *)
Definition jsstring : Type := list N.

(** The code units of an ASCII literal. *)
Fixpoint units (s : string) : jsstring :=
  match s with
  | EmptyString => []
  | String c s' => N_of_ascii c :: units s'
  end.

(** Values whose [typeof] is neither string, number, boolean nor undefined,
    and which are not [null]. *)
Inductive otherkind : Type := KObject | KFunction | KSymbol | KBigint.

Section Format.

(** Numbers are kept abstract: [String(n)] for a number is the language's
    Number::toString, which the formatter only calls. *)
Context {Number : Type}.
Variable numberToString : Number -> jsstring.

Inductive jsvalue : Type :=
| VString (s : jsstring)
| VNumber (n : Number)
| VBoolean (b : bool)
| VUndefined
| VNull
| VOther (k : otherkind).

(** [String(arg)] on the values that reach it in [_format]. *)
Definition String_ (v : jsvalue) : jsstring :=
  match v with
  | VString s => s
  | VNumber n => numberToString n
  | VBoolean true => units "true"
  | VBoolean false => units "false"
  | VUndefined => units "undefined"
  | VNull => units "null"
  | VOther _ => units "[object Object]"
  end.

(** [\d] without the unicode flag: the ten ASCII digits. *)
Definition isDigit (c : N) : bool := ((48 <=? c) && (c <=? 57))%N.

Fixpoint spanDigits (s : jsstring) : jsstring * jsstring :=
  match s with
  | c :: s' =>
      if isDigit c then let (ds, r) := spanDigits s' in (c :: ds, r)
      else ([], s)
  | [] => ([], [])
  end.

(** One match of [/\{(\d+)\}/] at the head of [s]: the capture group and
    what follows the match.  [\d+] is greedy, and giving digits back never
    helps since the character after fewer digits is a digit, not [}]. *)
Definition matchPlaceholder (s : jsstring) : option (jsstring * jsstring) :=
  match s with
  | 123%N :: s' =>
      match spanDigits s' with
      | (d :: ds, 125%N :: r) => Some (d :: ds, r)
      | _ => None
      end
  | _ => None
  end.

(** [args[index]] where [index] is a one-character digit string: the
    property key ["d"] is the array index [d]; past the end it is
    [undefined]. *)
Definition argAt (args : list jsvalue) (digit : N) : jsvalue :=
  nth (N.to_nat (digit - 48)%N) args VUndefined.

(** The replacer callback [(match, rest) => ...].  [rest] is the capture
    group, a string, so [rest[0]] is its first character. *)
Definition replacer (args : list jsvalue) (match_ rest : jsstring) : jsstring :=
  match rest with
  | index :: _ =>
      match argAt args index with
      | VString s => s
      | (VNumber _ | VBoolean _ | VUndefined | VNull) as arg => String_ arg
      | VOther _ => match_
      end
  | [] => match_
  end.

(** [message.replace(/\{(\d+)\}/g, callback)]: leftmost matches, not
    overlapping, scanned left to right.  [skip] counts the characters of the
    current match that are still to be stepped over. *)
Fixpoint replaceFrom (args : list jsvalue) (skip : nat) (s : jsstring) : jsstring :=
  match s with
  | [] => []
  | c :: s' =>
      match skip with
      | S k => replaceFrom args k s'
      | O =>
          match matchPlaceholder s with
          | Some (rest, _) =>
              replacer args (123%N :: rest ++ [125%N]) rest
                ++ replaceFrom args (S (List.length rest)) s'
          | None => c :: replaceFrom args 0 s'
          end
      end
  end.

Definition replacePlaceholders (args : list jsvalue) (message : jsstring) : jsstring :=
  replaceFrom args 0 message.

(** [/[aouei]/] *)
Definition isPseudoVowel (c : N) : bool :=
  existsb (N.eqb c) (units "aouei").

(** [result.replace(/[aouei]/g, '$&$&')]: [$&] is the matched substring. *)
Fixpoint doubleVowels (s : jsstring) : jsstring :=
  match s with
  | [] => []
  | c :: s' => if isPseudoVowel c then c :: c :: doubleVowels s' else c :: doubleVowels s'
  end.

(** [_format].  [isPseudo] is the module-level constant computed from
    [globalThis._VSCODE_NLS_PSEUDO] and the document location. *)
Definition _format (isPseudo : bool) (message : jsstring) (args : list jsvalue) : jsstring :=
  let result :=
    match args with
    | [] => message
    | _ :: _ => replacePlaceholders args message
    end in
  if isPseudo then [65339%N] ++ doubleVowels result ++ [65341%N] else result.

(** The first argument of [localize]: a key or [ILocalizeInfo] in source
    form, a numeric index in built form. *)
Inductive localizeData : Type :=
| DataKey (key : jsstring)
| DataInfo (key : jsstring) (comment : list jsstring)
| DataIndex (index : Number).

(** [globalThis._VSCODE_NLS?.[index]], a table filled in from outside. *)
Variable nlsTable : Number -> jsvalue.

(** [lookupMessage]; the [console.error] call is not part of the model. *)
Definition lookupMessage (index : Number) : jsstring :=
  match nlsTable index with
  | VString message => message
  | _ => units "!!! NLS MISSING: " ++ numberToString index ++ units " !!!"
  end.

Definition localize (isPseudo : bool) (data : localizeData) (message : jsstring)
  (args : list jsvalue) : jsstring :=
  match data with
  | DataIndex index => _format isPseudo (lookupMessage index) args
  | _ => _format isPseudo message args
  end.

Record ILocalizedString : Type := { value : jsstring; original : jsstring }.

Definition jsstring_eqb (a b : jsstring) : bool := bool_decide (a = b).

Definition localize2 (isPseudo : bool) (data : localizeData) (originalMessage : jsstring)
  (args : list jsvalue) : ILocalizedString :=
  let message :=
    match data with
    | DataIndex index => lookupMessage index
    | _ => originalMessage
    end in
  let value := _format isPseudo message args in
  {| value := value;
     original := if jsstring_eqb originalMessage message then value
                 else _format isPseudo originalMessage args |}.

(** ** Properties of the placeholder scan *)

Lemma spanDigits_all (ds r : jsstring) :
  forallb isDigit ds = true ->
  match r with c :: _ => isDigit c = false | [] => True end ->
  spanDigits (ds ++ r) = (ds, r).
Proof.
  induction ds as [|d ds IH]; simpl; intros Hds Hr.
  - destruct r as [|c r]; [reflexivity|]. simpl. now rewrite Hr.
  - apply andb_prop in Hds as [Hd Hds]. rewrite Hd, (IH Hds Hr). reflexivity.
Qed.

Lemma matchPlaceholder_digits (d : N) (ds r : jsstring) :
  forallb isDigit (d :: ds) = true ->
  matchPlaceholder (123%N :: (d :: ds) ++ 125%N :: r) = Some (d :: ds, r).
Proof.
  intros H. unfold matchPlaceholder.
  rewrite (spanDigits_all (d :: ds) (125%N :: r) H); reflexivity.
Qed.

Lemma replaceFrom_skip (args : list jsvalue) (p r : jsstring) :
  replaceFrom args (List.length p) (p ++ r) = replaceFrom args 0 r.
Proof.
  induction p as [|c p IH]; simpl.
  - destruct r; reflexivity.
  - exact IH.
Qed.

(** A character other than [{] is copied. *)
Lemma replacePlaceholders_plain (args : list jsvalue) (c : N) (r : jsstring) :
  c <> 123%N ->
  replacePlaceholders args (c :: r) = c :: replacePlaceholders args r.
Proof.
  intros Hc. unfold replacePlaceholders. simpl.
  destruct c as [|p]; [reflexivity|].
  repeat (destruct p as [p|p|]; try reflexivity); congruence.
Qed.

(** A placeholder is replaced by what the callback returns for it, and the
    scan goes on behind the closing brace.  The callback only looks at the
    first digit [d] of the placeholder's number. *)
Lemma replacePlaceholders_placeholder (args : list jsvalue) (d : N) (ds r : jsstring) :
  forallb isDigit (d :: ds) = true ->
  replacePlaceholders args (123%N :: (d :: ds) ++ 125%N :: r) =
    match argAt args d with
    | VOther _ => 123%N :: (d :: ds) ++ [125%N]
    | arg => String_ arg
    end ++ replacePlaceholders args r.
Proof.
  intros H. unfold replacePlaceholders.
  change (replaceFrom args 0 (123%N :: (d :: ds) ++ 125%N :: r)) with
    (match matchPlaceholder (123%N :: (d :: ds) ++ 125%N :: r) with
     | Some (rest, _) =>
         replacer args (123%N :: rest ++ [125%N]) rest
           ++ replaceFrom args (S (List.length rest)) ((d :: ds) ++ 125%N :: r)
     | None => 123%N :: replaceFrom args 0 ((d :: ds) ++ 125%N :: r)
     end).
  rewrite (matchPlaceholder_digits d ds r H).
  f_equal.
  rewrite <- (replaceFrom_skip args ((d :: ds) ++ [125%N]) r).
  rewrite <- app_assoc, length_app, Nat.add_comm. reflexivity.
Qed.

(** With no arguments the message is returned as it is. *)
Lemma format_no_arguments (message : jsstring) : _format false message [] = message.
Proof. reflexivity. Qed.

(** Doubling never touches the brackets' positions. *)
Lemma format_pseudo_unfold (message : jsstring) (args : list jsvalue) :
  _format true message args =
    65339%N :: doubleVowels (_format false message args) ++ [65341%N].
Proof. reflexivity. Qed.

End Format.

Arguments VString {Number} s.
Arguments VBoolean {Number} b.
Arguments VUndefined {Number}.
Arguments VNull {Number}.
Arguments VOther {Number} k.

(** [String(n)] for an integral number in the safe range: its decimal
    digits.  Used to run the formatter on concrete inputs. *)
Definition integerToString (z : Z) : jsstring :=
  units (NilZero.string_of_int (Z.to_int z)).

(** The pseudo rendering in the specification's words: the text between
    full-width brackets, every vowel doubled. *)
Definition isVowelLetter (c : N) : bool := existsb (N.eqb c) (units "aeiouAEIOU").

Definition doubleEveryVowel (s : jsstring) : jsstring :=
  flat_map (fun c => if isVowelLetter c then [c; c] else [c]) s.

Definition bracketed (s : jsstring) : jsstring := [65339%N] ++ s ++ [65341%N].

(** The same with the lower-case vowels only. *)
Definition isLowerCaseVowel (c : N) : bool := existsb (N.eqb c) (units "aeiou").

Definition doubleLowerCaseVowels (s : jsstring) : jsstring :=
  flat_map (fun c => if isLowerCaseVowel c then [c; c] else [c]) s.

Lemma isPseudoVowel_lower (c : N) : isPseudoVowel c = isLowerCaseVowel c.
Proof.
  unfold isPseudoVowel, isLowerCaseVowel.
  change (units "aouei") with [97; 111; 117; 101; 105]%N.
  change (units "aeiou") with [97; 101; 105; 111; 117]%N.
  cbn [existsb].
  destruct (c =? 97)%N, (c =? 111)%N, (c =? 117)%N, (c =? 101)%N, (c =? 105)%N;
    reflexivity.
Qed.

Lemma doubleVowels_lower (s : jsstring) : doubleVowels s = doubleLowerCaseVowels s.
Proof.
  induction s as [|c s IH]; [reflexivity|].
  simpl. rewrite IH, isPseudoVowel_lower.
  destruct (isLowerCaseVowel c); reflexivity.
Qed.

Example format_hello_world :
  _format integerToString false (units "hello {0}") [VString (units "world")]
  = units "hello world".
Proof. reflexivity. Qed.

Example format_boolean_and_absent :
  _format integerToString false (units "{0}/{1}/{2}/{3}") [VBoolean true; VNull; VNumber 42]
  = units "true/null/42/undefined".
Proof. reflexivity. Qed.

Example format_other_type :
  _format integerToString false (units "a {0} b") [VOther KObject] = units "a {0} b".
Proof. reflexivity. Qed.

Example format_pseudo_hello :
  _format integerToString true (units "Hello") [] = bracketed (units "Heelloo").
Proof. reflexivity. Qed.

(** C1 (the code departs from it).  The claim: each placeholder [{n}] is
    replaced by the n-th argument.  Evaluating [_format] on the message
    ["{10}"] with eleven arguments yields the argument at position 1, not
    the one at position 10: the callback indexes [args] with the first digit
    of the placeholder's number. *)
Theorem format_placeholder_ten_reads_argument_one :
  let args := map (fun s => VString (Number := Z) (units s))
    ["zero"; "one"; "two"; "three"; "four"; "five"; "six"; "seven"; "eight";
     "nine"; "ten"]%string in
  nth 10 args VUndefined = VString (units "ten") /\
  _format integerToString false (units "{10}") args = units "one" /\
  _format integerToString false (units "{10}") args <> units "ten".
Proof. repeat split. discriminate. Qed.

(** C9, as stated, fails: with the pseudo flag on, the message ["A"] is
    rendered as the bracketed ["A"], while doubling every vowel would give
    the bracketed ["AA"]. *)
Lemma format_pseudo_upper_case_vowel_kept :
  _format integerToString true (units "A") [] = bracketed (units "A") /\
  _format integerToString true (units "A") []
    <> bracketed (doubleEveryVowel (_format integerToString false (units "A") [])).
Proof. split; [reflexivity | discriminate]. Qed.

(** C9, amended.  With the pseudo flag on, the result of formatting is the
    placeholder-substituted string between U+FF3B and U+FF3D, with every
    lower-case vowel (a, e, i, o, u) doubled and every other character,
    upper-case vowels included, kept as it is. *)
Theorem format_pseudo_doubles_lower_case_vowels :
  forall (Number : Type) (numberToString : Number -> jsstring)
         (message : jsstring) (args : list (jsvalue (Number := Number))),
    let plain := _format numberToString false message args in
    let result := _format numberToString true message args in
    result = bracketed (doubleLowerCaseVowels plain) /\
    head result = Some 65339%N /\
    last result = Some 65341%N.
Proof.
  intros Number nts message args plain result.
  assert (E : result = bracketed (doubleLowerCaseVowels plain)).
  { unfold result, plain. rewrite format_pseudo_unfold, doubleVowels_lower. reflexivity. }
  split; [exact E|]. rewrite E. split; [reflexivity|].
  unfold bracketed. rewrite app_assoc. apply last_snoc.
Qed.

(** ** Further properties of [_format] and [localize2] *)

(** The scan copies a prefix that holds no opening brace and goes on behind
    it. *)
Lemma replacePlaceholders_prefix {Number : Type} (numberToString : Number -> jsstring)
  (args : list jsvalue) (pre r : jsstring) :
  123%N ∉ pre ->
  replacePlaceholders numberToString args (pre ++ r)
  = pre ++ replacePlaceholders numberToString args r.
Proof.
  induction pre as [|c pre IH]; intros Hpre; [reflexivity|].
  apply not_elem_of_cons in Hpre as [Hc Hpre].
  change ((c :: pre) ++ r) with (c :: (pre ++ r)).
  rewrite replacePlaceholders_plain by congruence.
  rewrite (IH Hpre). reflexivity.
Qed.

Lemma replacePlaceholders_nil {Number : Type} (numberToString : Number -> jsstring)
  (args : list jsvalue) :
  replacePlaceholders numberToString args [] = [].
Proof. reflexivity. Qed.

(** X1.  A message that holds no opening brace is returned unchanged by
    [_format] (pseudo flag off), whatever the arguments are. *)
Theorem format_without_brace_is_identity :
  forall (Number : Type) (numberToString : Number -> jsstring)
         (message : jsstring) (args : list (jsvalue (Number := Number))),
    123%N ∉ message ->
    _format numberToString false message args = message.
Proof.
  intros Number nts message args H.
  destruct args as [|a args]; [reflexivity|].
  change (replacePlaceholders nts (a :: args) message = message).
  rewrite <- (app_nil_r message) at 1.
  rewrite (replacePlaceholders_prefix nts _ _ _ H), replacePlaceholders_nil.
  apply app_nil_r.
Qed.

Lemma format_without_brace_is_identity_witness :
  (123%N ∉ units "100% done }") /\
  _format integerToString false (units "100% done }") [VNumber 7; VNull]
  = units "100% done }".
Proof.
  assert (H : 123%N ∉ units "100% done }").
  { apply (bool_decide_unpack _). vm_compute. exact I. }
  split; [exact H|].
  exact (format_without_brace_is_identity Z integerToString _ _ H).
Defined.

(** X2.  With at least one argument and the pseudo flag off, the first
    placeholder of a message (a brace-free prefix, then [{], one or more
    digits, [}]) is replaced by the rendering of the argument whose index is
    the FIRST digit of the placeholder's number: a string as it is, a number,
    boolean, undefined (also a position past the end) or null through
    [String], and anything else by the placeholder's own text.  The rest of
    the message is formatted in the same way. *)
Theorem format_first_placeholder :
  forall (Number : Type) (numberToString : Number -> jsstring)
         (pre : jsstring) (d : N) (ds post : jsstring)
         (args : list (jsvalue (Number := Number))),
    args <> [] ->
    123%N ∉ pre ->
    forallb isDigit (d :: ds) = true ->
    _format numberToString false (pre ++ 123%N :: (d :: ds) ++ 125%N :: post) args
    = pre
      ++ match nth (N.to_nat (d - 48)) args VUndefined with
         | VOther _ => 123%N :: (d :: ds) ++ [125%N]
         | arg => String_ numberToString arg
         end
      ++ _format numberToString false post args.
Proof.
  intros Number nts pre d ds post args Hargs Hpre Hds.
  destruct args as [|a args]; [congruence|].
  change (replacePlaceholders nts (a :: args) (pre ++ 123%N :: (d :: ds) ++ 125%N :: post)
          = pre ++ match argAt (a :: args) d with
                   | VOther _ => 123%N :: (d :: ds) ++ [125%N]
                   | arg => String_ nts arg
                   end ++ replacePlaceholders nts (a :: args) post).
  rewrite (replacePlaceholders_prefix nts _ _ _ Hpre).
  rewrite (replacePlaceholders_placeholder nts _ d ds post Hds).
  reflexivity.
Qed.

Lemma format_first_placeholder_witness :
  _format integerToString false (units "item {12} of {3}") [VNumber 5; VBoolean true]
  = units "item true of undefined".
Proof.
  assert (Hpre : 123%N ∉ units "item ").
  { apply (bool_decide_unpack _). vm_compute. exact I. }
  exact (format_first_placeholder Z integerToString (units "item ") 49%N [50%N]
           (units " of {3}") [VNumber 5; VBoolean true]
           ltac:(discriminate) Hpre eq_refl).
Defined.

(** X3.  [localize2] returns as [value] what [localize] returns for the same
    arguments, and as [original] the formatting of the original message,
    whether or not the table lookup produced a different message. *)
Theorem localize2_value_and_original :
  forall (Number : Type) (numberToString : Number -> jsstring)
         (nlsTable : Number -> jsvalue) (isPseudo : bool)
         (data : localizeData (Number := Number)) (originalMessage : jsstring)
         (args : list jsvalue),
    let r := localize2 numberToString nlsTable isPseudo data originalMessage args in
    value r = localize numberToString nlsTable isPseudo data originalMessage args /\
    original r = _format numberToString isPseudo originalMessage args.
Proof.
  intros Number nts table isPseudo data originalMessage args r. subst r.
  unfold localize2, localize, jsstring_eqb. simpl.
  split; [destruct data; reflexivity|].
  case_bool_decide as E; [|reflexivity].
  rewrite <- E. reflexivity.
Qed.

End Nls.


(* ===================================================================== *)
(** * class UtilityProcess : [validateCanStart], [start]                  *)
(* ===================================================================== *)

Module UtilityProcessMain.

#[local] Open Scope string_scope.

(** [Severity] of vs/base/common/severity. *)
Inductive Severity : Type := Ignore | Info | Warning | Error.

Record IUtilityProcessConfiguration : Type := {
  responseWindowId : Z;
  responseChannel : string;
  responseNonce : string;
  type : string;
  env : option (list (string * option string));
  args : option (list string);
  execArgv : option (list string);
  allowLoadingUnsignedLibraries : option bool;
  correlationId : option string
}.

(** What the code asks of an Electron [BrowserWindow]. *)
Record BrowserWindow : Type := {
  windowIsDestroyed : bool;
  webContentsIsDestroyed : bool
}.

(** An [ICodeWindow]; its [win] may be absent. *)
Record ICodeWindow : Type := { win : option BrowserWindow }.

(** The options handed to [ElectronUtilityProcess.fork]. *)
Record ForkOptions : Type := {
  serviceName : string;
  forkEnv : option (list (string * string));
  forkExecArgv : option (list string);
  forkAllowLoadingUnsignedLibraries : option bool;
  stdio : string
}.

(** The forked process object, identified by how it was forked. *)
Record ElectronProcess : Type := {
  modulePath : string;
  processArgs : list string;
  options : ForkOptions
}.

(** What surrounds an instance: the imported [canUseUtilityProcess] flag,
    the windows service, and the effects that leave the instance (log
    lines, forked processes, registered listeners, posted ports). *)
Record World : Type := {
  canUseUtilityProcess : bool;
  getWindowById : Z -> option ICodeWindow;
  logged : list (Severity * string);
  forked : list ElectronProcess;
  listeners : list (string * string);
  posted : list (string * string)
}.

(** The private fields of an instance. *)
Record UtilityProcess : Type := {
  id : string;
  process : option ElectronProcess;
  processPid : option Z;
  configuration : option IUtilityProcessConfiguration;
  didExit : bool
}.

Definition numberToString (z : Z) : string := NilZero.string_of_int (Z.to_int z).

(** A template literal's rendering of [this.configuration?.type]. *)
Definition typeText (this : UtilityProcess) : string :=
  match configuration this with
  | Some c => type c
  | None => "undefined"
  end.

Definition pidText (this : UtilityProcess) : string :=
  match processPid this with
  | Some pid => numberToString pid
  | None => "<none>"
  end.

Definition truthy (s : string) : bool :=
  match s with EmptyString => false | _ => true end.

Definition logMsg (this : UtilityProcess) (msg : string) : string :=
  match configuration this with
  | Some {| correlationId := Some cid |} =>
      if truthy cid then
        "[UtilityProcess id: " ++ cid ++ ", type: " ++ typeText this
          ++ ", pid: " ++ pidText this ++ "]: " ++ msg
      else
        "[UtilityProcess type: " ++ typeText this ++ ", pid: " ++ pidText this ++ "]: " ++ msg
  | _ =>
      "[UtilityProcess type: " ++ typeText this ++ ", pid: " ++ pidText this ++ "]: " ++ msg
  end.

Definition appendLog (w : World) (entry : Severity * string) : World :=
  {| canUseUtilityProcess := canUseUtilityProcess w;
     getWindowById := getWindowById w;
     logged := logged w ++ [entry];
     forked := forked w;
     listeners := listeners w;
     posted := posted w |}.

(** [log]: the switch has no case for [Severity.Ignore]. *)
Definition log (this : UtilityProcess) (msg : string) (severity : Severity) (w : World) : World :=
  match severity with
  | Error | Warning | Info => appendLog w (severity, logMsg this msg)
  | Ignore => w
  end.

Definition usable (b : BrowserWindow) : bool :=
  negb (windowIsDestroyed b || webContentsIsDestroyed b).

(** [validateCanStart] *)
Definition validateCanStart (this : UtilityProcess) (config : IUtilityProcessConfiguration)
  (w : World) : completion (option BrowserWindow) * World :=
  if negb (canUseUtilityProcess w) then
    (Throws "Cannot use UtilityProcess API from Electron!", w)
  else
    match process this with
    | Some _ =>
        (Returns None,
         log this "Cannot start utility process because it is already running..." Error w)
    | None =>
        let responseWindow :=
          match getWindowById w (responseWindowId config) with
          | Some codeWindow => win codeWindow
          | None => None
          end in
        match responseWindow with
        | Some b =>
            if usable b then (Returns (Some b), w)
            else
              (Returns None,
               log this "Refusing to start utility process because requesting window cannot be found or is destroyed..." Error w)
        | None =>
            (Returns None,
             log this "Refusing to start utility process because requesting window cannot be found or is destroyed..." Error w)
        end
    end.

(** [String(env[key])] for every key of the copied environment. *)
Definition stringifyEnv (e : list (string * option string)) : list (string * string) :=
  map (fun kv => (fst kv, match snd kv with Some v => v | None => "undefined" end)) e.

(** [registerListeners]: the events the instance subscribes to. *)
Definition registerListeners (name : string) (w : World) : World :=
  {| canUseUtilityProcess := canUseUtilityProcess w;
     getWindowById := getWindowById w;
     logged := logged w;
     forked := forked w;
     listeners := listeners w ++
       [(name, "stdout"); (name, "stderr"); (name, "message"); (name, "spawn");
        (name, "exit"); (name, "child-process-gone")];
     posted := posted w |}.

(** [exchangeMessagePorts]: one port to the process, its peer to the window. *)
Definition exchangeMessagePorts (config : IUtilityProcessConfiguration) (w : World) : World :=
  {| canUseUtilityProcess := canUseUtilityProcess w;
     getWindowById := getWindowById w;
     logged := logged w;
     forked := forked w;
     listeners := listeners w;
     posted := posted w ++ [("null", "utilityProcessPort");
                            (responseChannel config, responseNonce config)] |}.

Definition fork (p : ElectronProcess) (w : World) : World :=
  {| canUseUtilityProcess := canUseUtilityProcess w;
     getWindowById := getWindowById w;
     logged := logged w;
     forked := forked w ++ [p];
     listeners := listeners w;
     posted := posted w |}.

(** [start] *)
Definition start (this : UtilityProcess) (config : IUtilityProcessConfiguration)
  (w : World) : completion unit * UtilityProcess * World :=
  match validateCanStart this config w with
  | (Throws message, w1) => (Throws message, this, w1)
  | (Returns None, w1) => (Returns tt, this, w1)
  | (Returns (Some responseWindow), w1) =>
      let this1 :=
        {| id := id this; process := process this; processPid := processPid this;
           configuration := Some config; didExit := didExit this |} in
      let name := type config ++ "-" ++ id this in
      let p :=
        {| modulePath := "bootstrap-fork.js";
           processArgs :=
             match args config with Some a => a | None => [] end
               ++ ["--type=" ++ type config];
           options :=
             {| serviceName := name;
                forkEnv := option_map stringifyEnv (env config);
                forkExecArgv := execArgv config;
                forkAllowLoadingUnsignedLibraries := allowLoadingUnsignedLibraries config;
                stdio := "pipe" |} |} in
      let w2 := log this1 "creating new..." Info w1 in
      let w3 := fork p w2 in
      let this2 :=
        {| id := id this1; process := Some p; processPid := processPid this1;
           configuration := configuration this1; didExit := didExit this1 |} in
      let w4 := registerListeners name w3 in
      let w5 := exchangeMessagePorts config w4 in
      (Returns tt, this2, w5)
  end.

(** The response window of a configuration is missing or destroyed. *)
Definition windowUnavailable (w : World) (config : IUtilityProcessConfiguration) : Prop :=
  match getWindowById w (responseWindowId config) with
  | Some {| win := Some b |} => windowIsDestroyed b = true \/ webContentsIsDestroyed b = true
  | _ => True
  end.

(** ** Concrete instances *)

Definition sampleConfiguration : IUtilityProcessConfiguration :=
  {| responseWindowId := 1; responseChannel := "vscode:port"; responseNonce := "n1";
     type := "fileWatcher"; env := None; args := None; execArgv := None;
     allowLoadingUnsignedLibraries := None; correlationId := None |}.

Definition openWindow : ICodeWindow :=
  {| win := Some {| windowIsDestroyed := false; webContentsIsDestroyed := false |} |}.

Definition sampleWorld (supported : bool) : World :=
  {| canUseUtilityProcess := supported;
     getWindowById := fun n => if (n =? 1)%Z then Some openWindow else None;
     logged := []; forked := []; listeners := []; posted := [] |}.

Definition freshInstance : UtilityProcess :=
  {| id := "1"; process := None; processPid := None; configuration := None;
     didExit := false |}.

Definition startedInstance : UtilityProcess :=
  snd (fst (start freshInstance sampleConfiguration (sampleWorld true))).

Example start_spawns :
  process startedInstance <> None /\
  List.length (forked (snd (start freshInstance sampleConfiguration (sampleWorld true)))) = 1%nat.
Proof. split; [discriminate | reflexivity]. Qed.

(** ** Refusals of [start] *)

Lemma validateCanStart_unavailable (this : UtilityProcess)
  (config : IUtilityProcessConfiguration) (w : World) :
  canUseUtilityProcess w = true ->
  process this = None ->
  windowUnavailable w config ->
  validateCanStart this config w =
    (Returns None,
     appendLog w (Error, logMsg this "Refusing to start utility process because requesting window cannot be found or is destroyed...")).
Proof.
  intros Hcan Hproc Hwin. unfold validateCanStart, windowUnavailable in *.
  rewrite Hcan, Hproc. simpl.
  destruct (getWindowById w (responseWindowId config)) as [[[b|]]|]; try reflexivity.
  unfold usable. destruct b as [wd cd]; simpl in *.
  destruct Hwin as [-> | ->]; simpl; [reflexivity|].
  rewrite orb_true_r. reflexivity.
Qed.

(** C2, as stated, fails: without platform support [start] does not return;
    the error thrown by [validateCanStart] reaches the caller, and nothing
    is logged. *)
Lemma start_without_platform_support_throws :
  start freshInstance sampleConfiguration (sampleWorld false)
  = (Throws "Cannot use UtilityProcess API from Electron!", freshInstance, sampleWorld false).
Proof. reflexivity. Qed.

(** C2, amended.  When the platform lacks utility-process support, [start]
    throws, logs nothing and changes nothing.  When the platform has it and
    the instance already holds a process, or the requesting window cannot be
    found or is destroyed, [start] returns normally, leaves the instance as
    it was, and its only effect is one error line in the log: nothing is
    forked, no listener registered, no port posted. *)
Theorem start_refusals (this : UtilityProcess) (config : IUtilityProcessConfiguration)
  (w : World) :
  (canUseUtilityProcess w = false ->
     start this config w = (Throws "Cannot use UtilityProcess API from Electron!", this, w)) /\
  (canUseUtilityProcess w = true ->
   process this <> None \/ windowUnavailable w config ->
     exists line : string,
       start this config w = (Returns tt, this, appendLog w (Error, line))).
Proof.
  split.
  - intros Hcan. unfold start, validateCanStart. rewrite Hcan. reflexivity.
  - intros Hcan Hcase.
    destruct (process this) as [p|] eqn:Hproc.
    + eexists. unfold start, validateCanStart. rewrite Hcan, Hproc. reflexivity.
    + destruct Hcase as [Hp | Hwin]; [congruence|].
      eexists. unfold start.
      rewrite (validateCanStart_unavailable this config w Hcan Hproc Hwin). reflexivity.
Qed.

Lemma start_refusals_witness :
  start freshInstance sampleConfiguration (sampleWorld false)
    = (Throws "Cannot use UtilityProcess API from Electron!", freshInstance, sampleWorld false) /\
  (exists line : string,
     start startedInstance sampleConfiguration (sampleWorld true)
       = (Returns tt, startedInstance, appendLog (sampleWorld true) (Error, line))).
Proof.
  split.
  - apply (proj1 (start_refusals freshInstance sampleConfiguration (sampleWorld false))).
    reflexivity.
  - apply (proj2 (start_refusals startedInstance sampleConfiguration (sampleWorld true))).
    + reflexivity.
    + left. discriminate.
Defined.

(** ** A successful [start], and starting twice *)

(** The response window of a configuration exists and is usable. *)
Definition windowAvailable (w : World) (config : IUtilityProcessConfiguration) : bool :=
  match getWindowById w (responseWindowId config) with
  | Some {| win := Some b |} => usable b
  | _ => false
  end.

Lemma validateCanStart_available (this : UtilityProcess)
  (config : IUtilityProcessConfiguration) (w : World) :
  canUseUtilityProcess w = true ->
  process this = None ->
  windowAvailable w config = true ->
  exists b, validateCanStart this config w = (Returns (Some b), w).
Proof.
  intros Hcan Hproc Hwin. unfold validateCanStart, windowAvailable in *.
  rewrite Hcan, Hproc. simpl.
  destruct (getWindowById w (responseWindowId config)) as [[[b|]]|]; try discriminate.
  exists b. simpl in Hwin |- *. now rewrite Hwin.
Qed.

Lemma validateCanStart_running (this : UtilityProcess)
  (config : IUtilityProcessConfiguration) (w : World) :
  canUseUtilityProcess w = true ->
  process this <> None ->
  validateCanStart this config w =
    (Returns None,
     appendLog w (Error, logMsg this "Cannot start utility process because it is already running...")).
Proof.
  intros Hcan Hproc. unfold validateCanStart. rewrite Hcan. simpl.
  destruct (process this); [reflexivity | congruence].
Qed.

(** What [start] does to the list of forked processes: nothing, or one more. *)
Lemma start_forks_at_most_one (this : UtilityProcess)
  (config : IUtilityProcessConfiguration) (w : World) :
  let s := start this config w in
  canUseUtilityProcess (snd s) = canUseUtilityProcess w /\
  (forked (snd s) = forked w /\ snd (fst s) = this \/
   exists p, forked (snd s) = (forked w ++ [p])%list /\ process this = None /\
             process (snd (fst s)) = Some p).
Proof.
  unfold start, validateCanStart.
  destruct (canUseUtilityProcess w) eqn:Hcan; simpl; [|auto].
  destruct (process this) eqn:Hproc; simpl; [auto|].
  destruct (getWindowById w (responseWindowId config)) as [[[b|]]|]; simpl; auto.
  destruct (usable b); simpl; auto.
  split; [assumption|]. right. eexists. repeat split.
Qed.

(** X4.  On a platform with utility-process support, an instance without a
    process and a usable response window, [start] returns normally and forks
    exactly one process: its service name is the configuration's type, a
    dash and the instance id; its arguments are the configured ones followed
    by [--type=<type>]; every environment value is passed as a string under
    its key; the instance then holds that process and the configuration; one
    info line is logged and the two message ports are posted, the window's
    one on the configured channel with the configured nonce. *)
Theorem start_forks_configured_process (this : UtilityProcess)
  (config : IUtilityProcessConfiguration) (w : World) :
  canUseUtilityProcess w = true ->
  process this = None ->
  windowAvailable w config = true ->
  exists (p : ElectronProcess) (this' : UtilityProcess) (w' : World),
    start this config w = (Returns tt, this', w') /\
    process this' = Some p /\
    configuration this' = Some config /\
    forked w' = (forked w ++ [p])%list /\
    serviceName (options p) = type config ++ "-" ++ id this /\
    processArgs p = (default [] (args config) ++ [("--type=" ++ type config)%string])%list /\
    (forall e, env config = Some e ->
       exists e', forkEnv (options p) = Some e' /\ map fst e' = map fst e /\
                  map snd e' = map (fun kv => default "undefined" (snd kv)) e) /\
    (env config = None -> forkEnv (options p) = None) /\
    (exists line, logged w' = (logged w ++ [(Info, line)])%list) /\
    posted w' = (posted w ++ [("null", "utilityProcessPort");
                              (responseChannel config, responseNonce config)])%list.
Proof.
  intros Hcan Hproc Hwin.
  destruct (validateCanStart_available this config w Hcan Hproc Hwin) as [b Hb].
  unfold start. rewrite Hb.
  do 3 eexists. split; [reflexivity|]. simpl.
  repeat match goal with |- _ /\ _ => split end; try reflexivity.
  - intros e He. rewrite He. simpl. eexists. split; [reflexivity|].
    unfold stringifyEnv. rewrite !List.map_map. split; [reflexivity|].
    apply map_ext. intros [k [v|]]; reflexivity.
  - intros He. now rewrite He.
  - eexists. reflexivity.
Qed.

Lemma start_forks_configured_process_witness :
  exists (p : ElectronProcess) (this' : UtilityProcess) (w' : World),
    start freshInstance sampleConfiguration (sampleWorld true) = (Returns tt, this', w') /\
    process this' = Some p /\
    serviceName (options p) = "fileWatcher-1" /\
    processArgs p = ["--type=fileWatcher"].
Proof.
  destruct (start_forks_configured_process freshInstance sampleConfiguration
              (sampleWorld true) eq_refl eq_refl eq_refl)
    as (p & this' & w' & Hs & Hp & _ & _ & Hn & Ha & _).
  exists p, this', w'. repeat split; assumption.
Defined.

(** A second [start] on an instance that holds a process changes neither
    the instance nor what was forked, listened to or posted. *)
Lemma start_running_is_inert (this : UtilityProcess)
  (config : IUtilityProcessConfiguration) (w : World) :
  process this <> None ->
  let s := start this config w in
  snd (fst s) = this /\
  forked (snd s) = forked w /\
  listeners (snd s) = listeners w /\
  posted (snd s) = posted w.
Proof.
  intros Hproc. unfold start, validateCanStart.
  destruct (canUseUtilityProcess w); simpl; [|auto].
  destruct (process this); [simpl; auto | congruence].
Qed.

(** X5.  Two calls of [start] in a row, with any two configurations, fork at
    most one process; and once the first call has given the instance a
    process, the second leaves the instance as it is, forks nothing,
    registers no listener and posts no port. *)
Theorem start_twice_forks_once (this : UtilityProcess)
  (c1 c2 : IUtilityProcessConfiguration) (w : World) :
  let s1 := start this c1 w in
  let s2 := start (snd (fst s1)) c2 (snd s1) in
  (List.length (forked (snd s2)) <= S (List.length (forked w)))%nat /\
  (process (snd (fst s1)) <> None ->
   snd (fst s2) = snd (fst s1) /\
   forked (snd s2) = forked (snd s1) /\
   listeners (snd s2) = listeners (snd s1) /\
   posted (snd s2) = posted (snd s1)).
Proof.
  intros s1 s2. split.
  - destruct (start_forks_at_most_one this c1 w) as [_ [[H1 Ht] | (p & H1 & _ & Hp)]];
      fold s1 in H1.
    + destruct (start_forks_at_most_one (snd (fst s1)) c2 (snd s1))
        as [_ [[H2 _] | (q & H2 & _)]]; fold s2 in H2; rewrite H2, H1.
      * lia.
      * rewrite length_app. simpl. lia.
    + fold s1 in Hp.
      destruct (start_running_is_inert (snd (fst s1)) c2 (snd s1)) as (_ & H2 & _).
      { rewrite Hp. discriminate. }
      fold s2 in H2. rewrite H2, H1, length_app. simpl. lia.
  - intros Hp. exact (start_running_is_inert (snd (fst s1)) c2 (snd s1) Hp).
Qed.

End UtilityProcessMain.

(* ===================================================================== *)
(** * scmHistory.ts : the graph controller and the row renderer           *)
(* ===================================================================== *)

Module ScmHistory.

#[local] Open Scope string_scope.

Definition SWIMLANE_HEIGHT : Z := 22.
Definition SWIMLANE_WIDTH : Z := 11.
Definition CIRCLE_RADIUS : Z := 4.

Definition graphColors : list string :=
  ["#007ACC"; "#BC3FBC"; "#BF8803"; "#CC6633"; "#F14C4C"; "#16825D"].

Record ISCMHistoryItem : Type := { id : string; parentIds : list string }.

Record ISCMHistoryItemGraphNode2 : Type := { nodeId : string; color : Z }.

(** The [repository] and [type] fields of a view model are constant per
    controller and left out. *)
Record ISCMHistoryItemViewModel : Type := {
  historyItem : ISCMHistoryItem;
  inputSwimlanes : list ISCMHistoryItemGraphNode2;
  outputSwimlanes : list ISCMHistoryItemGraphNode2
}.

(** ** SCMRepositoryGraphController *)

Record SCMRepositoryGraphController : Type := {
  _historyItems : list ISCMHistoryItemViewModel;
  _colorIndex : Z
}.

(** A new controller. *)
Definition newController : SCMRepositoryGraphController :=
  {| _historyItems := []; _colorIndex := -1 |}.

(** [getGraphColorIndex], on the cursor alone: the index returned, which is
    also the new cursor. *)
Definition getGraphColorIndex (colorIndex : Z) : Z :=
  (if colorIndex <? Z.of_nat (List.length graphColors) - 1 then colorIndex + 1 else 1)%Z.

(** The first loop of [appendHistoryItems]: copy the input lanes to the
    output, the first lane of the item itself renamed to its first parent,
    further lanes of the item dropped. *)
Fixpoint addFirstParent (itemId firstParent : string) (firstParentAdded : bool)
  (input : list ISCMHistoryItemGraphNode2) : list ISCMHistoryItemGraphNode2 * bool :=
  match input with
  | [] => ([], firstParentAdded)
  | node :: rest =>
      if String.eqb (nodeId node) itemId then
        if firstParentAdded then addFirstParent itemId firstParent true rest
        else
          let (out, added) := addFirstParent itemId firstParent true rest in
          ({| nodeId := firstParent; color := color node |} :: out, added)
      else
        let (out, added) := addFirstParent itemId firstParent firstParentAdded rest in
        (node :: out, added)
  end.

(** The second loop: one new lane per remaining parent, each with a color
    from the allocator. *)
Fixpoint addUnprocessedParents (parents : list string) (colorIndex : Z)
  : list ISCMHistoryItemGraphNode2 * Z :=
  match parents with
  | [] => ([], colorIndex)
  | p :: rest =>
      let c := getGraphColorIndex colorIndex in
      let (lanes, colorIndex') := addUnprocessedParents rest c in
      ({| nodeId := p; color := c |} :: lanes, colorIndex')
  end.

(** [lastOrDefault(this.historyItems)?.outputSwimlanes ?? []] *)
Definition outputSwimlanesFromPreviousItem (this : SCMRepositoryGraphController)
  : list ISCMHistoryItemGraphNode2 :=
  match List.rev (_historyItems this) with
  | previous :: _ => outputSwimlanes previous
  | [] => []
  end.

(** One turn of the loop of [appendHistoryItems].  [deepClone] copies
    values that the model never mutates, so it is the identity here. *)
Definition appendHistoryItem (this : SCMRepositoryGraphController) (item : ISCMHistoryItem)
  : SCMRepositoryGraphController :=
  let input := outputSwimlanesFromPreviousItem this in
  let '(output, colorIndex) :=
    match parentIds item with
    | [] => ([], _colorIndex this)
    | firstParent :: others =>
        let (out1, firstParentAdded) := addFirstParent (id item) firstParent false input in
        let (out2, colorIndex) :=
          addUnprocessedParents (if firstParentAdded then others else firstParent :: others)
            (_colorIndex this) in
        ((out1 ++ out2)%list, colorIndex)
    end in
  {| _historyItems := (_historyItems this ++
       [{| historyItem := item; inputSwimlanes := input; outputSwimlanes := output |}])%list;
     _colorIndex := colorIndex |}.

Definition appendHistoryItems (this : SCMRepositoryGraphController)
  (items : list ISCMHistoryItem) : SCMRepositoryGraphController :=
  fold_left appendHistoryItem items this.

Definition clearHistoryItems (this : SCMRepositoryGraphController)
  : SCMRepositoryGraphController :=
  {| _historyItems := []; _colorIndex := -1 |}.

(** ** renderSCMHistoryItemGraph *)

(** The commands of a path's [d] attribute. *)
Inductive PathCommand : Type :=
| MoveTo (x y : Z)
| Arc (rx ry rotation largeArc sweep x y : Z)
| HorizontalTo (x : Z)
| VerticalTo (y : Z).

(** The children appended to the [svg] element. *)
Inductive SvgChild : Type :=
| Path (stroke : string) (d : list PathCommand)
| Circle (cx cy r : Z) (fill stroke : string).

Record Svg : Type := { children : list SvgChild; height : Z; width : Z }.

(** [array[i]] for a number [i]. *)
Definition at_ {A : Type} (l : list A) (i : Z) : option A :=
  if (i <? 0)%Z then None else nth_error l (Z.to_nat i).

(** [graphColors[i]] inside a template or attribute: the text
    ["undefined"] when there is no such entry. *)
Definition graphColor (i : Z) : string :=
  match at_ graphColors i with Some c => c | None => "undefined" end.

Fixpoint findIndexFrom {A : Type} (p : A -> bool) (i : Z) (l : list A) : Z :=
  match l with
  | [] => -1
  | x :: rest => if p x then i else findIndexFrom p (i + 1) rest
  end.

(** [Array.prototype.findIndex] *)
Definition findIndex {A : Type} (p : A -> bool) (l : list A) : Z := findIndexFrom p 0 l.

Fixpoint findLastIndexFrom (nodes : list ISCMHistoryItemGraphNode2) (wanted : string) (i : Z) : Z :=
  match nodes with
  | [] => -1
  | node :: rest =>
      let later := findLastIndexFrom rest wanted (i + 1) in
      if (later =? -1)%Z then (if String.eqb (nodeId node) wanted then i else -1) else later
  end.

(** [findLastIndex]: the greatest index whose node has the given id. *)
Definition findLastIndex (nodes : list ISCMHistoryItemGraphNode2) (wanted : string) : Z :=
  findLastIndexFrom nodes wanted 0.

Definition createPath (stroke : string) (d : list PathCommand) : SvgChild := Path stroke d.

Definition drawCircle (index radius : Z) (stroke fill : string) : SvgChild :=
  Circle (SWIMLANE_WIDTH * (index + 1)) SWIMLANE_WIDTH radius fill stroke.

Definition drawVerticalLine (x1 y1 y2 : Z) (color : string) : SvgChild :=
  createPath color [MoveTo x1 y1; VerticalTo y2].

Definition len {A : Type} (l : list A) : Z := Z.of_nat (List.length l).

(** The loop over the input swimlanes. *)
Fixpoint drawInputSwimlanes (itemId : string) (output : list ISCMHistoryItemGraphNode2)
  (circleIndex index : Z) (input : list ISCMHistoryItemGraphNode2) : list SvgChild :=
  match input with
  | [] => []
  | node :: rest =>
      let color_ := graphColor (color node) in
      let drawn :=
        if negb (String.eqb (nodeId node) itemId) then
          if (index <? len output)%Z
             && match at_ output index with
                | Some o => String.eqb (nodeId node) (nodeId o)
                | None => false
                end
          then [drawVerticalLine (SWIMLANE_WIDTH * (index + 1)) 0 SWIMLANE_HEIGHT color_]
          else
            [createPath color_
               [MoveTo (SWIMLANE_WIDTH * (index + 1)) 0;
                Arc SWIMLANE_WIDTH SWIMLANE_WIDTH 0 0 1 (SWIMLANE_WIDTH * index) (SWIMLANE_HEIGHT / 2);
                HorizontalTo (SWIMLANE_WIDTH * (findLastIndex output (nodeId node) + 1));
                VerticalTo SWIMLANE_HEIGHT]]
        else if negb (index =? circleIndex)%Z then
          [createPath color_
             [MoveTo (SWIMLANE_WIDTH * (index + 1)) 0;
              Arc SWIMLANE_WIDTH SWIMLANE_WIDTH 0 0 1 (SWIMLANE_WIDTH * index) SWIMLANE_WIDTH;
              HorizontalTo (SWIMLANE_WIDTH * (circleIndex + 1))]]
        else [] in
      (drawn ++ drawInputSwimlanes itemId output circleIndex (index + 1) rest)%list
  end.

(** The loop over the parents after the first. *)
Fixpoint drawRemainingParents (output : list ISCMHistoryItemGraphNode2) (circleIndex : Z)
  (parents : list string) : list SvgChild :=
  match parents with
  | [] => []
  | parent :: rest =>
      let parentOutputIndex := findIndex (fun node => String.eqb (nodeId node) parent) output in
      let drawn :=
        match at_ output parentOutputIndex with
        | None => []
        | Some o =>
            [createPath (graphColor (color o))
               [MoveTo (SWIMLANE_WIDTH * parentOutputIndex) (SWIMLANE_HEIGHT / 2);
                Arc SWIMLANE_WIDTH SWIMLANE_WIDTH 0 0 1
                  (SWIMLANE_WIDTH * (parentOutputIndex + 1)) SWIMLANE_HEIGHT;
                MoveTo (SWIMLANE_WIDTH * parentOutputIndex) (SWIMLANE_HEIGHT / 2);
                HorizontalTo (SWIMLANE_WIDTH * (circleIndex + 1))]]
        end in
      (drawn ++ drawRemainingParents output circleIndex rest)%list
  end.

(** The node itself: one circle for one parent, two otherwise. *)
Definition drawNode (parents : list string) (circleIndex : Z) (fill : string) : list SvgChild :=
  if (len parents =? 1)%Z then
    [drawCircle circleIndex CIRCLE_RADIUS "#f8f8f8" fill]
  else
    [drawCircle circleIndex (CIRCLE_RADIUS + 1) "#f8f8f8" fill;
     drawCircle circleIndex (CIRCLE_RADIUS - 1) "#f8f8f8" fill].

(** [renderSCMHistoryItemGraph].  Reading [.color] of a lane that does not
    exist throws a TypeError before anything is drawn. *)
Definition renderSCMHistoryItemGraph (historyItemViewModel : ISCMHistoryItemViewModel)
  : completion Svg :=
  let item := historyItem historyItemViewModel in
  let input := inputSwimlanes historyItemViewModel in
  let output := outputSwimlanes historyItemViewModel in
  let inputIndex := findIndex (fun node => String.eqb (nodeId node) (id item)) input in
  let outputIndex :=
    match parentIds item with
    | [] => (-1)%Z
    | firstParent :: _ => findIndex (fun node => String.eqb (nodeId node) firstParent) output
    end in
  let circleIndex := if negb (inputIndex =? -1)%Z then inputIndex else len input in
  match (if negb (inputIndex =? -1)%Z then at_ input inputIndex else at_ output circleIndex) with
  | None => Throws "TypeError: Cannot read properties of undefined (reading 'color')"
  | Some circleNode =>
      let circleColorIndex := color circleNode in
      let lanes := drawInputSwimlanes (id item) output circleIndex 0 input in
      let parents := drawRemainingParents output circleIndex (tail (parentIds item)) in
      let toCircle :=
        if negb (inputIndex =? -1)%Z then
          [drawVerticalLine (SWIMLANE_WIDTH * (circleIndex + 1)) 0 (SWIMLANE_HEIGHT / 2)
             (graphColor circleColorIndex)]
        else [] in
      let fromCircle :=
        if negb (outputIndex =? -1)%Z then
          [drawVerticalLine (SWIMLANE_WIDTH * (circleIndex + 1)) (SWIMLANE_HEIGHT / 2)
             SWIMLANE_HEIGHT (graphColor circleColorIndex)]
        else [] in
      Returns
        {| children :=
             (lanes ++ parents ++ toCircle ++ fromCircle
                ++ drawNode (parentIds item) circleIndex (graphColor circleColorIndex))%list;
           height := SWIMLANE_HEIGHT;
           width := SWIMLANE_WIDTH * (Z.max (len input) (len output) + 1) |}
  end.

(** The circle elements among the children of an [svg]. *)
Definition circles (svg : Svg) : list SvgChild :=
  List.filter (fun c => match c with Circle _ _ _ _ _ => true | Path _ _ => false end)
    (children svg).

(** ** Color allocation *)

Definition inPaletteTail (c : Z) : Prop := (1 <= c <= 5)%Z.

Lemma getGraphColorIndex_range (colorIndex : Z) :
  (0 <= colorIndex)%Z -> inPaletteTail (getGraphColorIndex colorIndex).
Proof.
  intros H. unfold inPaletteTail, getGraphColorIndex.
  change (Z.of_nat (List.length graphColors) - 1)%Z with 5%Z.
  destruct (Z.ltb_spec colorIndex 5); lia.
Qed.

Lemma getGraphColorIndex_first : getGraphColorIndex (-1) = 0%Z.
Proof. reflexivity. Qed.

Lemma addUnprocessedParents_range (parents : list string) (colorIndex : Z) :
  (0 <= colorIndex)%Z ->
  Forall (fun lane => inPaletteTail (color lane)) (fst (addUnprocessedParents parents colorIndex))
  /\ (0 <= snd (addUnprocessedParents parents colorIndex))%Z.
Proof.
  revert colorIndex. induction parents as [|p rest IH]; intros colorIndex H; simpl.
  - split; [constructor | exact H].
  - pose proof (getGraphColorIndex_range colorIndex H) as Hc.
    destruct (IH (getGraphColorIndex colorIndex)) as [IH1 IH2]; [unfold inPaletteTail in Hc; lia|].
    destruct (addUnprocessedParents rest (getGraphColorIndex colorIndex)) as [lanes c'].
    simpl in *. split; [constructor; assumption | exact IH2].
Qed.

Lemma addFirstParent_colors (itemId firstParent : string) (added : bool)
  (input : list ISCMHistoryItemGraphNode2) :
  Forall (fun lane => In (color lane) (map color input))
    (fst (addFirstParent itemId firstParent added input)).
Proof.
  revert added. induction input as [|node rest IH]; intros added; simpl; [constructor|].
  assert (W : forall l, Forall (fun lane => In (color lane) (map color rest)) l ->
              Forall (fun lane => color node = color lane \/ In (color lane) (map color rest)) l).
  { intros l Hl. eapply List.Forall_impl; [|exact Hl]. simpl. intros; right; assumption. }
  destruct (String.eqb (nodeId node) itemId).
  - destruct added.
    + apply W, IH.
    + specialize (IH true). destruct (addFirstParent itemId firstParent true rest) as [out a].
      simpl in *. constructor; [left; reflexivity | apply W, IH].
  - specialize (IH added). destruct (addFirstParent itemId firstParent added rest) as [out a].
    simpl in *. constructor; [left; reflexivity | apply W, IH].
Qed.

(** A lane of a view model is either carried over from the input lanes or
    colored with an index of the palette's tail. *)
Definition lanesFromInputOrTail (vm : ISCMHistoryItemViewModel) : Prop :=
  Forall (fun lane =>
            In (color lane) (map color (inputSwimlanes vm)) \/ inPaletteTail (color lane))
         (outputSwimlanes vm).

Lemma appendHistoryItem_spec (this : SCMRepositoryGraphController) (item : ISCMHistoryItem) :
  (0 <= _colorIndex this)%Z ->
  exists vm,
    _historyItems (appendHistoryItem this item) = (_historyItems this ++ [vm])%list
    /\ historyItem vm = item
    /\ inputSwimlanes vm = outputSwimlanesFromPreviousItem this
    /\ lanesFromInputOrTail vm
    /\ (0 <= _colorIndex (appendHistoryItem this item))%Z.
Proof.
  intros H. unfold appendHistoryItem.
  destruct (parentIds item) as [|firstParent others].
  - eexists. repeat split; simpl; [constructor | exact H].
  - pose proof (addFirstParent_colors (id item) firstParent false
                  (outputSwimlanesFromPreviousItem this)) as H1.
    destruct (addFirstParent (id item) firstParent false
                (outputSwimlanesFromPreviousItem this)) as [out1 added].
    pose proof (addUnprocessedParents_range
                  (if added then others else firstParent :: others) (_colorIndex this) H)
      as [H2 H3].
    destruct (addUnprocessedParents (if added then others else firstParent :: others)
                (_colorIndex this)) as [out2 c'].
    simpl in *. eexists. repeat split; simpl; [|exact H3].
    unfold lanesFromInputOrTail. simpl. apply Forall_app. split.
    + eapply List.Forall_impl; [|exact H1]. simpl. intros; left; assumption.
    + eapply List.Forall_impl; [|exact H2]. simpl. intros; right; assumption.
Qed.

Lemma appendHistoryItems_spec (items : list ISCMHistoryItem)
  (this : SCMRepositoryGraphController) :
  (0 <= _colorIndex this)%Z ->
  exists vms,
    _historyItems (appendHistoryItems this items) = (_historyItems this ++ vms)%list
    /\ map historyItem vms = items
    /\ Forall lanesFromInputOrTail vms
    /\ (0 <= _colorIndex (appendHistoryItems this items))%Z.
Proof.
  unfold appendHistoryItems.
  revert this. induction items as [|item rest IH]; intros this H; simpl.
  - exists []. rewrite app_nil_r. repeat split; [constructor | exact H].
  - destruct (appendHistoryItem_spec this item H) as (vm & E & Hi & _ & Hvm & H').
    destruct (IH _ H') as (vms & E' & Hm & Hall & H'').
    exists (vm :: vms). repeat split.
    + rewrite E', E, <- app_assoc. reflexivity.
    + simpl. rewrite Hi, Hm. reflexivity.
    + constructor; assumption.
    + exact H''.
Qed.

(** ** The lanes of a commit that is on an input lane *)

Definition otherThan (itemId : string) (lane : ISCMHistoryItemGraphNode2) : bool :=
  negb (String.eqb (nodeId lane) itemId).

Lemma addFirstParent_added (itemId firstParent : string)
  (input : list ISCMHistoryItemGraphNode2) :
  addFirstParent itemId firstParent true input = (List.filter (otherThan itemId) input, true).
Proof.
  induction input as [|node rest IH]; simpl; [reflexivity|].
  unfold otherThan at 1. destruct (String.eqb (nodeId node) itemId); simpl.
  - exact IH.
  - rewrite IH. reflexivity.
Qed.

Lemma addFirstParent_on_lane (itemId firstParent : string)
  (before after : list ISCMHistoryItemGraphNode2) (own : ISCMHistoryItemGraphNode2) :
  nodeId own = itemId ->
  ~ In itemId (map nodeId before) ->
  addFirstParent itemId firstParent false (before ++ own :: after) =
    ((before ++ {| nodeId := firstParent; color := color own |}
        :: List.filter (otherThan itemId) after)%list, true).
Proof.
  intros Hown. induction before as [|node rest IH]; intros Hnot; simpl.
  - rewrite Hown, String.eqb_refl, addFirstParent_added. reflexivity.
  - destruct (String.eqb_spec (nodeId node) itemId) as [E|NE].
    + exfalso. apply Hnot. left. exact E.
    + rewrite IH; [reflexivity|]. intros Hin. apply Hnot. right. exact Hin.
Qed.

Lemma addFirstParent_off_lane (itemId firstParent : string)
  (input : list ISCMHistoryItemGraphNode2) :
  ~ In itemId (map nodeId input) ->
  addFirstParent itemId firstParent false input = (input, false).
Proof.
  induction input as [|node rest IH]; simpl; intros Hnot; [reflexivity|].
  destruct (String.eqb_spec (nodeId node) itemId) as [E|NE].
  - exfalso. apply Hnot. left. exact E.
  - rewrite IH; [reflexivity|]. intros Hin. apply Hnot. right. exact Hin.
Qed.

Lemma first_lane_of (itemId : string) (input : list ISCMHistoryItemGraphNode2) :
  In itemId (map nodeId input) ->
  exists before own after,
    input = (before ++ own :: after)%list /\ nodeId own = itemId
    /\ ~ In itemId (map nodeId before).
Proof.
  induction input as [|node rest IH]; simpl; [tauto|].
  intros Hin. destruct (String.eqb_spec (nodeId node) itemId) as [E|NE].
  - exists [], node, rest. repeat split; [exact E | simpl; tauto].
  - destruct Hin as [E|Hin]; [congruence|].
    destruct (IH Hin) as (before & own & after & -> & Hown & Hnot).
    exists (node :: before), own, after. repeat split; [exact Hown|].
    simpl. intros [E|Hin']; [congruence | exact (Hnot Hin')].
Qed.

(** ** Concrete histories *)

(** A commit with six parents as the first item: the cursor ends on the
    palette's last index. *)
Definition octopus : ISCMHistoryItem :=
  {| id := "o"; parentIds := ["p0"; "p1"; "p2"; "p3"; "p4"; "p5"] |}.

Definition wrappedController : SCMRepositoryGraphController :=
  appendHistoryItems newController [octopus].

Example wrappedController_cursor : _colorIndex wrappedController = 5%Z.
Proof. reflexivity. Qed.

Definition mergeCommit : ISCMHistoryItem := {| id := "m"; parentIds := ["a"; "b"] |}.

(** A merge commit [a] that an earlier commit named as its parent. *)
Definition mergeOnLane : ISCMHistoryItem := {| id := "a"; parentIds := ["c"; "d"] |}.

Definition afterFirstMerge : SCMRepositoryGraphController :=
  appendHistoryItems newController [mergeCommit].

Definition rootCommit : ISCMHistoryItem := {| id := "r"; parentIds := [] |}.

(** C7, as stated, fails: a two-parent commit that is on no input lane (here
    the first item of a history) takes two colors from the allocator, one
    for each parent, and no lane color is reused. *)
Lemma merge_commit_off_lane_allocates_two_colors :
  map outputSwimlanes (_historyItems (appendHistoryItem newController mergeCommit))
    = [[{| nodeId := "a"; color := 0 |}; {| nodeId := "b"; color := 1 |}]]
  /\ _colorIndex (appendHistoryItem newController mergeCommit)
       = getGraphColorIndex (getGraphColorIndex (_colorIndex newController))
  /\ _colorIndex (appendHistoryItem newController mergeCommit)
       <> getGraphColorIndex (_colorIndex newController).
Proof. repeat split. discriminate. Qed.

(** C7, amended.  (1) Once the allocator has handed out a color (its cursor
    is not negative; in particular once the cursor has reached the last
    index 5), every lane that [appendHistoryItems] adds carries the color of
    an input lane or an index in 1..5, the cursor stays non-negative, and
    the next index the allocator returns is in 1..5: index 0 does not come
    back.  (2) Appending a commit with two parents that is on an input lane
    renames the commit's first lane to the first parent, keeping its color,
    drops the commit's other lanes, appends one lane for the second parent,
    and advances the allocator exactly once, the new lane carrying the index
    it returned.  (3) Appending a commit with two parents that is on no input
    lane keeps the input lanes and appends one lane per parent, advancing the
    allocator twice. *)
Theorem graph_color_allocation :
  (forall (this : SCMRepositoryGraphController) (items : list ISCMHistoryItem),
     (0 <= _colorIndex this)%Z ->
     exists vms,
       _historyItems (appendHistoryItems this items) = (_historyItems this ++ vms)%list
       /\ map historyItem vms = items
       /\ Forall lanesFromInputOrTail vms
       /\ (0 <= _colorIndex (appendHistoryItems this items))%Z
       /\ inPaletteTail (getGraphColorIndex (_colorIndex (appendHistoryItems this items))))
  /\
  (forall (this : SCMRepositoryGraphController) (item : ISCMHistoryItem)
          (firstParent secondParent : string),
     parentIds item = [firstParent; secondParent] ->
     In (id item) (map nodeId (outputSwimlanesFromPreviousItem this)) ->
     exists before own after,
       outputSwimlanesFromPreviousItem this = (before ++ own :: after)%list
       /\ nodeId own = id item
       /\ ~ In (id item) (map nodeId before)
       /\ appendHistoryItem this item =
            {| _historyItems :=
                 (_historyItems this ++
                    [{| historyItem := item;
                        inputSwimlanes := (before ++ own :: after)%list;
                        outputSwimlanes :=
                          ((before ++ {| nodeId := firstParent; color := color own |}
                              :: List.filter (otherThan (id item)) after)
                           ++ [{| nodeId := secondParent;
                                  color := getGraphColorIndex (_colorIndex this) |}])%list
                     |}])%list;
               _colorIndex := getGraphColorIndex (_colorIndex this) |})
  /\
  (forall (this : SCMRepositoryGraphController) (item : ISCMHistoryItem)
          (firstParent secondParent : string),
     parentIds item = [firstParent; secondParent] ->
     ~ In (id item) (map nodeId (outputSwimlanesFromPreviousItem this)) ->
     let first := getGraphColorIndex (_colorIndex this) in
     let second := getGraphColorIndex first in
     appendHistoryItem this item =
       {| _historyItems :=
            (_historyItems this ++
               [{| historyItem := item;
                   inputSwimlanes := outputSwimlanesFromPreviousItem this;
                   outputSwimlanes :=
                     (outputSwimlanesFromPreviousItem this
                        ++ [{| nodeId := firstParent; color := first |};
                            {| nodeId := secondParent; color := second |}])%list |}])%list;
          _colorIndex := second |}).
Proof.
  split; [|split].
  - intros this items H.
    destruct (appendHistoryItems_spec items this H) as (vms & E & Hm & Hall & H').
    exists vms. repeat split; try assumption.
    + apply (getGraphColorIndex_range _ H').
    + apply (getGraphColorIndex_range _ H').
  - intros this item firstParent secondParent Hparents Hin.
    destruct (first_lane_of _ _ Hin) as (before & own & after & E & Hown & Hnot).
    exists before, own, after. repeat split; try assumption.
    unfold appendHistoryItem. rewrite Hparents, E.
    rewrite (addFirstParent_on_lane (id item) firstParent before after own Hown Hnot).
    reflexivity.
  - intros this item firstParent secondParent Hparents Hnot first second.
    unfold appendHistoryItem. rewrite Hparents.
    rewrite (addFirstParent_off_lane (id item) firstParent _ Hnot). reflexivity.
Qed.

Lemma graph_color_allocation_witness :
  inPaletteTail
    (getGraphColorIndex (_colorIndex (appendHistoryItems wrappedController [mergeCommit])))
  /\ _colorIndex (appendHistoryItem afterFirstMerge mergeOnLane)
       = getGraphColorIndex (_colorIndex afterFirstMerge)
  /\ _colorIndex (appendHistoryItem newController mergeCommit)
       = getGraphColorIndex (getGraphColorIndex (_colorIndex newController)).
Proof.
  split; [|split].
  - destruct (proj1 graph_color_allocation wrappedController [mergeCommit])
      as (vms & _ & _ & _ & _ & H); [vm_compute; discriminate | exact H].
  - destruct (proj1 (proj2 graph_color_allocation) afterFirstMerge mergeOnLane "c" "d")
      as (before & own & after & _ & _ & _ & E);
      [reflexivity | simpl; left; reflexivity | rewrite E; reflexivity].
  - rewrite (proj2 (proj2 graph_color_allocation) newController mergeCommit "a" "b");
      [reflexivity | reflexivity | simpl; tauto].
Defined.

(** ** The node drawn for a commit *)

Definition isCircle (c : SvgChild) : bool :=
  match c with Circle _ _ _ _ _ => true | Path _ _ => false end.

Lemma drawInputSwimlanes_paths (itemId : string) (output : list ISCMHistoryItemGraphNode2)
  (circleIndex index : Z) (input : list ISCMHistoryItemGraphNode2) :
  List.filter isCircle (drawInputSwimlanes itemId output circleIndex index input) = [].
Proof.
  revert index. induction input as [|node rest IH]; intros index; simpl; [reflexivity|].
  rewrite List.filter_app, IH, app_nil_r.
  repeat match goal with |- context [if ?b then _ else _] => destruct b end; reflexivity.
Qed.

Lemma drawRemainingParents_paths (output : list ISCMHistoryItemGraphNode2) (circleIndex : Z)
  (parents : list string) :
  List.filter isCircle (drawRemainingParents output circleIndex parents) = [].
Proof.
  induction parents as [|parent rest IH]; simpl; [reflexivity|].
  rewrite List.filter_app, IH, app_nil_r.
  destruct (at_ output _); reflexivity.
Qed.

(** Whenever the renderer returns, the circles it appended are those of
    [drawNode]: one of radius 4 for exactly one parent, otherwise two of
    radius 5 and 3 around the same centre. *)
Lemma render_node_shape (vm : ISCMHistoryItemViewModel) (svg : Svg) :
  renderSCMHistoryItemGraph vm = Returns svg ->
  exists (circleIndex : Z) (fill : string),
    circles svg =
      if (List.length (parentIds (historyItem vm)) =? 1)%nat then
        [drawCircle circleIndex CIRCLE_RADIUS "#f8f8f8" fill]
      else
        [drawCircle circleIndex (CIRCLE_RADIUS + 1) "#f8f8f8" fill;
         drawCircle circleIndex (CIRCLE_RADIUS - 1) "#f8f8f8" fill].
Proof.
  unfold renderSCMHistoryItemGraph.
  set (inputIndex := findIndex _ (inputSwimlanes vm)).
  set (circleIndex := if negb (inputIndex =? -1)%Z then inputIndex else len (inputSwimlanes vm)).
  destruct (if negb (inputIndex =? -1)%Z then at_ (inputSwimlanes vm) inputIndex
            else at_ (outputSwimlanes vm) circleIndex) as [circleNode|]; [|discriminate].
  intros E. injection E as <-.
  exists circleIndex, (graphColor (color circleNode)).
  unfold circles. cbn [children].
  fold isCircle.
  rewrite !List.filter_app, drawInputSwimlanes_paths, drawRemainingParents_paths.
  cbn [app].
  assert (P : forall b : bool, forall c, List.filter isCircle (if b then [drawVerticalLine c 0 (SWIMLANE_HEIGHT / 2) (graphColor (color circleNode))] else []) = []).
  { intros [|] c; reflexivity. }
  assert (Q : forall b : bool, forall c, List.filter isCircle (if b then [drawVerticalLine c (SWIMLANE_HEIGHT / 2) SWIMLANE_HEIGHT (graphColor (color circleNode))] else []) = []).
  { intros [|] c; reflexivity. }
  rewrite P, Q. cbn [app].
  unfold drawNode, len.
  destruct (parentIds (historyItem vm)) as [|p0 [|p1 rest]]; try reflexivity.
  simpl List.length.
  destruct (Z.eqb_spec (Z.of_nat (S (S (List.length rest)))) 1) as [E|_]; [lia|].
  reflexivity.
Qed.

Lemma findIndexFrom_spec {A : Type} (p : A -> bool) (l : list A) (i : Z) :
  (findIndexFrom p i l = -1 /\ forallb (fun x => negb (p x)) l = true)
  \/ (exists (k : nat) (x : A),
        findIndexFrom p i l = i + Z.of_nat k /\ nth_error l k = Some x /\ p x = true).
Proof.
  revert i. induction l as [|y rest IH]; intros i; simpl.
  - left. split; reflexivity.
  - destruct (p y) eqn:Hy.
    + right. exists 0%nat, y. repeat split; [lia | exact Hy].
    + destruct (IH (i + 1)) as [[E F] | (k & x & E & N & P)].
      * left. split; assumption.
      * right. exists (S k), x. repeat split; [lia | exact N | exact P].
Qed.

(** The renderer returns exactly when the commit is on an input lane or
    the output has a lane at the index after the last input lane. *)
Lemma render_returns_iff (vm : ISCMHistoryItemViewModel) :
  (exists svg, renderSCMHistoryItemGraph vm = Returns svg)
  <-> In (id (historyItem vm)) (map nodeId (inputSwimlanes vm))
      \/ (List.length (inputSwimlanes vm) < List.length (outputSwimlanes vm))%nat.
Proof.
  unfold renderSCMHistoryItemGraph.
  set (p := fun node => String.eqb (nodeId node) (id (historyItem vm))).
  unfold findIndex.
  destruct (findIndexFrom_spec p (inputSwimlanes vm) 0) as [[E F] | (k & x & E & N & P)];
    rewrite E.
  - change (negb (-1 =? -1)%Z) with false. cbv iota.
    assert (Hnot : ~ In (id (historyItem vm)) (map nodeId (inputSwimlanes vm))).
    { intros Hin. apply in_map_iff in Hin as (node & Hid & Hin).
      rewrite forallb_forall in F. specialize (F node Hin).
      unfold p in F. rewrite Hid, String.eqb_refl in F. discriminate. }
    unfold at_, len.
    destruct (Z.ltb_spec (Z.of_nat (List.length (inputSwimlanes vm))) 0) as [Hneg|_]; [lia|].
    rewrite Nat2Z.id.
    destruct (nth_error (outputSwimlanes vm) (List.length (inputSwimlanes vm))) eqn:Hn.
    + split; [|intros _; eexists; reflexivity].
      intros _. right. apply nth_error_Some. rewrite Hn. discriminate.
    + split; [intros [svg H]; discriminate|].
      intros [Hin | Hlt]; [contradiction|].
      apply nth_error_None in Hn. lia.
  - replace (negb (0 + Z.of_nat k =? -1)%Z) with true
      by (symmetry; apply negb_true_iff, Z.eqb_neq; lia).
    cbv iota. unfold at_.
    destruct (Z.ltb_spec (0 + Z.of_nat k) 0) as [Hneg|_]; [lia|].
    replace (Z.to_nat (0 + Z.of_nat k)) with k by lia. rewrite N.
    split; [|intros _; eexists; reflexivity].
    intros _. left. apply in_map_iff. exists x. split.
    + unfold p in P. apply String.eqb_eq in P. exact P.
    + eapply nth_error_In. exact N.
Qed.

Example render_root_on_lane :
  option_map (fun vm => match renderSCMHistoryItemGraph vm with
                        | Returns svg => List.length (circles svg)
                        | Throws _ => 0%nat
                        end)
    (last (_historyItems
       (appendHistoryItems newController [{| id := "c"; parentIds := ["r"] |}; rootCommit])))
  = Some 2%nat.
Proof. reflexivity. Qed.

(** C10 (the code departs from it).  A history whose first item is a commit
    without parents gives a view model with no input and no output lane;
    rendering it throws while reading the color of the circle's lane, so no
    circle is emitted at all. *)
Theorem render_first_root_commit_throws :
  _historyItems (appendHistoryItems newController [rootCommit])
    = [{| historyItem := rootCommit; inputSwimlanes := []; outputSwimlanes := [] |}]
  /\ renderSCMHistoryItemGraph
       {| historyItem := rootCommit; inputSwimlanes := []; outputSwimlanes := [] |}
     = Throws "TypeError: Cannot read properties of undefined (reading 'color')".
Proof. split; reflexivity. Qed.

(** ** The view models of a history *)

(** Each view model's input lanes are the output lanes of the one before. *)
Fixpoint chained (previous : list ISCMHistoryItemGraphNode2)
  (vms : list ISCMHistoryItemViewModel) : Prop :=
  match vms with
  | [] => True
  | vm :: rest => inputSwimlanes vm = previous /\ chained (outputSwimlanes vm) rest
  end.

Lemma outputSwimlanesFromPreviousItem_snoc (this : SCMRepositoryGraphController)
  (vms : list ISCMHistoryItemViewModel) (vm : ISCMHistoryItemViewModel) :
  _historyItems this = (vms ++ [vm])%list ->
  outputSwimlanesFromPreviousItem this = outputSwimlanes vm.
Proof.
  intros E. unfold outputSwimlanesFromPreviousItem. rewrite E, rev_app_distr. reflexivity.
Qed.

Lemma appendHistoryItem_vm (this : SCMRepositoryGraphController) (item : ISCMHistoryItem) :
  exists vm,
    _historyItems (appendHistoryItem this item) = (_historyItems this ++ [vm])%list
    /\ historyItem vm = item
    /\ inputSwimlanes vm = outputSwimlanesFromPreviousItem this.
Proof.
  unfold appendHistoryItem.
  destruct (parentIds item) as [|firstParent others].
  - eexists. repeat split.
  - destruct (addFirstParent (id item) firstParent false
                (outputSwimlanesFromPreviousItem this)) as [out1 added].
    destruct (addUnprocessedParents (if added then others else firstParent :: others)
                (_colorIndex this)) as [out2 c'].
    eexists. repeat split.
Qed.

(** X6.  [appendHistoryItems] keeps the view models it had, appends one view
    model per history item, in order, and chains them: the input lanes of
    the first new view model are the output lanes of the last one before
    (none for an empty history), and the input lanes of every later one are
    the output lanes of its predecessor. *)
Theorem appendHistoryItems_chains_lanes (items : list ISCMHistoryItem)
  (this : SCMRepositoryGraphController) :
  exists vms,
    _historyItems (appendHistoryItems this items) = (_historyItems this ++ vms)%list
    /\ map historyItem vms = items
    /\ chained (outputSwimlanesFromPreviousItem this) vms.
Proof.
  unfold appendHistoryItems.
  revert this. induction items as [|item rest IH]; intros this; simpl.
  - exists []. rewrite app_nil_r. repeat split.
  - destruct (appendHistoryItem_vm this item) as (vm & E & Hi & Hin).
    destruct (IH (appendHistoryItem this item)) as (vms & E' & Hm & Hc).
    exists (vm :: vms). repeat split.
    + rewrite E', E, <- app_assoc. reflexivity.
    + simpl. rewrite Hi, Hm. reflexivity.
    + exact Hin.
    + rewrite (outputSwimlanesFromPreviousItem_snoc _ _ _ E) in Hc. exact Hc.
Qed.

(** ** Lane colors index the palette *)

Definition inPalette (c : Z) : Prop := (0 <= c < len graphColors)%Z.

Definition lanesInPalette (lanes : list ISCMHistoryItemGraphNode2) : Prop :=
  Forall (fun lane => inPalette (color lane)) lanes.

Definition paletteInvariant (this : SCMRepositoryGraphController) : Prop :=
  (-1 <= _colorIndex this < len graphColors)%Z /\
  Forall (fun vm => lanesInPalette (inputSwimlanes vm) /\ lanesInPalette (outputSwimlanes vm))
    (_historyItems this).

Lemma getGraphColorIndex_inPalette (colorIndex : Z) :
  (-1 <= colorIndex < len graphColors)%Z -> inPalette (getGraphColorIndex colorIndex).
Proof.
  unfold inPalette, getGraphColorIndex, len.
  change (Z.of_nat (List.length graphColors)) with 6%Z.
  intros H. destruct (Z.ltb_spec colorIndex (6 - 1)); lia.
Qed.

Lemma addUnprocessedParents_inPalette (parents : list string) (colorIndex : Z) :
  (-1 <= colorIndex < len graphColors)%Z ->
  lanesInPalette (fst (addUnprocessedParents parents colorIndex))
  /\ (-1 <= snd (addUnprocessedParents parents colorIndex) < len graphColors)%Z.
Proof.
  revert colorIndex. induction parents as [|p rest IH]; intros colorIndex H; simpl.
  - split; [constructor | exact H].
  - pose proof (getGraphColorIndex_inPalette colorIndex H) as Hc.
    destruct (IH (getGraphColorIndex colorIndex)) as [IH1 IH2];
      [unfold inPalette in Hc; lia|].
    destruct (addUnprocessedParents rest (getGraphColorIndex colorIndex)) as [lanes c'].
    simpl in *. split; [constructor; assumption | exact IH2].
Qed.

Lemma addFirstParent_inPalette (itemId firstParent : string) (added : bool)
  (input : list ISCMHistoryItemGraphNode2) :
  lanesInPalette input ->
  lanesInPalette (fst (addFirstParent itemId firstParent added input)).
Proof.
  intros Hin. unfold lanesInPalette in *.
  pose proof (addFirstParent_colors itemId firstParent added input) as H.
  eapply List.Forall_impl; [|exact H]. simpl. intros lane Hl.
  apply in_map_iff in Hl as (node & E & Hnode). rewrite <- E.
  rewrite List.Forall_forall in Hin. exact (Hin node Hnode).
Qed.

Lemma outputSwimlanesFromPreviousItem_inPalette (this : SCMRepositoryGraphController) :
  paletteInvariant this -> lanesInPalette (outputSwimlanesFromPreviousItem this).
Proof.
  intros [_ H]. unfold outputSwimlanesFromPreviousItem.
  destruct (List.rev (_historyItems this)) as [|previous l] eqn:E; [constructor|].
  rewrite List.Forall_forall in H. apply (H previous).
  apply in_rev. rewrite E. left. reflexivity.
Qed.

Lemma appendHistoryItem_paletteInvariant (this : SCMRepositoryGraphController)
  (item : ISCMHistoryItem) :
  paletteInvariant this -> paletteInvariant (appendHistoryItem this item).
Proof.
  intros Hinv.
  pose proof (outputSwimlanesFromPreviousItem_inPalette this Hinv) as Hprev.
  destruct Hinv as [Hc Hall].
  unfold appendHistoryItem.
  destruct (parentIds item) as [|firstParent others].
  - split; [exact Hc|]. simpl. apply Forall_app. split; [exact Hall|].
    constructor; [|constructor]. split; [exact Hprev | constructor].
  - pose proof (addFirstParent_inPalette (id item) firstParent false _ Hprev) as H1.
    destruct (addFirstParent (id item) firstParent false
                (outputSwimlanesFromPreviousItem this)) as [out1 added].
    pose proof (addUnprocessedParents_inPalette
                  (if added then others else firstParent :: others) (_colorIndex this) Hc)
      as [H2 H3].
    destruct (addUnprocessedParents (if added then others else firstParent :: others)
                (_colorIndex this)) as [out2 c'].
    simpl in *. split; [exact H3|]. apply Forall_app. split; [exact Hall|].
    constructor; [|constructor]. split; [exact Hprev|].
    apply Forall_app. split; assumption.
Qed.

Lemma appendHistoryItems_paletteInvariant (items : list ISCMHistoryItem)
  (this : SCMRepositoryGraphController) :
  paletteInvariant this -> paletteInvariant (appendHistoryItems this items).
Proof.
  unfold appendHistoryItems. revert this.
  induction items as [|item rest IH]; intros this H; simpl; [exact H|].
  apply IH, appendHistoryItem_paletteInvariant, H.
Qed.

Lemma graphColor_inPalette (c : Z) : inPalette c -> In (graphColor c) graphColors.
Proof.
  unfold inPalette, len. change (Z.of_nat (List.length graphColors)) with 6%Z.
  intros H.
  assert (E : (c = 0 \/ c = 1 \/ c = 2 \/ c = 3 \/ c = 4 \/ c = 5)%Z) by lia.
  destruct E as [-> | [-> | [-> | [-> | [-> | ->] ] ] ] ]; vm_compute; tauto.
Qed.

(** X7.  Whatever batches of history items are appended to a new controller,
    and wherever the history is cleared in between, the color of every input
    and output lane of every view model is an index of the palette, so the
    renderer's [graphColors[color]] is one of the six palette colors and
    never undefined. *)
Theorem lane_colors_index_the_palette
  (batches : list (option (list ISCMHistoryItem))) :
  let step this batch :=
    match batch with
    | Some items => appendHistoryItems this items
    | None => clearHistoryItems this
    end in
  let this := fold_left step batches newController in
  forall (vm : ISCMHistoryItemViewModel) (lane : ISCMHistoryItemGraphNode2),
    In vm (_historyItems this) ->
    In lane (inputSwimlanes vm ++ outputSwimlanes vm) ->
    (0 <= color lane < 6)%Z /\ In (graphColor (color lane)) graphColors.
Proof.
  intros step this.
  assert (Hinv : paletteInvariant this).
  { subst this.
    assert (H0 : paletteInvariant newController).
    { split; [change (len graphColors) with 6%Z; simpl; lia | constructor]. }
    revert H0. generalize newController.
    induction batches as [|batch rest IH]; intros c Hc; simpl; [exact Hc|].
    apply IH. destruct batch as [items|]; simpl.
    - apply appendHistoryItems_paletteInvariant, Hc.
    - split; [change (len graphColors) with 6%Z; simpl; lia | constructor]. }
  intros vm lane Hvm Hlane.
  destruct Hinv as [_ Hall]. rewrite List.Forall_forall in Hall.
  destruct (Hall vm Hvm) as [Hi Ho].
  assert (Hp : inPalette (color lane)).
  { apply in_app_or in Hlane as [H|H].
    - unfold lanesInPalette in Hi. rewrite List.Forall_forall in Hi. exact (Hi lane H).
    - unfold lanesInPalette in Ho. rewrite List.Forall_forall in Ho. exact (Ho lane H). }
  split; [exact Hp | exact (graphColor_inPalette _ Hp)].
Qed.

Lemma lane_colors_index_the_palette_witness :
  let this :=
    appendHistoryItems (clearHistoryItems (appendHistoryItems newController [mergeCommit]))
      [octopus] in
  map (fun vm => map color (outputSwimlanes vm)) (_historyItems this) = [[0; 1; 2; 3; 4; 5]%Z]
  /\ In (graphColor 5) graphColors.
Proof.
  split; [reflexivity|].
  refine (proj2 (lane_colors_index_the_palette [Some [mergeCommit]; None; Some [octopus]]
                   {| historyItem := octopus; inputSwimlanes := [];
                      outputSwimlanes :=
                        [{| nodeId := "p0"; color := 0 |}; {| nodeId := "p1"; color := 1 |};
                         {| nodeId := "p2"; color := 2 |}; {| nodeId := "p3"; color := 3 |};
                         {| nodeId := "p4"; color := 4 |}; {| nodeId := "p5"; color := 5 |}] |}
                   {| nodeId := "p5"; color := 5 |} _ _)).
  - left. reflexivity.
  - simpl. auto 10.
Defined.

(** ** Where the node of a commit is drawn *)

Lemma findIndexFrom_none {A : Type} (p : A -> bool) (l : list A) (i : Z) :
  forallb (fun x => negb (p x)) l = true -> findIndexFrom p i l = (-1)%Z.
Proof.
  revert i. induction l as [|x rest IH]; intros i H; simpl in *; [reflexivity|].
  apply andb_prop in H as [Hx Hrest]. apply negb_true_iff in Hx. rewrite Hx.
  apply IH, Hrest.
Qed.

Lemma findIndexFrom_first {A : Type} (p : A -> bool) (before after : list A) (own : A)
  (i : Z) :
  forallb (fun x => negb (p x)) before = true ->
  p own = true ->
  findIndexFrom p i (before ++ own :: after) = (i + len before)%Z.
Proof.
  revert i. induction before as [|x rest IH]; intros i H Hown; simpl in *.
  - rewrite Hown. unfold len. simpl. lia.
  - apply andb_prop in H as [Hx Hrest]. apply negb_true_iff in Hx. rewrite Hx.
    rewrite (IH (i + 1)%Z Hrest Hown). unfold len. simpl List.length. lia.
Qed.

Lemma no_lane_of (itemId : string) (lanes : list ISCMHistoryItemGraphNode2) :
  ~ In itemId (map nodeId lanes) ->
  forallb (fun node => negb (String.eqb (nodeId node) itemId)) lanes = true.
Proof.
  intros Hnot. apply forallb_forall. intros node Hin.
  apply negb_true_iff. apply String.eqb_neq. intros E. apply Hnot.
  apply in_map_iff. exists node. split; assumption.
Qed.

Lemma at_length {A : Type} (before after : list A) (own : A) :
  at_ (before ++ own :: after) (len before) = Some own.
Proof.
  unfold at_, len.
  destruct (Z.ltb_spec (Z.of_nat (List.length before)) 0) as [Hneg|_]; [lia|].
  rewrite Nat2Z.id, nth_error_app2 by lia. rewrite Nat.sub_diag. reflexivity.
Qed.

(** The radii of the circles drawn for a commit with the given parents. *)
Definition nodeRadii (parents : list string) : list Z :=
  if (List.length parents =? 1)%nat then [4%Z] else [5%Z; 3%Z].

Lemma circles_of_render (vm : ISCMHistoryItemViewModel) (circleIndex : Z)
  (circleNode : ISCMHistoryItemGraphNode2) (lanes parents toCircle fromCircle : list SvgChild)
  (h w : Z) :
  List.filter isCircle lanes = [] ->
  List.filter isCircle parents = [] ->
  List.filter isCircle toCircle = [] ->
  List.filter isCircle fromCircle = [] ->
  circles
    {| children :=
         (lanes ++ parents ++ toCircle ++ fromCircle
            ++ drawNode (parentIds (historyItem vm)) circleIndex
                 (graphColor (color circleNode)))%list;
       height := h; width := w |}
  = map (fun r => Circle (11 * (circleIndex + 1)) 11 r (graphColor (color circleNode)) "#f8f8f8")
      (nodeRadii (parentIds (historyItem vm))).
Proof.
  intros H1 H2 H3 H4. unfold circles. cbn [children]. fold isCircle.
  rewrite !List.filter_app, H1, H2, H3, H4. cbn [app].
  unfold drawNode, nodeRadii, len.
  destruct (parentIds (historyItem vm)) as [|p0 [|p1 rest]]; try reflexivity.
  simpl List.length.
  destruct (Z.eqb_spec (Z.of_nat (S (S (List.length rest)))) 1) as [E|_]; [lia|].
  reflexivity.
Qed.

(** X8.  Whenever [renderSCMHistoryItemGraph] returns, the picture is 22
    high and 11 wide per lane of the longer of the two lane lists, plus one
    lane; its circles (one of radius 4 for exactly one parent, otherwise two
    of radius 5 and 3) are centred at x = 11 * (k + 1), y = 11, stroked
    [#f8f8f8] and filled with the palette color of one lane: the FIRST input
    lane that carries the commit's id, k being its index, or, when no input
    lane carries it, the output lane at index k = number of input lanes. *)
Theorem render_node_position (vm : ISCMHistoryItemViewModel) (svg : Svg) :
  renderSCMHistoryItemGraph vm = Returns svg ->
  let input := inputSwimlanes vm in
  let output := outputSwimlanes vm in
  height svg = 22%Z /\
  width svg = (11 * (Z.max (len input) (len output) + 1))%Z /\
  exists (k : nat) (lane : ISCMHistoryItemGraphNode2),
    ((exists before after,
        input = (before ++ lane :: after)%list /\ nodeId lane = id (historyItem vm)
        /\ ~ In (id (historyItem vm)) (map nodeId before) /\ k = List.length before)
     \/ (~ In (id (historyItem vm)) (map nodeId input)
         /\ k = List.length input /\ nth_error output k = Some lane))
    /\ circles svg =
         map (fun r => Circle (11 * (Z.of_nat k + 1)) 11 r (graphColor (color lane)) "#f8f8f8")
           (nodeRadii (parentIds (historyItem vm))).
Proof.
  intros Hr input output. revert Hr.
  unfold renderSCMHistoryItemGraph. fold input output.
  set (p := fun node => String.eqb (nodeId node) (id (historyItem vm))).
  assert (V1 : forall (b : bool) c y1 y2 col,
             List.filter isCircle (if b then [drawVerticalLine c y1 y2 col] else []) = []).
  { intros [|] c y1 y2 col; reflexivity. }
  destruct (in_dec string_dec (id (historyItem vm)) (map nodeId input)) as [Hin|Hnot].
  - destruct (first_lane_of _ _ Hin) as (before & own & after & E & Hown & Hnb).
    assert (Ei : findIndexFrom p 0 input = len before).
    { rewrite E, (findIndexFrom_first p before after own 0 (no_lane_of _ _ Hnb)).
      - apply Z.add_0_l.
      - unfold p. rewrite Hown. apply String.eqb_refl. }
    assert (Ea : at_ input (len before) = Some own).
    { rewrite E. apply at_length. }
    unfold findIndex. rewrite Ei.
    replace (negb (len before =? -1)%Z) with true
      by (symmetry; apply negb_true_iff, Z.eqb_neq; unfold len; lia).
    cbv iota. rewrite Ea.
    intros Hr. injection Hr as <-. cbn [height width].
    split; [reflexivity|]. split; [reflexivity|].
    exists (List.length before), own. split.
    + left. exists before, after. repeat split; assumption.
    + exact (circles_of_render vm (len before) own _ _ _ _ _ _
               (drawInputSwimlanes_paths _ _ _ _ _) (drawRemainingParents_paths _ _ _)
               (V1 true _ _ _ _) (V1 _ _ _ _ _)).
  - unfold findIndex.
    rewrite (findIndexFrom_none p input 0 (no_lane_of _ _ Hnot)).
    change (negb (-1 =? -1)%Z) with false. cbv iota.
    unfold at_ at 1.
    destruct (Z.ltb_spec (len input) 0) as [Hneg|_]; [unfold len in Hneg; lia|].
    unfold len at 1. rewrite Nat2Z.id.
    destruct (nth_error output (List.length input)) as [lane|] eqn:Hn; [|discriminate].
    intros Hr. injection Hr as <-. cbn [height width].
    split; [reflexivity|]. split; [reflexivity|].
    exists (List.length input), lane. split.
    + right. repeat split; assumption.
    + exact (circles_of_render vm (len input) lane _ _ _ _ _ _
               (drawInputSwimlanes_paths _ _ _ _ _) (drawRemainingParents_paths _ _ _)
               (V1 false 0%Z 0%Z 0%Z EmptyString) (V1 _ _ _ _ _)).
Qed.

Lemma render_node_position_witness :
  exists svg,
    renderSCMHistoryItemGraph
      {| historyItem := mergeOnLane;
         inputSwimlanes := [{| nodeId := "x"; color := 2 |}; {| nodeId := "a"; color := 3 |};
                            {| nodeId := "a"; color := 4 |}];
         outputSwimlanes := [{| nodeId := "x"; color := 2 |}; {| nodeId := "c"; color := 3 |};
                             {| nodeId := "d"; color := 5 |}] |} = Returns svg
    /\ width svg = 44%Z
    /\ circles svg = [Circle 22 11 5 "#CC6633" "#f8f8f8"; Circle 22 11 3 "#CC6633" "#f8f8f8"].
Proof.
  eexists. split; [reflexivity|].
  match goal with
  | |- width ?s = _ /\ _ =>
      destruct (render_node_position
                  {| historyItem := mergeOnLane;
                     inputSwimlanes := [{| nodeId := "x"; color := 2 |};
                                        {| nodeId := "a"; color := 3 |};
                                        {| nodeId := "a"; color := 4 |}];
                     outputSwimlanes := [{| nodeId := "x"; color := 2 |};
                                         {| nodeId := "c"; color := 3 |};
                                         {| nodeId := "d"; color := 5 |}] |} s eq_refl)
        as (_ & Hw & _)
  end.
  split; [exact Hw | reflexivity].
Defined.

(** ** Which appended items can be drawn *)

Lemma addUnprocessedParents_length (parents : list string) (colorIndex : Z) :
  List.length (fst (addUnprocessedParents parents colorIndex)) = List.length parents.
Proof.
  revert colorIndex. induction parents as [|p rest IH]; intros colorIndex; simpl; [reflexivity|].
  specialize (IH (getGraphColorIndex colorIndex)).
  destruct (addUnprocessedParents rest (getGraphColorIndex colorIndex)). simpl in *.
  now rewrite IH.
Qed.

(** X9.  The view model that [appendHistoryItems] builds for a history item
    can be rendered exactly when the item has a parent or its id is on one
    of the lanes coming from the previous item; for an item without parents
    that no earlier item named as a parent, rendering throws. *)
Theorem appended_item_renders_iff (this : SCMRepositoryGraphController)
  (item : ISCMHistoryItem) :
  exists vm,
    _historyItems (appendHistoryItem this item) = (_historyItems this ++ [vm])%list /\
    ((exists svg, renderSCMHistoryItemGraph vm = Returns svg)
     <-> parentIds item <> []
         \/ In (id item) (map nodeId (outputSwimlanesFromPreviousItem this))).
Proof.
  set (input := outputSwimlanesFromPreviousItem this).
  destruct (in_dec string_dec (id item) (map nodeId input)) as [Hin|Hnot].
  - destruct (appendHistoryItem_vm this item) as (vm & E & Hi & Hinp).
    exists vm. split; [exact E|].
    rewrite render_returns_iff, Hi, Hinp. fold input. tauto.
  - unfold appendHistoryItem. fold input.
    destruct (parentIds item) as [|firstParent others] eqn:Hp.
    + eexists. split; [reflexivity|].
      rewrite render_returns_iff. cbn [historyItem inputSwimlanes outputSwimlanes].
      simpl List.length. split; [intros [H|H]; [contradiction | lia]|].
      intros [H|H]; [congruence | contradiction].
    + rewrite (addFirstParent_off_lane (id item) firstParent input Hnot).
      pose proof (addUnprocessedParents_length (firstParent :: others) (_colorIndex this))
        as Hlen.
      destruct (addUnprocessedParents (firstParent :: others) (_colorIndex this))
        as [out2 c'].
      eexists. split; [reflexivity|].
      rewrite render_returns_iff. cbn [historyItem inputSwimlanes outputSwimlanes].
      simpl in Hlen. rewrite length_app, Hlen.
      split; [intros _; left; discriminate | intros _; right; lia].
Qed.

(** ** A linear history *)

(** The history items of a chain of commits: [c] with the single parent
    [p1], [p1] with the single parent [p2], and so on. *)
Fixpoint linearHistory (c : string) (ancestors : list string) : list ISCMHistoryItem :=
  match ancestors with
  | [] => []
  | p :: rest => {| id := c; parentIds := [p] |} :: linearHistory p rest
  end.

(** A view model drawn as a single node on the first lane, in the first
    palette color. *)
Definition onFirstLane (vm : ISCMHistoryItemViewModel) : Prop :=
  map color (outputSwimlanes vm) = [0%Z] /\
  exists svg,
    renderSCMHistoryItemGraph vm = Returns svg /\
    circles svg = [Circle 11 11 4 "#007ACC" "#f8f8f8"] /\
    width svg = 22%Z.

Lemma first_of_linear_onFirstLane (c p : string) :
  onFirstLane {| historyItem := {| id := c; parentIds := [p] |};
                 inputSwimlanes := [];
                 outputSwimlanes := [{| nodeId := p; color := 0 |}] |}.
Proof.
  split; [reflexivity|].
  unfold renderSCMHistoryItemGraph, findIndex.
  cbn [historyItem inputSwimlanes outputSwimlanes id parentIds findIndexFrom nodeId].
  rewrite String.eqb_refl.
  eexists. split; [reflexivity|]. split; reflexivity.
Qed.

Lemma next_of_linear_onFirstLane (c p : string) :
  onFirstLane {| historyItem := {| id := c; parentIds := [p] |};
                 inputSwimlanes := [{| nodeId := c; color := 0 |}];
                 outputSwimlanes := [{| nodeId := p; color := 0 |}] |}.
Proof.
  split; [reflexivity|].
  unfold renderSCMHistoryItemGraph, findIndex.
  cbn [historyItem inputSwimlanes outputSwimlanes id parentIds findIndexFrom nodeId
       drawInputSwimlanes].
  rewrite !String.eqb_refl.
  eexists. split; [reflexivity|]. split; reflexivity.
Qed.

Lemma appendHistoryItem_next_of_linear (this : SCMRepositoryGraphController) (c p : string) :
  outputSwimlanesFromPreviousItem this = [{| nodeId := c; color := 0 |}] ->
  appendHistoryItem this {| id := c; parentIds := [p] |} =
    {| _historyItems :=
         (_historyItems this ++
            [{| historyItem := {| id := c; parentIds := [p] |};
                inputSwimlanes := [{| nodeId := c; color := 0 |}];
                outputSwimlanes := [{| nodeId := p; color := 0 |}] |}])%list;
       _colorIndex := _colorIndex this |}.
Proof.
  intros H. unfold appendHistoryItem. rewrite H. simpl. rewrite String.eqb_refl.
  reflexivity.
Qed.

Lemma linearHistory_from (ancestors : list string) (c : string)
  (this : SCMRepositoryGraphController) :
  outputSwimlanesFromPreviousItem this = [{| nodeId := c; color := 0 |}] ->
  Forall onFirstLane (_historyItems this) ->
  Forall onFirstLane (_historyItems (appendHistoryItems this (linearHistory c ancestors)))
  /\ _colorIndex (appendHistoryItems this (linearHistory c ancestors)) = _colorIndex this
  /\ List.length (_historyItems (appendHistoryItems this (linearHistory c ancestors)))
     = (List.length (_historyItems this) + List.length ancestors)%nat.
Proof.
  unfold appendHistoryItems.
  revert c this. induction ancestors as [|p rest IH]; intros c this Hprev Hall; simpl.
  - repeat split; [exact Hall | lia].
  - rewrite (appendHistoryItem_next_of_linear this c p Hprev).
    match goal with |- context [fold_left _ _ ?t] => destruct (IH p t) as (H1 & H2 & H3) end.
    + unfold outputSwimlanesFromPreviousItem. simpl. rewrite rev_app_distr. reflexivity.
    + simpl. apply Forall_app. split; [exact Hall|].
      constructor; [apply next_of_linear_onFirstLane | constructor].
    + repeat split; [exact H1 | exact H2|].
      rewrite H3. simpl. rewrite length_app. simpl. lia.
Qed.

(** X10.  A linear history (every commit has one parent, which is the next
    item) appended to a new controller takes a single color from the
    allocator, however long it is: every view model has exactly one output
    lane, of color 0, and renders as one circle of radius 4 on the first
    lane (centre 11, 11) filled with the first palette color, in a picture
    two lanes wide. *)
Theorem linear_history_stays_on_first_lane (c : string) (ancestors : list string) :
  let this := appendHistoryItems newController (linearHistory c ancestors) in
  List.length (_historyItems this) = List.length ancestors /\
  Forall onFirstLane (_historyItems this) /\
  _colorIndex this = match ancestors with [] => (-1)%Z | _ :: _ => 0%Z end.
Proof.
  destruct ancestors as [|p rest]; [repeat split; constructor|].
  intros this. subst this. unfold appendHistoryItems. simpl.
  change (appendHistoryItem newController {| id := c; parentIds := [p] |}) with
    {| _historyItems :=
         [{| historyItem := {| id := c; parentIds := [p] |};
             inputSwimlanes := [];
             outputSwimlanes := [{| nodeId := p; color := 0 |}] |}];
       _colorIndex := 0 |}.
  match goal with |- context [fold_left _ _ ?t] =>
    destruct (linearHistory_from rest p t) as (H1 & H2 & H3) end.
  - reflexivity.
  - constructor; [apply first_of_linear_onFirstLane | constructor].
  - unfold appendHistoryItems in *. rewrite H3. repeat split; [exact H1 | exact H2].
Qed.

(** ** [findLastIndex] *)

Lemma findLastIndexFrom_spec (nodes : list ISCMHistoryItemGraphNode2) (wanted : string)
  (i : Z) :
  (0 <= i)%Z ->
  (findLastIndexFrom nodes wanted i = (-1)%Z /\ ~ In wanted (map nodeId nodes)) \/
  (exists before own after,
     nodes = (before ++ own :: after)%list /\ nodeId own = wanted /\
     ~ In wanted (map nodeId after) /\
     findLastIndexFrom nodes wanted i = (i + len before)%Z).
Proof.
  revert i. induction nodes as [|node rest IH]; intros i Hi; simpl.
  - left. split; [reflexivity | tauto].
  - destruct (IH (i + 1)%Z) as [[E Hnot] | (before & own & after & -> & Hown & Hnot & E)];
      [lia | |].
    + rewrite E. change (-1 =? -1)%Z with true. cbv iota.
      destruct (String.eqb_spec (nodeId node) wanted) as [Hn|Hn].
      * right. exists [], node, rest. repeat split; [exact Hn | exact Hnot|].
        unfold len. simpl. lia.
      * left. split; [reflexivity|]. intros [H|H]; [congruence | exact (Hnot H)].
    + rewrite E.
      destruct (Z.eqb_spec (i + 1 + len before) (-1)) as [Hneg|_];
        [unfold len in Hneg; lia|].
      right. exists (node :: before), own, after. repeat split; [exact Hown | exact Hnot|].
      unfold len. simpl List.length. lia.
Qed.

(** X11.  [findLastIndex] returns the greatest index whose node carries the
    given id, and -1 exactly when no node carries it. *)
Theorem findLastIndex_is_last_occurrence (nodes : list ISCMHistoryItemGraphNode2)
  (wanted : string) :
  (findLastIndex nodes wanted = (-1)%Z /\ ~ In wanted (map nodeId nodes)) \/
  (exists before own after,
     nodes = (before ++ own :: after)%list /\ nodeId own = wanted /\
     ~ In wanted (map nodeId after) /\
     findLastIndex nodes wanted = Z.of_nat (List.length before)).
Proof.
  unfold findLastIndex.
  destruct (findLastIndexFrom_spec nodes wanted 0) as [H | (b & o & a & H1 & H2 & H3 & H4)];
    [lia | left; exact H |].
  right. exists b, o, a. repeat split; try assumption.
Qed.


End ScmHistory.

(* ===================================================================== *)
(** * class ScmMultiDiffSourceResolver : the diff-source URI              *)
(* ===================================================================== *)

Module ScmMultiDiff.

Import Json.
#[local] Open Scope string_scope.

(** The components of a [URI] of vs/base/common/uri. *)
Record URI : Type := {
  scheme : string;
  authority : string;
  path : string;
  query : string;
  fragment : string
}.

(** Modelled from the spec: [URI.from] of vs/base/common/uri, which is not
    among the sources.  The diff-source URI is said to have the fixed scheme
    and the JSON text as its query; the components not given are empty. *)
Definition URI_from (scheme_ query_ : string) : URI :=
  {| scheme := scheme_; authority := ""; path := ""; query := query_; fragment := "" |}.

Definition _scheme : string := "scm-multi-diff-source".

(** The object literal [{ repositoryUri, groupId }]. *)
Definition UriFields (repositoryUri groupId : string) : json :=
  JObject [("repositoryUri", JString repositoryUri); ("groupId", JString groupId)].

Section Resolver.

(** [JSON.stringify], [JSON.parse] ([None]: it throws) and [URI.parse] are
    called, not defined, by the class. *)
Variable JSON_stringify : json -> string.
Variable JSON_parse : string -> option json.
Variable URI_parse : string -> URI.

(** [getMultiDiffSourceUri] *)
Definition getMultiDiffSourceUri (repositoryUri groupId : string) : URI :=
  URI_from _scheme (JSON_stringify (UriFields repositoryUri groupId)).

(** [parseUri]; [None] is [undefined]. *)
Definition parseUri (uri : URI) : option (URI * string) :=
  if negb (String.eqb (scheme uri) _scheme) then None
  else
    match JSON_parse (query uri) with
    | None => None
    | Some query_ =>
        if negb (isObjectLike query_) then None
        else
          match asString (getProperty query_ "repositoryUri"),
                asString (getProperty query_ "groupId") with
          | Some repositoryUri, Some groupId => Some (URI_parse repositoryUri, groupId)
          | _, _ => None
          end
    end.

(** [canHandleUri] *)
Definition canHandleUri (uri : URI) : bool :=
  match parseUri uri with Some _ => true | None => false end.

(** The query of a URI is the text of a JSON object with string fields
    [repositoryUri] and [groupId]. *)
Definition queryHasFields (uri : URI) : Prop :=
  exists (q : json) (repositoryUri groupId : string),
    JSON_parse (query uri) = Some q
    /\ (exists members, q = JObject members)
    /\ getProperty q "repositoryUri" = Some (JString repositoryUri)
    /\ getProperty q "groupId" = Some (JString groupId).

Lemma canHandleUri_true_iff (uri : URI) :
  canHandleUri uri = true <-> scheme uri = _scheme /\ queryHasFields uri.
Proof.
  unfold canHandleUri, parseUri, queryHasFields. split.
  - destruct (String.eqb_spec (scheme uri) _scheme) as [E|NE]; simpl; [|discriminate].
    destruct (JSON_parse (query uri)) as [q|]; [|discriminate].
    destruct q as [ | b | n | t | items | members]; simpl; try discriminate.
    destruct (assoc "repositoryUri" members) as [[ | | | r | | ]|] eqn:Hr; simpl; try discriminate.
    destruct (assoc "groupId" members) as [[ | | | g | | ]|] eqn:Hg; simpl; try discriminate.
    intros _. split; [exact E|].
    exists (JObject members), r, g. simpl. repeat split; eauto.
  - intros [E (q & r & g & Hq & [members ->] & Hr & Hg)].
    rewrite E, String.eqb_refl, Hq. simpl in *. rewrite Hr, Hg. reflexivity.
Qed.

End Resolver.

(** C8.  For a pair of strings that [JSON.parse] reads back from
    [JSON.stringify]'s text of [{ repositoryUri, groupId }], the URI built by
    [getMultiDiffSourceUri] has the scheme [scm-multi-diff-source] and that
    JSON text as its query, [parseUri] recovers [(URI.parse(repositoryUri),
    groupId)] from it and [canHandleUri] accepts it.  Conversely
    [canHandleUri] rejects every URI of another scheme and every URI whose
    query is not the text of a JSON object with string [repositoryUri] and
    [groupId] fields. *)
Theorem multi_diff_source_uri_round_trip
  (JSON_stringify : json -> string) (JSON_parse : string -> option json)
  (URI_parse : string -> URI) :
  (forall repositoryUri groupId : string,
     JSON_parse (JSON_stringify (UriFields repositoryUri groupId))
       = Some (UriFields repositoryUri groupId) ->
     let uri := getMultiDiffSourceUri JSON_stringify repositoryUri groupId in
     scheme uri = "scm-multi-diff-source"
     /\ query uri = JSON_stringify (UriFields repositoryUri groupId)
     /\ parseUri JSON_parse URI_parse uri = Some (URI_parse repositoryUri, groupId)
     /\ canHandleUri JSON_parse URI_parse uri = true)
  /\ (forall uri : URI,
        scheme uri <> "scm-multi-diff-source" ->
        canHandleUri JSON_parse URI_parse uri = false)
  /\ (forall uri : URI,
        ~ queryHasFields JSON_parse uri ->
        canHandleUri JSON_parse URI_parse uri = false).
Proof.
  split; [|split].
  - intros r g H uri. unfold uri, canHandleUri, parseUri, getMultiDiffSourceUri. simpl.
    rewrite H. simpl. repeat split; reflexivity.
  - intros uri H.
    destruct (canHandleUri JSON_parse URI_parse uri) eqn:E; [|reflexivity].
    apply canHandleUri_true_iff in E. destruct E as [E _]. contradiction.
  - intros uri H.
    destruct (canHandleUri JSON_parse URI_parse uri) eqn:E; [|reflexivity].
    apply canHandleUri_true_iff in E. destruct E as [_ E]. contradiction.
Qed.

(** With the printer and parser of [Json] for [JSON.stringify] and
    [JSON.parse], every pair of strings comes back. *)
Lemma printed_uri_is_parsed (URI_parse : string -> URI) (repositoryUri groupId : string) :
  parseUri parse URI_parse (getMultiDiffSourceUri stringify repositoryUri groupId)
    = Some (URI_parse repositoryUri, groupId).
Proof.
  unfold parseUri, getMultiDiffSourceUri. cbn [URI_from scheme query].
  unfold UriFields. rewrite parse_stringify_two_strings. reflexivity.
Qed.

(** A stand-in for [URI.parse] on concrete inputs: the text up to the first
    colon is the scheme, the rest the path. *)
Definition splitAtColon (value : string) : URI :=
  match String.index 0 ":" value with
  | Some i =>
      {| scheme := String.substring 0 i value; authority := "";
         path := String.substring (S i) (String.length value - S i) value;
         query := ""; fragment := "" |}
  | None => {| scheme := "file"; authority := ""; path := value; query := ""; fragment := "" |}
  end.

Definition otherSchemeUri : URI :=
  {| scheme := "file"; authority := ""; path := "/repo"; query := ""; fragment := "" |}.

Definition arrayQueryUri : URI :=
  {| scheme := _scheme; authority := ""; path := ""; query := "[1,2]"; fragment := "" |}.

Lemma multi_diff_source_uri_round_trip_witness :
  parseUri parse splitAtColon (getMultiDiffSourceUri stringify "file:///repo" "workingTree")
    = Some (splitAtColon "file:///repo", "workingTree")
  /\ canHandleUri parse splitAtColon otherSchemeUri = false
  /\ canHandleUri parse splitAtColon arrayQueryUri = false.
Proof.
  pose proof (multi_diff_source_uri_round_trip stringify parse splitAtColon) as [H1 [H2 H3]].
  split; [|split].
  - apply (H1 "file:///repo" "workingTree"). vm_compute. reflexivity.
  - apply H2. discriminate.
  - apply H3. intros (q & r & g & Hq & [members ->] & _). vm_compute in Hq. discriminate.
Defined.

End ScmMultiDiff.

(* ===================================================================== *)
(** * class ConfigurationEditingService                                   *)
(* ===================================================================== *)

Module ConfigurationEditing.

Import Json.
#[local] Open Scope string_scope.

(** [ConfigurationTarget] and [ConfigurationEditingErrorCode] of
    configurationEditing.ts, by the members the service uses. *)
Inductive ConfigurationTarget : Type := USER | WORKSPACE.

Inductive ConfigurationEditingErrorCode : Type :=
| ERROR_UNKNOWN_KEY
| ERROR_INVALID_TARGET
| ERROR_NO_WORKSPACE_OPENED
| ERROR_INVALID_CONFIGURATION
| ERROR_CONFIGURATION_FILE_DIRTY.

(** A resource, by the text of its URI. *)
Definition URI : Type := string.

Record IConfigurationValue : Type := { key : string; value : json }.

Record IConfigurationEditOperation : Type := {
  opKey : string;
  opValue : json;
  target : URI;
  isWorkspaceStandalone : bool
}.

Record IValidationResult : Type := {
  error : option ConfigurationEditingErrorCode;
  exists_ : option bool;
  contents : option string
}.

Definition WORKSPACE_STANDALONE_CONFIGURATIONS : list (string * string) :=
  [("tasks", ".vscode/tasks.json"); ("launch", ".vscode/launch.json")].

Record FormattingOptions : Type := { tabSize : nat; insertSpaces : bool; eol : string }.

(** What the service changes: the files behind the file service, and the
    number of configuration reloads asked for. *)
Record Store : Type := {
  files : gmap string string;
  reloads : nat
}.

(** What the injected services answer.  [validKeys] is
    [getConfigurationKeys()], [hasWorkspace] tells whether
    [contextService.getWorkspace()] is defined, [isDirty] is
    [createInput({ resource }).isDirty()].  The promises of
    [fileService.updateContent] and of
    [configurationService.reloadConfiguration] may be rejected:
    [updateContentRejects] and [reloadConfigurationRejects] tell for which
    calls they are. *)
Record Services : Type := {
  validKeys : list string;
  hasWorkspace : bool;
  toResource : string -> URI;
  appSettingsPath : string;
  WORKSPACE_CONFIG_DEFAULT_PATH : string;
  isDirty : URI -> bool;
  formatting : FormattingOptions;
  updateContentRejects : URI -> string -> Store -> bool;
  reloadConfigurationRejects : Store -> bool
}.

(** The service call whose rejection [writeConfiguration] passes on. *)
Inductive ServiceCall : Type := UpdateContent | ReloadConfiguration.

(** How the promise of [writeConfiguration] settles: fulfilled, rejected by
    [wrapError] with the code of a validation step, or rejected with
    whatever a service call was rejected with. *)
Inductive Settled : Type :=
| Fulfilled
| Rejected (code : ConfigurationEditingErrorCode) (message : string)
| RejectedBy (call : ServiceCall).

Section Service.

(** Helpers of vs/base/common that the service calls: the error count of
    the tolerant [json.parse], [setProperty] with [applyEdits], and
    [JSON.stringify] with an indentation. *)
Variable parseErrorCount : string -> nat.
Variable Edit : Type.
Variable setProperty : string -> list string -> json -> FormattingOptions -> list Edit.
Variable applyEditsToText : string -> list Edit -> string.
Variable JSON_stringify : json -> string -> string.

Variable services : Services.

Definition URI_file (fsPath : string) : URI := "file://" ++ fsPath.

Definition startsWith (prefix s : string) : bool := String.prefix prefix s.

Definition substr (start : nat) (s : string) : string :=
  String.substring start (String.length s - start) s.

(** The loop of [getConfigurationEditOperation] over the standalone keys. *)
Fixpoint standaloneOperation (config : IConfigurationValue)
  (standalone : list (string * string)) : option IConfigurationEditOperation :=
  match standalone with
  | [] => None
  | (k, file) :: rest =>
      let target_ := toResource services file in
      if String.eqb (key config) k then
        Some {| opKey := ""; opValue := value config; target := target_;
                isWorkspaceStandalone := true |}
      else if startsWith (k ++ ".") (key config) then
        Some {| opKey := substr (String.length (k ++ ".")) (key config);
                opValue := value config; target := target_;
                isWorkspaceStandalone := true |}
      else standaloneOperation config rest
  end.

(** [getConfigurationEditOperation] *)
Definition getConfigurationEditOperation (target_ : ConfigurationTarget)
  (config : IConfigurationValue) : IConfigurationEditOperation :=
  match (if String.eqb (key config) "" then None
         else standaloneOperation config WORKSPACE_STANDALONE_CONFIGURATIONS) with
  | Some operation => operation
  | None =>
      match target_ with
      | USER =>
          {| opKey := key config; opValue := value config;
             target := URI_file (appSettingsPath services);
             isWorkspaceStandalone := false |}
      | WORKSPACE =>
          {| opKey := key config; opValue := value config;
             target := toResource services (WORKSPACE_CONFIG_DEFAULT_PATH services);
             isWorkspaceStandalone := false |}
      end
  end.

Definition isUser (t : ConfigurationTarget) : bool :=
  match t with USER => true | WORKSPACE => false end.

Definition isWorkspace (t : ConfigurationTarget) : bool :=
  match t with WORKSPACE => true | USER => false end.

Definition failure (code : ConfigurationEditingErrorCode) : IValidationResult :=
  {| error := Some code; exists_ := None; contents := None |}.

(** [validate] *)
Definition validate (st : Store) (target_ : ConfigurationTarget)
  (operation : IConfigurationEditOperation) : IValidationResult :=
  if negb (isWorkspaceStandalone operation)
     && negb (bool_decide (opKey operation ∈ validKeys services))
  then failure ERROR_UNKNOWN_KEY
  else if isWorkspaceStandalone operation && isUser target_
  then failure ERROR_INVALID_TARGET
  else if isWorkspace target_ && negb (hasWorkspace services)
  then failure ERROR_NO_WORKSPACE_OPENED
  else
    let resource := target operation in
    if isDirty services resource then failure ERROR_CONFIGURATION_FILE_DIRTY
    else
      match files st !! resource with
      | None => {| error := None; exists_ := Some false; contents := None |}
      | Some content =>
          if isWorkspaceStandalone operation && String.eqb (opKey operation) ""
          then {| error := None; exists_ := Some true; contents := Some content |}
          else if (0 <? parseErrorCount content)%nat
          then failure ERROR_INVALID_CONFIGURATION
          else {| error := None; exists_ := Some true; contents := Some content |}
      end.

(** [toErrorMessage] *)
Definition toErrorMessage (code : ConfigurationEditingErrorCode)
  (target_ : ConfigurationTarget) : string :=
  match code with
  | ERROR_UNKNOWN_KEY => "Unable to write to the configuration file (Unknown Key)"
  | ERROR_INVALID_TARGET => "Unable to write to the configuration file (Invalid Target)"
  | ERROR_NO_WORKSPACE_OPENED =>
      "Unable to write settings because no folder is opened. Please open a folder first and try again."
  | ERROR_INVALID_CONFIGURATION =>
      match target_ with
      | USER => "Unable to write settings. Please open **User Settings** to correct errors/warnings in the file and try again."
      | WORKSPACE => "Unable to write settings. Please open **Workspace Settings** to correct errors/warnings in the file and try again."
      end
  | ERROR_CONFIGURATION_FILE_DIRTY =>
      match target_ with
      | USER => "Unable to write settings because the file is dirty. Please save the **User Settings** file and try again."
      | WORKSPACE => "Unable to write settings because the file is dirty. Please save the **Workspace Settings** file and try again."
      end
  end.

Fixpoint repeatString (s : string) (n : nat) : string :=
  match n with O => "" | S n' => s ++ repeatString s n' end.

(** [applyEdits] *)
Definition applyEdits (content : string) (edit : IConfigurationEditOperation) : string :=
  let options := formatting services in
  if String.eqb (opKey edit) "" then
    JSON_stringify (opValue edit)
      (if insertSpaces options then repeatString " " (tabSize options)
       else String "009"%char EmptyString)
  else
    applyEditsToText content (setProperty content [opKey edit] (opValue edit) options).

(** [fileService.updateContent]: the file holds the text afterwards;
    [None] is a rejected promise, taken to leave the files as they were. *)
Definition updateContent (resource : URI) (text : string) (st : Store) : option Store :=
  if updateContentRejects services resource text st then None
  else Some {| files := <[resource := text]> (files st); reloads := reloads st |}.

(** [configurationService.reloadConfiguration]; [None] is a rejected
    promise. *)
Definition reloadConfiguration (st : Store) : option Store :=
  if reloadConfigurationRejects services st then None
  else Some {| files := files st; reloads := S (reloads st) |}.

(** [writeConfiguration] *)
Definition writeConfiguration (target_ : ConfigurationTarget) (config : IConfigurationValue)
  (st : Store) : Settled * Store :=
  let operation := getConfigurationEditOperation target_ config in
  let validation := validate st target_ operation in
  match error validation with
  | Some code => (Rejected code (toErrorMessage code target_), st)
  | None =>
      let resource := target operation in
      let ensureConfigurationFile :=
        match exists_ validation with
        | Some true => Some (default "" (contents validation), st)
        | _ => pair "{}" <$> updateContent resource "{}" st
        end in
      match ensureConfigurationFile with
      | None => (RejectedBy UpdateContent, st)
      | Some (contents_, st1) =>
          let result := applyEdits contents_ operation in
          match updateContent resource result st1 with
          | None => (RejectedBy UpdateContent, st1)
          | Some st2 =>
              match reloadConfiguration st2 with
              | None => (RejectedBy ReloadConfiguration, st2)
              | Some st3 => (Fulfilled, st3)
              end
          end
      end
  end.

(** ** The validation steps, in the specification's words *)

(** (1) a non-standalone edit of a key the registry does not know *)
Definition unknownKey (operation : IConfigurationEditOperation) : Prop :=
  isWorkspaceStandalone operation = false /\ opKey operation ∉ validKeys services.

(** (2) a standalone edit targeting the user scope *)
Definition standaloneForUser (target_ : ConfigurationTarget)
  (operation : IConfigurationEditOperation) : Prop :=
  isWorkspaceStandalone operation = true /\ target_ = USER.

(** (3) a workspace-scope edit with no workspace open *)
Definition noWorkspaceOpened (target_ : ConfigurationTarget) : Prop :=
  target_ = WORKSPACE /\ hasWorkspace services = false.

(** (4) the target file has unsaved changes *)
Definition targetDirty (operation : IConfigurationEditOperation) : Prop :=
  isDirty services (target operation) = true.

(** (5) the target file exists with parse errors, and the edit is no
    standalone replacement of the whole file *)
Definition invalidContents (st : Store) (operation : IConfigurationEditOperation) : Prop :=
  (exists content, files st !! target operation = Some content
                   /\ (0 < parseErrorCount content)%nat)
  /\ ~ (isWorkspaceStandalone operation = true /\ opKey operation = "").

(** Each step's test in [validate] decides the step's condition. *)
Lemma unknownKey_test (operation : IConfigurationEditOperation) :
  negb (isWorkspaceStandalone operation)
    && negb (bool_decide (opKey operation ∈ validKeys services)) = true
  <-> unknownKey operation.
Proof.
  unfold unknownKey. rewrite andb_true_iff, !negb_true_iff, bool_decide_eq_false.
  reflexivity.
Qed.

Lemma standaloneForUser_test (target_ : ConfigurationTarget)
  (operation : IConfigurationEditOperation) :
  isWorkspaceStandalone operation && isUser target_ = true
  <-> standaloneForUser target_ operation.
Proof.
  unfold standaloneForUser. rewrite andb_true_iff.
  destruct target_; simpl; intuition congruence.
Qed.

Lemma noWorkspaceOpened_test (target_ : ConfigurationTarget) :
  isWorkspace target_ && negb (hasWorkspace services) = true <-> noWorkspaceOpened target_.
Proof.
  unfold noWorkspaceOpened. rewrite andb_true_iff, negb_true_iff.
  destruct target_; simpl; intuition congruence.
Qed.

Lemma test_false {b : bool} {P : Prop} : (b = true <-> P) -> ~ P -> b = false.
Proof. destruct b; intuition congruence. Qed.

(** The error of [validate] is that of the first step that fails. *)
Lemma validate_first_failure (st : Store) (target_ : ConfigurationTarget)
  (operation : IConfigurationEditOperation) :
  (unknownKey operation ->
     validate st target_ operation = failure ERROR_UNKNOWN_KEY)
  /\ (~ unknownKey operation -> standaloneForUser target_ operation ->
        validate st target_ operation = failure ERROR_INVALID_TARGET)
  /\ (~ unknownKey operation -> ~ standaloneForUser target_ operation ->
      noWorkspaceOpened target_ ->
        validate st target_ operation = failure ERROR_NO_WORKSPACE_OPENED)
  /\ (~ unknownKey operation -> ~ standaloneForUser target_ operation ->
      ~ noWorkspaceOpened target_ -> targetDirty operation ->
        validate st target_ operation = failure ERROR_CONFIGURATION_FILE_DIRTY)
  /\ (~ unknownKey operation -> ~ standaloneForUser target_ operation ->
      ~ noWorkspaceOpened target_ -> ~ targetDirty operation ->
      invalidContents st operation ->
        validate st target_ operation = failure ERROR_INVALID_CONFIGURATION)
  /\ (~ unknownKey operation -> ~ standaloneForUser target_ operation ->
      ~ noWorkspaceOpened target_ -> ~ targetDirty operation ->
      ~ invalidContents st operation ->
        error (validate st target_ operation) = None).
Proof.
  unfold validate.
  split; [|split; [|split; [|split; [|split]]]].
  - intros H1. apply unknownKey_test in H1. rewrite H1. reflexivity.
  - intros H1 H2. rewrite (test_false (unknownKey_test _) H1).
    apply standaloneForUser_test in H2. rewrite H2. reflexivity.
  - intros H1 H2 H3. rewrite (test_false (unknownKey_test _) H1),
      (test_false (standaloneForUser_test _ _) H2).
    apply noWorkspaceOpened_test in H3. rewrite H3. reflexivity.
  - intros H1 H2 H3 H4. rewrite (test_false (unknownKey_test _) H1),
      (test_false (standaloneForUser_test _ _) H2),
      (test_false (noWorkspaceOpened_test _) H3).
    unfold targetDirty in H4. rewrite H4. reflexivity.
  - intros H1 H2 H3 H4 [(content & Hf & Hp) H5].
    rewrite (test_false (unknownKey_test _) H1),
      (test_false (standaloneForUser_test _ _) H2),
      (test_false (noWorkspaceOpened_test _) H3).
    unfold targetDirty in H4. apply not_true_is_false in H4. rewrite H4, Hf.
    destruct (isWorkspaceStandalone operation) eqn:Hs;
      destruct (String.eqb_spec (opKey operation) "") as [He|He]; simpl;
      try (exfalso; apply H5; split; [reflexivity | exact He]);
      apply Nat.ltb_lt in Hp; rewrite Hp; reflexivity.
  - intros H1 H2 H3 H4 H5.
    rewrite (test_false (unknownKey_test _) H1),
      (test_false (standaloneForUser_test _ _) H2),
      (test_false (noWorkspaceOpened_test _) H3).
    unfold targetDirty in H4. apply not_true_is_false in H4. rewrite H4.
    destruct (files st !! target operation) as [content|] eqn:Hf; [|reflexivity].
    destruct (isWorkspaceStandalone operation && String.eqb (opKey operation) "") eqn:Hw;
      [reflexivity|].
    destruct (Nat.ltb_spec 0 (parseErrorCount content)) as [Hp|Hp]; [|reflexivity].
    exfalso. apply H5. unfold invalidContents. split.
    + exists content. split; [exact Hf | exact Hp].
    + intros [Hs He]. rewrite Hs, He in Hw. discriminate.
Qed.

(** A rejected write leaves the store as it was. *)
Lemma writeConfiguration_rejected (target_ : ConfigurationTarget)
  (config : IConfigurationValue) (st : Store) (code : ConfigurationEditingErrorCode) :
  validate st target_ (getConfigurationEditOperation target_ config) = failure code ->
  writeConfiguration target_ config st = (Rejected code (toErrorMessage code target_), st).
Proof. intros H. unfold writeConfiguration. rewrite H. reflexivity. Qed.

(** Once the validation has passed, the promise is fulfilled or rejected
    with what a service call was rejected with: an error code comes from
    the validation only. *)
Lemma writeConfiguration_validated (target_ : ConfigurationTarget)
  (config : IConfigurationValue) (st : Store) :
  error (validate st target_ (getConfigurationEditOperation target_ config)) = None ->
  fst (writeConfiguration target_ config st) = Fulfilled
  \/ exists call, fst (writeConfiguration target_ config st) = RejectedBy call.
Proof.
  intros H. unfold writeConfiguration. rewrite H.
  destruct (match exists_ _ with Some true => _ | _ => _ end) as [[contents_ st1]|];
    [|right; eexists; reflexivity].
  destruct (updateContent _ _ st1) as [st2|]; [|right; eexists; reflexivity].
  destruct (reloadConfiguration st2); [left | right; eexists]; reflexivity.
Qed.

(** A promise rejected with an error code has left the store as it was. *)
Lemma writeConfiguration_rejected_unchanged (target_ : ConfigurationTarget)
  (config : IConfigurationValue) (st : Store) (code : ConfigurationEditingErrorCode)
  (message : string) :
  fst (writeConfiguration target_ config st) = Rejected code message ->
  snd (writeConfiguration target_ config st) = st.
Proof.
  destruct (error (validate st target_ (getConfigurationEditOperation target_ config)))
    as [code'|] eqn:H.
  - intros _. unfold writeConfiguration. rewrite H. reflexivity.
  - destruct (writeConfiguration_validated target_ config st H) as [E|[call E]];
      rewrite E; discriminate.
Qed.

(** The services reject no call. *)
Definition servicesAccept : Prop :=
  (forall resource text st, updateContentRejects services resource text st = false)
  /\ forall st, reloadConfigurationRejects services st = false.

Lemma writeConfiguration_fulfilled (target_ : ConfigurationTarget)
  (config : IConfigurationValue) (st : Store) :
  servicesAccept ->
  error (validate st target_ (getConfigurationEditOperation target_ config)) = None ->
  fst (writeConfiguration target_ config st) = Fulfilled.
Proof.
  intros [Hu Hr] H. unfold writeConfiguration, updateContent, reloadConfiguration.
  rewrite H. destruct (exists_ _) as [[|]|]; simpl; rewrite ?Hu, ?Hr; simpl;
    rewrite ?Hu, ?Hr; reflexivity.
Qed.

End Service.

(** ** Concrete services *)

Definition sampleServices : Services :=
  {| validKeys := ["editor.fontSize"; "files.eol"];
     hasWorkspace := false;
     toResource := fun p => "file:///workspace/" ++ p;
     appSettingsPath := "/home/user/settings.json";
     WORKSPACE_CONFIG_DEFAULT_PATH := ".vscode/settings.json";
     isDirty := fun r => String.eqb r "file:///home/user/settings.json";
     formatting := {| tabSize := 4; insertSpaces := true; eol := String "010"%char EmptyString |};
     updateContentRejects := fun _ _ _ => false;
     reloadConfigurationRejects := fun _ => false |}.

Definition cleanServices : Services :=
  {| validKeys := validKeys sampleServices;
     hasWorkspace := true;
     toResource := toResource sampleServices;
     appSettingsPath := appSettingsPath sampleServices;
     WORKSPACE_CONFIG_DEFAULT_PATH := WORKSPACE_CONFIG_DEFAULT_PATH sampleServices;
     isDirty := fun _ => false;
     formatting := formatting sampleServices;
     updateContentRejects := fun _ _ _ => false;
     reloadConfigurationRejects := fun _ => false |}.

(** A file service that takes the text [{}] only. *)
Definition brokenDisk : Services :=
  {| validKeys := validKeys sampleServices;
     hasWorkspace := true;
     toResource := toResource sampleServices;
     appSettingsPath := appSettingsPath sampleServices;
     WORKSPACE_CONFIG_DEFAULT_PATH := WORKSPACE_CONFIG_DEFAULT_PATH sampleServices;
     isDirty := fun _ => false;
     formatting := formatting sampleServices;
     updateContentRejects := fun _ text _ => negb (String.eqb text "{}");
     reloadConfigurationRejects := fun _ => false |}.

Definition sampleStore : Store :=
  {| files := {[ "file:///home/user/settings.json" := "{}" ]}; reloads := 0 |}.

Definition countErrors (text : string) : nat :=
  match parse text with Some _ => 0%nat | None => 1%nat end.

Definition write (services : Services) :=
  writeConfiguration countErrors unit (fun _ _ _ _ => []) (fun text _ => text)
    (fun v _ => stringify v) services.

Example write_standalone_creates_file :
  let '(settled, st) :=
    write cleanServices WORKSPACE {| key := "tasks"; value := JObject [] |} sampleStore in
  settled = Fulfilled
  /\ files st !! "file:///workspace/.vscode/tasks.json" = Some "{}"
  /\ reloads st = 1%nat.
Proof. vm_compute. repeat split. Qed.

(** The validation passes, the missing file is created, and then the write
    of the edited text is rejected: the promise is rejected and the created
    file stays. *)
Example write_rejected_after_creation :
  let '(settled, st) :=
    write brokenDisk WORKSPACE {| key := "tasks"; value := JArray [] |} sampleStore in
  settled = RejectedBy UpdateContent
  /\ files sampleStore !! "file:///workspace/.vscode/tasks.json" = None
  /\ files st !! "file:///workspace/.vscode/tasks.json" = Some "{}"
  /\ reloads st = 0%nat.
Proof. vm_compute. repeat split. Qed.

(** C3.  [writeConfiguration] rejects with the code of the first validation
    step that fails, the steps being taken in the order (1) unknown key of a
    non-standalone edit, (2) standalone edit for the user scope, (3)
    workspace scope without a workspace, (4) dirty target file, (5) parse
    errors in an existing target file that is not replaced as a whole by a
    standalone edit, and then the store is as it was.  When no step fails
    the write is attempted: the promise is not rejected with an error code,
    and it is fulfilled if the file service and the reload reject nothing.
    Whenever the promise is rejected with an error code, no file has been
    created or modified. *)
Theorem writeConfiguration_validation_order
  (parseErrorCount : string -> nat) (Edit : Type)
  (setProperty : string -> list string -> json -> FormattingOptions -> list Edit)
  (applyEditsToText : string -> list Edit -> string)
  (JSON_stringify : json -> string -> string)
  (services : Services) (st : Store) (target_ : ConfigurationTarget)
  (config : IConfigurationValue) :
  let operation := getConfigurationEditOperation services target_ config in
  let outcome :=
    writeConfiguration parseErrorCount Edit setProperty applyEditsToText JSON_stringify
      services target_ config st in
  let rejected code := (Rejected code (toErrorMessage code target_), st) in
  (unknownKey services operation -> outcome = rejected ERROR_UNKNOWN_KEY)
  /\ (~ unknownKey services operation -> standaloneForUser target_ operation ->
        outcome = rejected ERROR_INVALID_TARGET)
  /\ (~ unknownKey services operation -> ~ standaloneForUser target_ operation ->
      noWorkspaceOpened services target_ ->
        outcome = rejected ERROR_NO_WORKSPACE_OPENED)
  /\ (~ unknownKey services operation -> ~ standaloneForUser target_ operation ->
      ~ noWorkspaceOpened services target_ -> targetDirty services operation ->
        outcome = rejected ERROR_CONFIGURATION_FILE_DIRTY)
  /\ (~ unknownKey services operation -> ~ standaloneForUser target_ operation ->
      ~ noWorkspaceOpened services target_ -> ~ targetDirty services operation ->
      invalidContents parseErrorCount st operation ->
        outcome = rejected ERROR_INVALID_CONFIGURATION)
  /\ (~ unknownKey services operation -> ~ standaloneForUser target_ operation ->
      ~ noWorkspaceOpened services target_ -> ~ targetDirty services operation ->
      ~ invalidContents parseErrorCount st operation ->
        (fst outcome = Fulfilled \/ exists call, fst outcome = RejectedBy call)
        /\ (servicesAccept services -> fst outcome = Fulfilled))
  /\ (forall code message, fst outcome = Rejected code message -> snd outcome = st).
Proof.
  intros operation outcome rejected.
  destruct (validate_first_failure parseErrorCount services st target_ operation)
    as (V1 & V2 & V3 & V4 & V5 & V6).
  split; [|split; [|split; [|split; [|split; [|split]]]]]; intros.
  - apply writeConfiguration_rejected. auto.
  - apply writeConfiguration_rejected. auto.
  - apply writeConfiguration_rejected. auto.
  - apply writeConfiguration_rejected. auto.
  - apply writeConfiguration_rejected. auto.
  - split.
    + apply writeConfiguration_validated. apply V6; assumption.
    + intros Hs. apply writeConfiguration_fulfilled; [exact Hs|]. apply V6; assumption.
  - eapply writeConfiguration_rejected_unchanged. eassumption.
Qed.

Lemma writeConfiguration_validation_order_witness :
  write sampleServices USER {| key := "no.such.key"; value := JNull |} sampleStore
    = (Rejected ERROR_UNKNOWN_KEY (toErrorMessage ERROR_UNKNOWN_KEY USER), sampleStore)
  /\ write sampleServices USER {| key := "editor.fontSize"; value := JNumber "12" |} sampleStore
       = (Rejected ERROR_CONFIGURATION_FILE_DIRTY
            (toErrorMessage ERROR_CONFIGURATION_FILE_DIRTY USER), sampleStore).
Proof.
  split.
  - apply (writeConfiguration_validation_order countErrors unit (fun _ _ _ _ => [])
             (fun text _ => text) (fun v _ => stringify v) sampleServices sampleStore USER
             {| key := "no.such.key"; value := JNull |}).
    split; [reflexivity|]. simpl. intros H. apply list_elem_of_In in H. simpl in H.
    intuition discriminate.
  - apply (writeConfiguration_validation_order countErrors unit (fun _ _ _ _ => [])
             (fun text _ => text) (fun v _ => stringify v) sampleServices sampleStore USER
             {| key := "editor.fontSize"; value := JNumber "12" |}).
    + intros [_ H]. apply H. simpl. apply list_elem_of_In. simpl. left. reflexivity.
    + intros [H _]. discriminate H.
    + intros [H _]. discriminate H.
    + reflexivity.
Defined.

(** ** Which file an edit goes to *)

Lemma prefix_append (p r : string) : String.prefix p (p ++ r) = true.
Proof.
  induction p as [|c p IH]; [destruct r; reflexivity|].
  rewrite append_cons. simpl. destruct (ascii_dec c c); [exact IH | congruence].
Qed.

Lemma prefix_split (p s : string) : String.prefix p s = true -> exists r, s = p ++ r.
Proof.
  revert s. induction p as [|c p IH]; intros s H.
  - exists s. reflexivity.
  - destruct s as [|c' s]; [discriminate|]. simpl in H.
    destruct (ascii_dec c c') as [->|]; [|discriminate].
    destruct (IH s H) as [r ->]. exists r. rewrite append_cons. reflexivity.
Qed.

Lemma substring_all (s : string) : String.substring 0 (String.length s) s = s.
Proof. induction s as [|c s IH]; [reflexivity|]. simpl. now rewrite IH. Qed.

Lemma substr_append (p r : string) : substr (String.length p) (p ++ r) = r.
Proof.
  unfold substr. induction p as [|c p IH].
  - rewrite append_empty. simpl. rewrite Nat.sub_0_r. apply substring_all.
  - rewrite append_cons. simpl. exact IH.
Qed.

Section Operations.

Variable services : Services.

(** The target of an edit that is not a standalone one. *)
Definition settingsFile (target_ : ConfigurationTarget) : URI :=
  match target_ with
  | USER => URI_file (appSettingsPath services)
  | WORKSPACE => toResource services (WORKSPACE_CONFIG_DEFAULT_PATH services)
  end.

Lemma standaloneOperation_some (config : IConfigurationValue)
  (standalone : list (string * string)) (operation : IConfigurationEditOperation) :
  standaloneOperation services config standalone = Some operation ->
  isWorkspaceStandalone operation = true /\
  opValue operation = value config /\
  exists k file,
    In (k, file) standalone /\ target operation = toResource services file /\
    (key config = k /\ opKey operation = ""
     \/ key config = k ++ "." ++ opKey operation).
Proof.
  induction standalone as [|[k file] rest IH]; simpl; [discriminate|].
  destruct (String.eqb_spec (key config) k) as [E|NE].
  - intros [= <-]. simpl. repeat split. exists k, file. auto.
  - unfold startsWith.
    destruct (String.prefix (k ++ ".") (key config)) eqn:Hp.
    + intros [= <-]. simpl. repeat split. exists k, file.
      split; [left; reflexivity|]. split; [reflexivity|]. right.
      destruct (prefix_split _ _ Hp) as [r Hr].
      rewrite Hr at 2. rewrite substr_append. rewrite Hr. apply append_assoc.
    + intros H. destruct (IH H) as (H1 & H2 & k' & file' & Hin & H3).
      repeat split; try assumption. exists k', file'. auto.
Qed.

Lemma standaloneOperation_none (config : IConfigurationValue)
  (standalone : list (string * string)) :
  standaloneOperation services config standalone = None ->
  forall k file, In (k, file) standalone ->
    key config <> k /\ forall sub, key config <> k ++ "." ++ sub.
Proof.
  induction standalone as [|[k file] rest IH]; simpl; [tauto|].
  destruct (String.eqb_spec (key config) k) as [E|NE]; [discriminate|].
  unfold startsWith.
  destruct (String.prefix (k ++ ".") (key config)) eqn:Hp; [discriminate|].
  intros H k' file' [[= <- <-]|Hin]; [|exact (IH H k' file' Hin)].
  split; [exact NE|]. intros sub E.
  rewrite E, <- append_assoc, prefix_append in Hp. discriminate.
Qed.

(** X12.  [getConfigurationEditOperation] always carries the value over,
    and sends a setting to one of three files.  A key that is [tasks] or
    [launch] becomes a standalone edit of the whole of [.vscode/tasks.json]
    or [.vscode/launch.json] (empty key); a key [tasks.<rest>] or
    [launch.<rest>] becomes a standalone edit of the key [<rest>] in that
    file, so that the prefix, a dot and the edit's key give the setting's key
    back.  Every other key, the empty one included, is edited under its own
    name in the user settings file for the user scope and in the workspace
    settings file for the workspace scope. *)
Theorem getConfigurationEditOperation_target (target_ : ConfigurationTarget)
  (config : IConfigurationValue) :
  let operation := getConfigurationEditOperation services target_ config in
  opValue operation = value config /\
  ((isWorkspaceStandalone operation = true /\
    exists k file,
      In (k, file) [("tasks", ".vscode/tasks.json"); ("launch", ".vscode/launch.json")] /\
      target operation = toResource services file /\
      (key config = k /\ opKey operation = ""
       \/ key config = k ++ "." ++ opKey operation))
   \/
   (isWorkspaceStandalone operation = false /\
    opKey operation = key config /\
    target operation = settingsFile target_ /\
    forall k, In k ["tasks"; "launch"] ->
      key config <> k /\ forall sub, key config <> k ++ "." ++ sub)).
Proof.
  intros operation. subst operation. unfold getConfigurationEditOperation.
  destruct (String.eqb_spec (key config) "") as [E|NE].
  - split; [destruct target_; reflexivity|]. right.
    repeat split; try (destruct target_; reflexivity).
    + rewrite E. simpl in H. intuition (subst; discriminate).
    + rewrite E. intros sub E'. simpl in H.
      destruct H as [H|[H|[]]]; subst k; rewrite !append_cons in E'; discriminate.
  - destruct (standaloneOperation services config WORKSPACE_STANDALONE_CONFIGURATIONS)
      as [operation|] eqn:Hs.
    + destruct (standaloneOperation_some _ _ _ Hs) as (H1 & H2 & H3).
      split; [exact H2|]. left. split; [exact H1 | exact H3].
    + split; [destruct target_; reflexivity|]. right.
      repeat split; try (destruct target_; reflexivity).
      * destruct H as [H|[H|[]]]; subst k;
          [apply (standaloneOperation_none _ _ Hs "tasks" ".vscode/tasks.json")
          |apply (standaloneOperation_none _ _ Hs "launch" ".vscode/launch.json")];
          simpl; auto.
      * destruct H as [H|[H|[]]]; subst k;
          [apply (standaloneOperation_none _ _ Hs "tasks" ".vscode/tasks.json")
          |apply (standaloneOperation_none _ _ Hs "launch" ".vscode/launch.json")];
          simpl; auto.
Qed.

End Operations.

(** ** What a write does to the files *)

Section Writes.

Variable parseErrorCount : string -> nat.
Variable Edit : Type.
Variable setProperty : string -> list string -> json -> FormattingOptions -> list Edit.
Variable applyEditsToText : string -> list Edit -> string.
Variable JSON_stringify : json -> string -> string.
Variable services : Services.



(** X14.  In the workspace scope with a workspace open, writing the key
    [tasks] or [launch] (also with nothing but a dot behind it) replaces the
    whole of the standalone file, provided the file has no unsaved changes
    and the file service and the reload reject nothing: the write fulfils
    and the file holds [JSON.stringify] of the value, indented by the
    configured number of spaces or by a tab, whatever the file held before
    and even if that was not valid JSON. *)
Theorem writeConfiguration_replaces_standalone_file (config : IConfigurationValue)
  (st : Store) (k file : string) :
  In (k, file) [("tasks", ".vscode/tasks.json"); ("launch", ".vscode/launch.json")] ->
  key config = k \/ key config = k ++ "." ->
  hasWorkspace services = true ->
  isDirty services (toResource services file) = false ->
  servicesAccept services ->
  writeConfiguration parseErrorCount Edit setProperty applyEditsToText JSON_stringify
    services WORKSPACE config st
  = (Fulfilled,
     {| files :=
          <[toResource services file :=
              JSON_stringify (value config)
                (if insertSpaces (formatting services)
                 then repeatString " " (tabSize (formatting services))
                 else String "009"%char EmptyString)]> (files st);
        reloads := S (reloads st) |}).
Proof.
  intros Hin Hkey Hws Hdirty [Hu Hr].
  assert (Hop : getConfigurationEditOperation services WORKSPACE config =
                {| opKey := ""; opValue := value config;
                   target := toResource services file; isWorkspaceStandalone := true |}).
  { destruct config as [ck cv]. simpl in Hkey |- *.
    destruct Hin as [[= <- <-]|[[= <- <-]|[]]]; destruct Hkey as [-> | ->]; reflexivity. }
  unfold writeConfiguration. rewrite Hop.
  unfold validate. simpl. rewrite Hws, Hdirty. simpl.
  unfold reloadConfiguration, updateContent, applyEdits.
  destruct (files st !! toResource services file) as [content|]; simpl;
    rewrite ?Hu; simpl; rewrite ?Hu, ?Hr; [reflexivity|].
  rewrite insert_insert_eq. reflexivity.
Qed.

End Writes.

Lemma writeConfiguration_replaces_standalone_file_witness :
  write cleanServices WORKSPACE {| key := "launch."; value := JObject [] |}
    {| files := {[ "file:///workspace/.vscode/launch.json" := "{ not json" ]}; reloads := 0 |}
  = (Fulfilled,
     {| files := {[ "file:///workspace/.vscode/launch.json" := "{}" ]}; reloads := 1 |}).
Proof.
  unfold write.
  rewrite (writeConfiguration_replaces_standalone_file countErrors unit (fun _ _ _ _ => [])
             (fun text _ => text) (fun v _ => stringify v) cleanServices
             {| key := "launch."; value := JObject [] |} _ "launch" ".vscode/launch.json").
  - simpl. rewrite insert_singleton_eq. reflexivity.
  - right. left. reflexivity.
  - right. reflexivity.
  - reflexivity.
  - reflexivity.
  - split; reflexivity.
Defined.

End ConfigurationEditing.

(* ===================================================================== *)
(** * class BaseWatcher : suspended watch requests                        *)
(* ===================================================================== *)

Module Watcher.

(** A watch request.  Requests are compared as objects; [ref] stands for the
    object's identity, so that two requests with the same fields can be
    told apart.  [correlationId] is [Some n] when it is a number. *)
Record IUniversalWatchRequest : Type := {
  ref : nat;
  path : string;
  correlationId : option Z
}.

#[global] Instance IUniversalWatchRequest_eq_dec : EqDecision IUniversalWatchRequest.
Proof. solve_decision. Defined.

(** The two fields of [fs.Stats] that the watcher reads. *)
Record Stats : Type := { ctimeMs : Z; ino : Z }.

Inductive FileChangeType : Type := UPDATED | ADDED | DELETED.

Record IFileChange : Type := {
  resource : string;
  type : FileChangeType;
  cId : option Z
}.

(** What one call of [monitorSuspendedWatchRequest] creates: the callback
    closure with its variable [pathNotFound], and the [DisposableStore] it
    was given. *)
Record Monitor : Type := {
  request : IUniversalWatchRequest;
  pathNotFound : bool;
  isDisposed : bool
}.

(** The watcher together with what it acts on: the [fs.watchFile]
    listeners ([polled], by path and monitor), the events fired on
    [_onDidChangeFile], and the calls of the abstract [doWatch].  The
    abstract [trace] and [warn] hooks are not modelled. *)
Record BaseWatcher : Type := {
  allWatchRequests : list IUniversalWatchRequest;
  suspendedWatchRequests : list (IUniversalWatchRequest * nat);
  monitors : list Monitor;
  polled : list (string * nat);
  fired : list (list IFileChange);
  doWatchCalls : list (list IUniversalWatchRequest)
}.

Definition newWatcher : BaseWatcher :=
  {| allWatchRequests := []; suspendedWatchRequests := []; monitors := [];
     polled := []; fired := []; doWatchCalls := [] |}.

Section Base.

(** Whether [fs.watchFile] throws for a path; the watcher catches it. *)
Variable watchFileThrows : string -> bool.

Definition URI_file (fsPath : string) : string := ("file://" ++ fsPath)%string.

(** [isCorrelated] *)
Definition isCorrelated (r : IUniversalWatchRequest) : bool :=
  match correlationId r with Some _ => true | None => false end.

(** [isPathNotFound] *)
Definition isPathNotFound (stats : Stats) : bool :=
  (ctimeMs stats =? 0)%Z && (ino stats =? 0)%Z.

(** [suspendedWatchRequests.has] and [.get] *)
Definition suspendedStore (this : BaseWatcher) (r : IUniversalWatchRequest) : option nat :=
  snd <$> List.find (fun entry => bool_decide (fst entry = r)) (suspendedWatchRequests this).

Definition isSuspended (this : BaseWatcher) (r : IUniversalWatchRequest) : bool :=
  match suspendedStore this r with Some _ => true | None => false end.

(** [updateWatchers] *)
Definition updateWatchers (this : BaseWatcher) : BaseWatcher :=
  {| allWatchRequests := allWatchRequests this;
     suspendedWatchRequests := suspendedWatchRequests this;
     monitors := monitors this;
     polled := polled this;
     fired := fired this;
     doWatchCalls := doWatchCalls this ++
       [List.filter (fun r => negb (isSuspended this r)) (allWatchRequests this)] |}.

(** Disposing a monitor's store: the store is marked disposed and its one
    disposable runs [unwatchFile(request.path, watchFileCallback)]. *)
Definition disposeStore (id : nat) (this : BaseWatcher) : BaseWatcher :=
  match monitors this !! id with
  | Some m =>
      if isDisposed m then this
      else
        {| allWatchRequests := allWatchRequests this;
           suspendedWatchRequests := suspendedWatchRequests this;
           monitors :=
             <[id := {| request := request m; pathNotFound := pathNotFound m;
                        isDisposed := true |}]> (monitors this);
           polled :=
             List.filter (fun l => negb (bool_decide (l = (path (request m), id)))) (polled this);
           fired := fired this;
           doWatchCalls := doWatchCalls this |}
  | None => this
  end.

(** [suspendedWatchRequests.deleteAndDispose] *)
Definition deleteAndDispose (r : IUniversalWatchRequest) (this : BaseWatcher) : BaseWatcher :=
  let this1 :=
    match suspendedStore this r with
    | Some id => disposeStore id this
    | None => this
    end in
  {| allWatchRequests := allWatchRequests this1;
     suspendedWatchRequests :=
       List.filter (fun entry => negb (bool_decide (fst entry = r))) (suspendedWatchRequests this1);
     monitors := monitors this1;
     polled := polled this1;
     fired := fired this1;
     doWatchCalls := doWatchCalls this1 |}.

(** [resumeWatchRequest] *)
Definition resumeWatchRequest (r : IUniversalWatchRequest) (this : BaseWatcher) : BaseWatcher :=
  updateWatchers (deleteAndDispose r this).

(** [monitorSuspendedWatchRequest]: the closure and store get the next
    free index; the listener is installed unless [watchFile] throws. *)
Definition monitorSuspendedWatchRequest (r : IUniversalWatchRequest) (this : BaseWatcher)
  : BaseWatcher :=
  let id := List.length (monitors this) in
  {| allWatchRequests := allWatchRequests this;
     suspendedWatchRequests := suspendedWatchRequests this;
     monitors := monitors this ++ [{| request := r; pathNotFound := false; isDisposed := false |}];
     polled := if watchFileThrows (path r) then polled this else polled this ++ [(path r, id)];
     fired := fired this;
     doWatchCalls := doWatchCalls this |}.

(** [suspendWatchRequest] *)
Definition suspendWatchRequest (r : IUniversalWatchRequest) (this : BaseWatcher) : BaseWatcher :=
  if isSuspended this r then this
  else
    let id := List.length (monitors this) in
    let this1 :=
      {| allWatchRequests := allWatchRequests this;
         suspendedWatchRequests := suspendedWatchRequests this ++ [(r, id)];
         monitors := monitors this;
         polled := polled this;
         fired := fired this;
         doWatchCalls := doWatchCalls this |} in
    updateWatchers (monitorSuspendedWatchRequest r this1).

(** [handleDidWatchFail] *)
Definition handleDidWatchFail (r : IUniversalWatchRequest) (this : BaseWatcher) : BaseWatcher :=
  if negb (isCorrelated r) then this else suspendWatchRequest r this.

(** The callback [watchFileCallback(curr, prev)] of monitor [id]. *)
Definition watchFileCallback (id : nat) (curr prev : Stats) (this : BaseWatcher) : BaseWatcher :=
  match monitors this !! id with
  | None => this
  | Some m =>
      if isDisposed m then this
      else
        let currentPathNotFound := isPathNotFound curr in
        let previousPathNotFound := isPathNotFound prev in
        let oldPathNotFound := pathNotFound m in
        let this1 :=
          {| allWatchRequests := allWatchRequests this;
             suspendedWatchRequests := suspendedWatchRequests this;
             monitors :=
               <[id := {| request := request m; pathNotFound := currentPathNotFound;
                          isDisposed := isDisposed m |}]> (monitors this);
             polled := polled this;
             fired := fired this;
             doWatchCalls := doWatchCalls this |} in
        if (previousPathNotFound && negb currentPathNotFound)
           || (oldPathNotFound && negb currentPathNotFound && negb previousPathNotFound)
        then
          let event :=
            {| resource := URI_file (path (request m)); type := ADDED;
               cId := correlationId (request m) |} in
          let this2 :=
            {| allWatchRequests := allWatchRequests this1;
               suspendedWatchRequests := suspendedWatchRequests this1;
               monitors := monitors this1;
               polled := polled this1;
               fired := fired this1 ++ [[event]];
               doWatchCalls := doWatchCalls this1 |} in
          resumeWatchRequest (request m) this2
        else this1
  end.

(** [new Set([...requests])]: the requests without repetition, in the order
    of their first occurrence. *)
Fixpoint distinct (requests : list IUniversalWatchRequest) : list IUniversalWatchRequest :=
  match requests with
  | [] => []
  | r :: rest => r :: List.filter (fun r' => negb (bool_decide (r' = r))) (distinct rest)
  end.

(** [watch] *)
Definition watch (requests : list IUniversalWatchRequest) (this : BaseWatcher) : BaseWatcher :=
  let this1 :=
    {| allWatchRequests := distinct requests;
       suspendedWatchRequests := suspendedWatchRequests this;
       monitors := monitors this;
       polled := polled this;
       fired := fired this;
       doWatchCalls := doWatchCalls this |} in
  let gone :=
    List.filter (fun r => negb (bool_decide (r ∈ allWatchRequests this1)))
      (map fst (suspendedWatchRequests this1)) in
  updateWatchers (fold_left (fun w r => deleteAndDispose r w) gone this1).

(** [stop]: [clearAndDisposeAll] *)
Definition stop (this : BaseWatcher) : BaseWatcher :=
  let this1 :=
    fold_left (fun w entry => disposeStore (snd entry) w) (suspendedWatchRequests this) this in
  {| allWatchRequests := allWatchRequests this1;
     suspendedWatchRequests := [];
     monitors := monitors this1;
     polled := polled this1;
     fired := fired this1;
     doWatchCalls := doWatchCalls this1 |}.

(** ** Suspension and resumption *)


Lemma find_appended (r : IUniversalWatchRequest) (id : nat)
  (entries : list (IUniversalWatchRequest * nat)) :
  List.find (fun entry => bool_decide (fst entry = r)) entries = None ->
  List.find (fun entry => bool_decide (fst entry = r)) (entries ++ [(r, id)]) = Some (r, id).
Proof.
  induction entries as [|e rest IH]; simpl.
  - intros _. rewrite bool_decide_eq_true_2; reflexivity.
  - destruct (bool_decide (fst e = r)); [discriminate | exact IH].
Qed.






End Base.

(** ** A concrete run *)

Definition correlated : IUniversalWatchRequest :=
  {| ref := 1; path := "/repo/.git"%string; correlationId := Some 7%Z |}.

Definition uncorrelated : IUniversalWatchRequest :=
  {| ref := 2; path := "/repo/src"%string; correlationId := None |}.

Definition found : Stats := {| ctimeMs := 1700000000000; ino := 42 |}.
Definition notFound : Stats := {| ctimeMs := 0; ino := 0 |}.

Definition neverThrows (p : string) : bool := false.

Definition watching : BaseWatcher :=
  watch [correlated; uncorrelated] newWatcher.

Definition suspended : BaseWatcher := handleDidWatchFail neverThrows correlated watching.

(** The path, found when polling started, was seen missing once. *)
Definition sawMissing : BaseWatcher := watchFileCallback 0 notFound found suspended.

Example sawMissing_fired_nothing :
  fired sawMissing = [] /\ polled sawMissing = [("/repo/.git"%string, 0%nat)].
Proof. split; reflexivity. Qed.



(** ** The bookkeeping of suspended requests *)

Section Bookkeeping.

Variable watchFileThrows : string -> bool.

(** The calls that reach a watcher: [watch], [stop], a failure reported on
    [_onDidWatchFail], and a polling callback of [fs.watchFile]. *)
Inductive Call : Type :=
| CallWatch (requests : list IUniversalWatchRequest)
| CallStop
| CallDidWatchFail (r : IUniversalWatchRequest)
| CallPolled (id : nat) (curr prev : Stats).

Definition call (this : BaseWatcher) (c : Call) : BaseWatcher :=
  match c with
  | CallWatch requests => watch requests this
  | CallStop => stop this
  | CallDidWatchFail r => handleDidWatchFail watchFileThrows r this
  | CallPolled id curr prev => watchFileCallback id curr prev this
  end.

Definition run (calls : list Call) : BaseWatcher := fold_left call calls newWatcher.

(** What holds between the map of suspended requests, the monitors and the
    [fs.watchFile] listeners. *)
Record consistent (this : BaseWatcher) : Prop := {
  suspended_once : NoDup (map fst (suspendedWatchRequests this));
  suspended_live :
    forall r id, (r, id) ∈ suspendedWatchRequests this ->
      exists m, monitors this !! id = Some m /\ request m = r /\ isDisposed m = false;
  polled_owned :
    forall p id, (p, id) ∈ polled this ->
      exists r, (r, id) ∈ suspendedWatchRequests this /\ path r = p;
  live_suspended :
    forall id m, monitors this !! id = Some m -> isDisposed m = false ->
      (request m, id) ∈ suspendedWatchRequests this
}.

Lemma consistent_new : consistent newWatcher.
Proof.
  split; simpl.
  - constructor.
  - intros r id H. inversion H.
  - intros p id H. inversion H.
  - intros id m H. rewrite lookup_nil in H. discriminate.
Qed.

Lemma find_entry (r : IUniversalWatchRequest) (entries : list (IUniversalWatchRequest * nat)) :
  match List.find (fun entry => bool_decide (fst entry = r)) entries with
  | Some e => fst e = r /\ e ∈ entries
  | None => forall id, (r, id) ∉ entries
  end.
Proof.
  induction entries as [|e rest IH]; simpl.
  - intros id H. inversion H.
  - case_bool_decide as E.
    + split; [exact E | left].
    + destruct (List.find _ rest) as [e'|].
      * destruct IH as [H1 H2]. split; [exact H1 | right; exact H2].
      * intros id H. apply elem_of_cons in H as [H|H]; [subst e; apply E; reflexivity|].
        exact (IH id H).
Qed.

Lemma suspendedStore_some (this : BaseWatcher) (r : IUniversalWatchRequest) (id : nat) :
  suspendedStore this r = Some id -> (r, id) ∈ suspendedWatchRequests this.
Proof.
  unfold suspendedStore. pose proof (find_entry r (suspendedWatchRequests this)) as H.
  destruct (List.find _ (suspendedWatchRequests this)) as [[r' id']|]; [|discriminate].
  simpl. intros [= ->]. destruct H as [H1 H2]. simpl in H1. subst r'. exact H2.
Qed.

Lemma suspendedStore_none (this : BaseWatcher) (r : IUniversalWatchRequest) :
  suspendedStore this r = None -> forall id, (r, id) ∉ suspendedWatchRequests this.
Proof.
  unfold suspendedStore. pose proof (find_entry r (suspendedWatchRequests this)) as H.
  destruct (List.find _ (suspendedWatchRequests this)) as [e|]; [discriminate|].
  intros _. exact H.
Qed.

Lemma suspended_unique (this : BaseWatcher) (r : IUniversalWatchRequest) (id id' : nat) :
  NoDup (map fst (suspendedWatchRequests this)) ->
  (r, id) ∈ suspendedWatchRequests this -> (r, id') ∈ suspendedWatchRequests this ->
  id = id'.
Proof.
  generalize (suspendedWatchRequests this). intros l.
  induction l as [|[r0 id0] rest IH]; simpl; intros Hnd H1 H2; [inversion H1|].
  apply NoDup_cons in Hnd as [Hnot Hnd].
  assert (K : forall i, (r0, i) ∈ rest -> False).
  { intros i Hi. apply Hnot. apply list_elem_of_fmap. exists (r0, i). split; [reflexivity | exact Hi]. }
  apply elem_of_cons in H1 as [E1|H1]; apply elem_of_cons in H2 as [E2|H2].
  - congruence.
  - injection E1 as -> ->. exfalso. exact (K _ H2).
  - injection E2 as -> ->. exfalso. exact (K _ H1).
  - exact (IH Hnd H1 H2).
Qed.

Lemma elem_of_filter_list {A : Type} (f : A -> bool) (l : list A) (x : A) :
  x ∈ List.filter f l <-> x ∈ l /\ f x = true.
Proof. rewrite !list_elem_of_In. apply List.filter_In. Qed.

Lemma NoDup_map_filter {A B : Type} (g : A -> B) (f : A -> bool) (l : list A) :
  NoDup (map g l) -> NoDup (map g (List.filter f l)).
Proof.
  induction l as [|x rest IH]; simpl; intros H; [constructor|].
  apply NoDup_cons in H as [Hnot Hnd].
  destruct (f x); simpl; [|exact (IH Hnd)].
  apply NoDup_cons. split; [|exact (IH Hnd)].
  intros Hin. apply Hnot.
  apply list_elem_of_fmap in Hin as (y & -> & Hy).
  apply elem_of_filter_list in Hy as [Hy _].
  apply list_elem_of_fmap. exists y. split; [reflexivity | exact Hy].
Qed.

(** [deleteAndDispose] keeps the bookkeeping consistent. *)
Lemma consistent_deleteAndDispose (r : IUniversalWatchRequest) (this : BaseWatcher) :
  consistent this -> consistent (deleteAndDispose r this).
Proof.
  intros [I1 I2 I3 I4]. unfold deleteAndDispose.
  destruct (suspendedStore this r) as [id|] eqn:Hs.
  - pose proof (suspendedStore_some _ _ _ Hs) as Hin.
    destruct (I2 r id Hin) as (m & Hm & Hr & Hd).
    unfold disposeStore. rewrite Hm, Hd. cbn.
    assert (Hlt : (id < List.length (monitors this))%nat) by (eapply lookup_lt_Some; exact Hm).
    split; cbn.
    + apply NoDup_map_filter, I1.
    + intros r' id' H. apply elem_of_filter_list in H as [H Hne].
      apply negb_true_iff, bool_decide_eq_false in Hne. simpl in Hne.
      destruct (I2 r' id' H) as (m' & Hm' & Hr' & Hd').
      exists m'. split; [|split; assumption].
      rewrite list_lookup_insert_ne; [exact Hm'|].
      intros <-. rewrite Hm in Hm'. injection Hm' as <-. congruence.
    + intros p id' H. apply elem_of_filter_list in H as [H Hne].
      apply negb_true_iff, bool_decide_eq_false in Hne.
      destruct (I3 p id' H) as (r' & Hin' & Hp).
      exists r'. split; [|exact Hp].
      apply elem_of_filter_list. split; [exact Hin'|].
      apply negb_true_iff, bool_decide_eq_false. simpl. intros ->.
      apply Hne. rewrite (suspended_unique this r id' id I1 Hin' Hin), Hr, Hp. reflexivity.
    + intros id' m' Hm' Hd'.
      destruct (decide (id' = id)) as [->|Hne].
      * rewrite list_lookup_insert_eq in Hm' by exact Hlt. injection Hm' as <-. discriminate.
      * rewrite list_lookup_insert_ne in Hm' by congruence.
        apply elem_of_filter_list. split; [exact (I4 id' m' Hm' Hd')|].
        apply negb_true_iff, bool_decide_eq_false. simpl. intros E.
        apply Hne. apply (suspended_unique this r id' id I1); [|exact Hin].
        rewrite <- E. exact (I4 id' m' Hm' Hd').
  - pose proof (suspendedStore_none _ _ Hs) as Hnone.
    assert (E : List.filter (fun entry => negb (bool_decide (fst entry = r)))
                  (suspendedWatchRequests this) = suspendedWatchRequests this).
    { apply forallb_filter_id, forallb_forall. intros [r' id'] H.
      apply negb_true_iff, bool_decide_eq_false. simpl. intros ->.
      apply (Hnone id'). apply list_elem_of_In. exact H. }
    rewrite E. split; assumption.
Qed.

(** Consistency speaks of the suspended requests, the monitors and the
    listeners only. *)
Lemma consistent_ext (a b : BaseWatcher) :
  suspendedWatchRequests b = suspendedWatchRequests a ->
  monitors b = monitors a ->
  polled b = polled a ->
  consistent a -> consistent b.
Proof.
  intros E1 E2 E3 [I1 I2 I3 I4].
  split; rewrite ?E1, ?E2, ?E3; assumption.
Qed.

(** Suspending a request that is not yet suspended. *)
Lemma consistent_suspendWatchRequest (r : IUniversalWatchRequest) (this : BaseWatcher) :
  consistent this -> consistent (suspendWatchRequest watchFileThrows r this).
Proof.
  intros Hc. unfold suspendWatchRequest, isSuspended.
  destruct (suspendedStore this r) as [id|] eqn:Hs; [exact Hc|].
  pose proof (suspendedStore_none _ _ Hs) as Hnone.
  destruct Hc as [I1 I2 I3 I4].
  split; cbn.
  - rewrite map_app. apply NoDup_app. split; [exact I1|]. split.
    + intros r' Hin. simpl. intros H. apply list_elem_of_singleton in H. subst r'.
      apply list_elem_of_fmap in Hin as ([r' id'] & E & Hin). simpl in E. subst r'.
      exact (Hnone id' Hin).
    + simpl. apply NoDup_singleton.
  - intros r' id' H. apply elem_of_app in H as [H|H].
    + destruct (I2 r' id' H) as (m & Hm & Hr & Hd).
      exists m. split; [|split; assumption].
      rewrite lookup_app_l; [exact Hm|]. eapply lookup_lt_Some. exact Hm.
    + apply list_elem_of_singleton in H. injection H as -> ->.
      eexists. split; [apply list_lookup_middle; reflexivity|]. split; reflexivity.
  - intros p id' H.
    assert (Hold : (p, id') ∈ polled this ->
                   exists r', (r', id') ∈ suspendedWatchRequests this ++
                                [(r, List.length (monitors this))] /\ path r' = p).
    { intros Hin. destruct (I3 p id' Hin) as (r' & H1 & H2).
      exists r'. split; [apply elem_of_app; left; exact H1 | exact H2]. }
    destruct (watchFileThrows (path r)); [exact (Hold H)|].
    apply elem_of_app in H as [H|H]; [exact (Hold H)|].
    apply list_elem_of_singleton in H. injection H as -> ->.
    exists r. split; [|reflexivity]. apply elem_of_app. right. apply list_elem_of_singleton.
    reflexivity.
  - intros id' m Hm Hd. apply elem_of_app.
    destruct (decide (id' < List.length (monitors this))%nat) as [Hlt|Hge].
    + rewrite lookup_app_l in Hm by exact Hlt. left. exact (I4 id' m Hm Hd).
    + right. rewrite lookup_app_r in Hm by lia.
      destruct (id' - List.length (monitors this))%nat as [|k] eqn:Hk; [|discriminate].
      simpl in Hm. injection Hm as <-. simpl.
      replace id' with (List.length (monitors this)) by lia.
      apply list_elem_of_singleton. reflexivity.
Qed.

Lemma consistent_handleDidWatchFail (r : IUniversalWatchRequest) (this : BaseWatcher) :
  consistent this -> consistent (handleDidWatchFail watchFileThrows r this).
Proof.
  intros Hc. unfold handleDidWatchFail.
  destruct (negb (isCorrelated r)); [exact Hc|].
  apply consistent_suspendWatchRequest, Hc.
Qed.

Lemma consistent_updateWatchers (this : BaseWatcher) :
  consistent this -> consistent (updateWatchers this).
Proof. apply consistent_ext; reflexivity. Qed.

(** Recording what a callback saw changes no request and no store. *)
Lemma consistent_record (id : nat) (m : Monitor) (seen : bool) (this : BaseWatcher)
  (events : list (list IFileChange)) :
  monitors this !! id = Some m ->
  consistent this ->
  consistent
    {| allWatchRequests := allWatchRequests this;
       suspendedWatchRequests := suspendedWatchRequests this;
       monitors :=
         <[id := {| request := request m; pathNotFound := seen;
                    isDisposed := isDisposed m |}]> (monitors this);
       polled := polled this;
       fired := events;
       doWatchCalls := doWatchCalls this |}.
Proof.
  intros Hm [I1 I2 I3 I4].
  assert (Hlt : (id < List.length (monitors this))%nat) by (eapply lookup_lt_Some; exact Hm).
  split; cbn.
  - exact I1.
  - intros r' id' H. destruct (I2 r' id' H) as (m' & Hm' & Hr' & Hd').
    destruct (decide (id' = id)) as [->|Hne].
    + rewrite Hm in Hm'. injection Hm' as <-.
      eexists. split; [apply list_lookup_insert_eq; exact Hlt|]. split; assumption.
    + exists m'. split; [|split; assumption].
      rewrite list_lookup_insert_ne by congruence. exact Hm'.
  - exact I3.
  - intros id' m' Hm' Hd'.
    destruct (decide (id' = id)) as [->|Hne].
    + rewrite list_lookup_insert_eq in Hm' by exact Hlt. injection Hm' as <-.
      simpl in *. exact (I4 id m Hm Hd').
    + rewrite list_lookup_insert_ne in Hm' by congruence. exact (I4 id' m' Hm' Hd').
Qed.

Lemma consistent_watchFileCallback (id : nat) (curr prev : Stats) (this : BaseWatcher) :
  consistent this -> consistent (watchFileCallback id curr prev this).
Proof.
  intros Hc. unfold watchFileCallback.
  destruct (monitors this !! id) as [m|] eqn:Hm; [|exact Hc].
  destruct (isDisposed m) eqn:Hd; [exact Hc|].
  pose proof (fun events =>
                consistent_record id m (isPathNotFound curr) this events Hm Hc) as Hrec.
  rewrite Hd in Hrec.
  destruct (_ || _).
  - unfold resumeWatchRequest. apply consistent_updateWatchers, consistent_deleteAndDispose.
    apply Hrec.
  - apply Hrec.
Qed.

Lemma consistent_fold_deleteAndDispose (gone : list IUniversalWatchRequest)
  (this : BaseWatcher) :
  consistent this ->
  consistent (fold_left (fun w r => deleteAndDispose r w) gone this).
Proof.
  revert this. induction gone as [|r rest IH]; intros this Hc; simpl; [exact Hc|].
  apply IH, consistent_deleteAndDispose, Hc.
Qed.

Lemma consistent_watch (requests : list IUniversalWatchRequest) (this : BaseWatcher) :
  consistent this -> consistent (watch requests this).
Proof.
  intros Hc. unfold watch.
  apply consistent_updateWatchers, consistent_fold_deleteAndDispose.
  revert Hc. apply consistent_ext; reflexivity.
Qed.

(** ** [stop] *)

(** Every listener belongs to a monitor that is not disposed. *)
Definition listenersLive (this : BaseWatcher) : Prop :=
  forall p id, (p, id) ∈ polled this ->
    exists m, monitors this !! id = Some m /\ isDisposed m = false /\ path (request m) = p.

Lemma listenersLive_disposeStore (id : nat) (this : BaseWatcher) :
  listenersLive this -> listenersLive (disposeStore id this).
Proof.
  intros J. unfold disposeStore.
  destruct (monitors this !! id) as [m|] eqn:Hm; [|exact J].
  destruct (isDisposed m) eqn:Hd; [exact J|].
  intros p id' H. cbn in H. apply elem_of_filter_list in H as [H Hne].
  apply negb_true_iff, bool_decide_eq_false in Hne.
  destruct (J p id' H) as (m' & Hm' & Hd' & Hp).
  exists m'. split; [|split; assumption]. cbn.
  rewrite list_lookup_insert_ne; [exact Hm'|].
  intros <-. rewrite Hm in Hm'. injection Hm' as <-. apply Hne. rewrite Hp. reflexivity.
Qed.

Lemma live_after_disposeStore (id id' : nat) (m : Monitor) (this : BaseWatcher) :
  monitors (disposeStore id this) !! id' = Some m -> isDisposed m = false ->
  id' <> id /\ monitors this !! id' = Some m.
Proof.
  unfold disposeStore.
  destruct (monitors this !! id) as [m0|] eqn:Hm0.
  - destruct (isDisposed m0) eqn:Hd0.
    + intros Hm Hd. split; [|exact Hm]. intros ->. rewrite Hm0 in Hm. congruence.
    + cbn. intros Hm Hd.
      assert (Hlt : (id < List.length (monitors this))%nat)
        by (eapply lookup_lt_Some; exact Hm0).
      destruct (decide (id' = id)) as [->|Hne].
      * rewrite list_lookup_insert_eq in Hm by exact Hlt. injection Hm as <-. discriminate.
      * rewrite list_lookup_insert_ne in Hm by congruence. split; assumption.
  - intros Hm Hd. split; [|exact Hm]. intros ->. rewrite Hm0 in Hm. discriminate.
Qed.

Lemma disposeStore_frame (id : nat) (this : BaseWatcher) :
  allWatchRequests (disposeStore id this) = allWatchRequests this /\
  suspendedWatchRequests (disposeStore id this) = suspendedWatchRequests this /\
  fired (disposeStore id this) = fired this /\
  doWatchCalls (disposeStore id this) = doWatchCalls this.
Proof.
  unfold disposeStore. destruct (monitors this !! id) as [m|]; [|auto].
  destruct (isDisposed m); auto.
Qed.

Lemma clearAndDisposeAll (entries : list (IUniversalWatchRequest * nat))
  (this : BaseWatcher) :
  listenersLive this ->
  (forall id m, monitors this !! id = Some m -> isDisposed m = false ->
     id ∈ map snd entries) ->
  let this' := fold_left (fun w entry => disposeStore (snd entry) w) entries this in
  polled this' = [] /\
  (forall id m, monitors this' !! id = Some m -> isDisposed m = true) /\
  allWatchRequests this' = allWatchRequests this /\
  fired this' = fired this /\
  doWatchCalls this' = doWatchCalls this.
Proof.
  revert this. induction entries as [|[r id0] rest IH]; intros this J K; simpl.
  - split; [|split; [|auto]].
    + destruct (polled this) as [|[p id] l] eqn:E; [reflexivity|].
      destruct (J p id) as (m & Hm & Hd & _); [rewrite E; left|].
      specialize (K id m Hm Hd). inversion K.
    + intros id m Hm. destruct (isDisposed m) eqn:Hd; [reflexivity|].
      specialize (K id m Hm Hd). inversion K.
  - destruct (disposeStore_frame id0 this) as (F1 & _ & F3 & F4).
    destruct (IH (disposeStore id0 this)) as (H1 & H2 & H3 & H4 & H5).
    + apply listenersLive_disposeStore, J.
    + intros id m Hm Hd. destruct (live_after_disposeStore _ _ _ _ Hm Hd) as [Hne Hm'].
      specialize (K id m Hm' Hd). simpl in K. apply elem_of_cons in K as [K|K]; congruence.
    + repeat split; try assumption; congruence.
Qed.

Lemma consistent_listenersLive (this : BaseWatcher) : consistent this -> listenersLive this.
Proof.
  intros [I1 I2 I3 I4] p id H. destruct (I3 p id H) as (r & Hin & Hp).
  destruct (I2 r id Hin) as (m & Hm & Hr & Hd).
  exists m. split; [exact Hm|]. split; [exact Hd|]. rewrite Hr. exact Hp.
Qed.

Lemma stop_spec (this : BaseWatcher) :
  consistent this ->
  polled (stop this) = [] /\
  suspendedWatchRequests (stop this) = [] /\
  (forall id m, monitors (stop this) !! id = Some m -> isDisposed m = true) /\
  allWatchRequests (stop this) = allWatchRequests this /\
  fired (stop this) = fired this /\
  doWatchCalls (stop this) = doWatchCalls this.
Proof.
  intros Hc.
  destruct (clearAndDisposeAll (suspendedWatchRequests this) this
              (consistent_listenersLive this Hc)) as (H1 & H2 & H3 & H4 & H5).
  { intros id m Hm Hd. apply list_elem_of_fmap. exists (request m, id).
    split; [reflexivity|]. exact (live_suspended this Hc id m Hm Hd). }
  unfold stop. cbn. repeat split; assumption.
Qed.

Lemma consistent_stop (this : BaseWatcher) : consistent this -> consistent (stop this).
Proof.
  intros Hc. destruct (stop_spec this Hc) as (H1 & H2 & H3 & _).
  split; rewrite ?H1, ?H2.
  - constructor.
  - intros r id H. inversion H.
  - intros p id H. inversion H.
  - intros id m Hm Hd. rewrite (H3 id m Hm) in Hd. discriminate.
Qed.

Lemma consistent_run (calls : list Call) : consistent (run calls).
Proof.
  unfold run. generalize consistent_new. generalize newWatcher.
  induction calls as [|c rest IH]; intros this Hc; simpl; [exact Hc|].
  apply IH. destruct c; simpl.
  - apply consistent_watch, Hc.
  - apply consistent_stop, Hc.
  - apply consistent_handleDidWatchFail, Hc.
  - apply consistent_watchFileCallback, Hc.
Qed.

End Bookkeeping.

Arguments call watchFileThrows this c : simpl nomatch.

Lemma suspendedStore_of_entry (this : BaseWatcher) (r : IUniversalWatchRequest) (id : nat) :
  NoDup (map fst (suspendedWatchRequests this)) ->
  (r, id) ∈ suspendedWatchRequests this ->
  suspendedStore this r = Some id.
Proof.
  intros Hnd Hin.
  destruct (suspendedStore this r) as [id'|] eqn:Hs.
  - f_equal. apply (suspended_unique this r id' id Hnd); [|exact Hin].
    apply suspendedStore_some, Hs.
  - exfalso. exact (suspendedStore_none this r Hs id Hin).
Qed.

(** ** Only correlated requests are ever suspended *)

Definition correlatedOnly (this : BaseWatcher) : Prop :=
  forall r id, (r, id) ∈ suspendedWatchRequests this -> isCorrelated r = true.

Lemma disposeStore_suspended (id : nat) (this : BaseWatcher) :
  suspendedWatchRequests (disposeStore id this) = suspendedWatchRequests this.
Proof. apply disposeStore_frame. Qed.

Lemma correlatedOnly_deleteAndDispose (r : IUniversalWatchRequest) (this : BaseWatcher) :
  correlatedOnly this -> correlatedOnly (deleteAndDispose r this).
Proof.
  intros H r' id' Hin. unfold deleteAndDispose in Hin. cbn in Hin.
  apply elem_of_filter_list in Hin as [Hin _].
  destruct (suspendedStore this r); [rewrite disposeStore_suspended in Hin|];
    exact (H r' id' Hin).
Qed.

Lemma correlatedOnly_fold (gone : list IUniversalWatchRequest) (this : BaseWatcher) :
  correlatedOnly this ->
  correlatedOnly (fold_left (fun w r => deleteAndDispose r w) gone this).
Proof.
  revert this. induction gone as [|r rest IH]; intros this H; simpl; [exact H|].
  apply IH, correlatedOnly_deleteAndDispose, H.
Qed.

Lemma correlatedOnly_call (watchFileThrows : string -> bool) (c : Call) (this : BaseWatcher) :
  correlatedOnly this -> correlatedOnly (call watchFileThrows this c).
Proof.
  intros H. destruct c as [requests| |r|id curr prev]; simpl.
  - intros r id Hin. unfold watch, updateWatchers in Hin. cbn [suspendedWatchRequests] in Hin.
    eapply correlatedOnly_fold; [|exact Hin]. exact H.
  - intros r id Hin. inversion Hin.
  - unfold handleDidWatchFail. destruct (isCorrelated r) eqn:Hc; simpl; [|exact H].
    unfold suspendWatchRequest. destruct (isSuspended this r); [exact H|].
    intros r' id' Hin. cbn in Hin. apply elem_of_app in Hin as [Hin|Hin]; [exact (H r' id' Hin)|].
    apply list_elem_of_singleton in Hin. injection Hin as -> ->. exact Hc.
  - unfold watchFileCallback.
    destruct (monitors this !! id) as [m|]; [|exact H].
    destruct (isDisposed m); [exact H|].
    destruct (_ || _); [|exact H].
    unfold resumeWatchRequest, updateWatchers.
    intros r' id' Hin. cbn [suspendedWatchRequests] in Hin.
    eapply correlatedOnly_deleteAndDispose; [|exact Hin]. exact H.
Qed.

Lemma correlatedOnly_run (watchFileThrows : string -> bool) (calls : list Call) :
  correlatedOnly (run watchFileThrows calls).
Proof.
  unfold run.
  assert (H0 : correlatedOnly newWatcher) by (intros r id H; inversion H).
  revert H0. generalize newWatcher.
  induction calls as [|c rest IH]; intros this H; simpl; [exact H|].
  apply IH, correlatedOnly_call, H.
Qed.

(** X15.  Whatever sequence of [watch], [stop], reported failures and
    polling callbacks a watcher has gone through, every [fs.watchFile]
    listener that is still installed belongs to a request that is currently
    suspended: the request has a numeric correlation id, the listener is on
    the request's path, and the listener's store is the one the map of
    suspended requests holds for the request and is not disposed.  No
    polling watch is left behind for a request that was resumed or dropped. *)
Theorem polling_watches_are_owned (watchFileThrows : string -> bool) (calls : list Call)
  (p : string) (id : nat) :
  (p, id) ∈ polled (run watchFileThrows calls) ->
  exists r m,
    suspendedStore (run watchFileThrows calls) r = Some id /\
    path r = p /\
    correlationId r <> None /\
    monitors (run watchFileThrows calls) !! id = Some m /\
    request m = r /\ isDisposed m = false.
Proof.
  intros H.
  pose proof (consistent_run watchFileThrows calls) as Hc.
  destruct (polled_owned _ Hc p id H) as (r & Hin & Hp).
  destruct (suspended_live _ Hc r id Hin) as (m & Hm & Hr & Hd).
  exists r, m. repeat split; try assumption.
  - apply suspendedStore_of_entry; [apply (suspended_once _ Hc) | exact Hin].
  - pose proof (correlatedOnly_run watchFileThrows calls r id Hin) as Hcor.
    unfold isCorrelated in Hcor. destruct (correlationId r); [discriminate | discriminate].
Qed.

Lemma polling_watches_are_owned_witness :
  let this :=
    run neverThrows [CallWatch [correlated; uncorrelated]; CallDidWatchFail uncorrelated;
                     CallDidWatchFail correlated; CallPolled 0 notFound found] in
  polled this = [(path correlated, 0%nat)] /\
  exists r m,
    suspendedStore this r = Some 0%nat /\
    path r = path correlated /\
    correlationId r <> None /\
    monitors this !! 0%nat = Some m /\
    request m = r /\ isDisposed m = false.
Proof.
  split; [reflexivity|].
  apply (polling_watches_are_owned neverThrows
           [CallWatch [correlated; uncorrelated]; CallDidWatchFail uncorrelated;
            CallDidWatchFail correlated; CallPolled 0 notFound found]
           (path correlated) 0%nat).
  vm_compute. left.
Defined.

(** X16.  [stop], after any sequence of calls, removes every [fs.watchFile]
    listener and empties the map of suspended requests without firing an
    event or calling [doWatch]; afterwards every polling callback that still
    arrives, for whatever monitor and whatever stats, does nothing. *)
Theorem stop_ends_all_polling (watchFileThrows : string -> bool) (calls : list Call) :
  let before := run watchFileThrows calls in
  let this := stop before in
  polled this = [] /\
  suspendedWatchRequests this = [] /\
  fired this = fired before /\
  doWatchCalls this = doWatchCalls before /\
  forall (id : nat) (curr prev : Stats), watchFileCallback id curr prev this = this.
Proof.
  intros before this.
  destruct (stop_spec before (consistent_run watchFileThrows calls))
    as (H1 & H2 & H3 & _ & H5 & H6).
  fold this in H1, H2, H3, H5, H6.
  repeat split; try assumption.
  intros id curr prev. unfold watchFileCallback.
  destruct (monitors this !! id) as [m|] eqn:Hm; [|reflexivity].
  rewrite (H3 id m Hm). reflexivity.
Qed.

(** ** [watch] *)

Lemma distinct_elem (requests : list IUniversalWatchRequest) (r : IUniversalWatchRequest) :
  r ∈ distinct requests <-> r ∈ requests.
Proof.
  induction requests as [|x rest IH]; simpl; [reflexivity|].
  rewrite !elem_of_cons, elem_of_filter_list, IH, negb_true_iff, bool_decide_eq_false.
  destruct (decide (r = x)); tauto.
Qed.

Lemma NoDup_filter_list {A : Type} (f : A -> bool) (l : list A) :
  NoDup l -> NoDup (List.filter f l).
Proof.
  induction l as [|x rest IH]; simpl; intros H; [constructor|].
  apply NoDup_cons in H as [Hnot Hnd].
  destruct (f x); [|exact (IH Hnd)].
  apply NoDup_cons. split; [|exact (IH Hnd)].
  intros Hin. apply elem_of_filter_list in Hin as [Hin _]. exact (Hnot Hin).
Qed.

Lemma NoDup_distinct (requests : list IUniversalWatchRequest) : NoDup (distinct requests).
Proof.
  induction requests as [|x rest IH]; simpl; [constructor|].
  apply NoDup_cons. split; [|apply NoDup_filter_list, IH].
  intros Hin. apply elem_of_filter_list in Hin as [_ Hne].
  rewrite bool_decide_eq_true_2 in Hne; [discriminate | reflexivity].
Qed.

Lemma fold_deleteAndDispose_frame (gone : list IUniversalWatchRequest) (this : BaseWatcher) :
  let this' := fold_left (fun w r => deleteAndDispose r w) gone this in
  allWatchRequests this' = allWatchRequests this /\
  fired this' = fired this /\
  doWatchCalls this' = doWatchCalls this /\
  suspendedWatchRequests this' =
    List.filter (fun entry => negb (bool_decide (fst entry ∈ gone)))
      (suspendedWatchRequests this).
Proof.
  revert this. induction gone as [|r rest IH]; intros this; simpl.
  - repeat split. symmetry. apply forallb_filter_id, forallb_forall.
    intros e _. reflexivity.
  - destruct (IH (deleteAndDispose r this)) as (H1 & H2 & H3 & H4).
    assert (F : allWatchRequests (deleteAndDispose r this) = allWatchRequests this /\
                fired (deleteAndDispose r this) = fired this /\
                doWatchCalls (deleteAndDispose r this) = doWatchCalls this /\
                suspendedWatchRequests (deleteAndDispose r this) =
                  List.filter (fun entry => negb (bool_decide (fst entry = r)))
                    (suspendedWatchRequests this)).
    { unfold deleteAndDispose. cbn.
      destruct (suspendedStore this r) as [id|]; [|auto].
      destruct (disposeStore_frame id this) as (F1 & F2 & F3 & F4).
      rewrite F1, F2, F3, F4. auto. }
    destruct F as (F1 & F2 & F3 & F4).
    rewrite H1, H2, H3, H4, F1, F2, F3, F4.
    repeat split. clear.
    induction (suspendedWatchRequests this) as [|e l IHl]; simpl; [reflexivity|].
    destruct (decide (fst e = r)) as [E|NE].
    + rewrite (bool_decide_eq_true_2 _ E). simpl.
      rewrite (bool_decide_eq_true_2 (fst e ∈ r :: rest)) by (rewrite E; left).
      simpl. exact IHl.
    + rewrite (bool_decide_eq_false_2 _ NE). simpl.
      destruct (decide (fst e ∈ rest)) as [Hin|Hnin].
      * rewrite (bool_decide_eq_true_2 _ Hin).
        rewrite (bool_decide_eq_true_2 (fst e ∈ r :: rest)) by (right; exact Hin).
        simpl. exact IHl.
      * rewrite (bool_decide_eq_false_2 _ Hnin).
        rewrite (bool_decide_eq_false_2 (fst e ∈ r :: rest))
          by (intros H; apply elem_of_cons in H as [H|H]; contradiction).
        simpl. rewrite IHl. reflexivity.
Qed.

Lemma find_filtered (h : IUniversalWatchRequest -> bool) (r : IUniversalWatchRequest)
  (entries : list (IUniversalWatchRequest * nat)) :
  List.find (fun entry => bool_decide (fst entry = r))
    (List.filter (fun entry => h (fst entry)) entries)
  = if h r then List.find (fun entry => bool_decide (fst entry = r)) entries else None.
Proof.
  induction entries as [|e rest IH]; simpl; [destruct (h r); reflexivity|].
  destruct (decide (fst e = r)) as [E|NE].
  - rewrite (bool_decide_eq_true_2 _ E). rewrite E.
    destruct (h r) eqn:Hr; simpl.
    + rewrite bool_decide_eq_true_2 by exact E. reflexivity.
    + rewrite IH. rewrite ?Hr. reflexivity.
  - rewrite (bool_decide_eq_false_2 _ NE).
    destruct (h (fst e)); simpl; [rewrite (bool_decide_eq_false_2 _ NE)|]; exact IH.
Qed.

Lemma isSuspended_entry (this : BaseWatcher) (r : IUniversalWatchRequest) :
  isSuspended this r = true -> r ∈ map fst (suspendedWatchRequests this).
Proof.
  unfold isSuspended. destruct (suspendedStore this r) as [id|] eqn:Hs; [|discriminate].
  intros _. apply list_elem_of_fmap. exists (r, id).
  split; [reflexivity | apply suspendedStore_some, Hs].
Qed.

(** X17.  [watch(requests)] makes the given requests, each taken once, the
    watched ones.  A request stays suspended exactly if it was suspended and
    is among the new requests; the others lose their entry.  [doWatch] is
    called once more, with the new requests that were not suspended before,
    none of them twice, and no event is fired. *)
Theorem watch_prunes_and_batches (requests : list IUniversalWatchRequest)
  (this : BaseWatcher) :
  let this' := watch requests this in
  NoDup (allWatchRequests this') /\
  (forall r, r ∈ allWatchRequests this' <-> r ∈ requests) /\
  (forall r, isSuspended this' r = true <-> isSuspended this r = true /\ r ∈ requests) /\
  (exists batch,
     doWatchCalls this' = doWatchCalls this ++ [batch] /\
     NoDup batch /\
     forall r, r ∈ batch <-> r ∈ requests /\ isSuspended this r = false) /\
  fired this' = fired this.
Proof.
  intros this'.
  assert (S : forall r, isSuspended this' r = true
                        <-> isSuspended this r = true /\ r ∈ requests).
  { intros r. unfold this', watch, updateWatchers, isSuspended, suspendedStore.
    cbn [suspendedWatchRequests].
    match goal with |- context [fold_left _ ?g ?w] =>
      destruct (fold_deleteAndDispose_frame g w) as (_ & _ & _ & ->) end.
    cbn [suspendedWatchRequests allWatchRequests].
    set (gone := List.filter (fun r0 => negb (bool_decide (r0 ∈ distinct requests)))
                   (map fst (suspendedWatchRequests this))).
    pose proof (find_filtered (fun x => negb (bool_decide (x ∈ gone))) r
                  (suspendedWatchRequests this)) as Hff.
    cbv beta in Hff. rewrite Hff. clear Hff. subst gone.
    pose proof (isSuspended_entry this r) as Hentry.
    unfold isSuspended, suspendedStore in Hentry.
    destruct (List.find _ (suspendedWatchRequests this)) as [e|]; simpl in *.
    - specialize (Hentry eq_refl).
      case_bool_decide as Hg; simpl.
      + apply elem_of_filter_list in Hg as [_ Hg].
        apply negb_true_iff, bool_decide_eq_false in Hg. rewrite distinct_elem in Hg.
        split; [discriminate | tauto].
      + split; [|reflexivity]. intros _. split; [reflexivity|].
        destruct (decide (r ∈ requests)) as [Hin|Hnin]; [exact Hin|].
        exfalso. apply Hg. apply elem_of_filter_list. split; [exact Hentry|].
        apply negb_true_iff, bool_decide_eq_false. rewrite distinct_elem. exact Hnin.
    - destruct (negb _); split; try discriminate; intros [H _]; discriminate. }
  assert (A : allWatchRequests this' = distinct requests).
  { unfold this', watch, updateWatchers. cbn [allWatchRequests].
    match goal with |- context [fold_left _ ?g ?w] =>
      destruct (fold_deleteAndDispose_frame g w) as (-> & _) end.
    reflexivity. }
  split; [rewrite A; apply NoDup_distinct|].
  split; [intros r; rewrite A; apply distinct_elem|].
  split; [exact S|].
  split.
  - exists (List.filter (fun r => negb (isSuspended this' r)) (distinct requests)).
    split; [|split].
    + unfold this' at 1. unfold watch. unfold updateWatchers at 1. cbn [doWatchCalls].
      match goal with |- context [doWatchCalls (fold_left _ ?g ?w)] =>
        destruct (fold_deleteAndDispose_frame g w) as (Ha & _ & Hd & _) end.
      rewrite Hd, Ha. reflexivity.
    + apply NoDup_filter_list, NoDup_distinct.
    + intros r. rewrite elem_of_filter_list, distinct_elem, negb_true_iff.
      specialize (S r). destruct (isSuspended this' r), (isSuspended this r);
        intuition congruence.
  - unfold this', watch, updateWatchers. cbn [fired].
    match goal with |- context [fold_left _ ?g ?w] =>
      destruct (fold_deleteAndDispose_frame g w) as (_ & -> & _) end.
    reflexivity.
Qed.

(** ** Failing twice, and callbacks that see nothing new *)

(** X18.  Reporting the failure of the same request a second time changes
    nothing: no second polling watch is installed and [doWatch] is not
    called again. *)
Theorem handleDidWatchFail_idempotent (watchFileThrows : string -> bool)
  (r : IUniversalWatchRequest) (this : BaseWatcher) :
  handleDidWatchFail watchFileThrows r (handleDidWatchFail watchFileThrows r this)
  = handleDidWatchFail watchFileThrows r this.
Proof.
  unfold handleDidWatchFail. destruct (isCorrelated r); simpl; [|reflexivity].
  unfold suspendWatchRequest at 2.
  destruct (isSuspended this r) eqn:Hs.
  - unfold suspendWatchRequest. rewrite Hs. reflexivity.
  - unfold suspendWatchRequest at 1.
    match goal with |- (if isSuspended ?w r then _ else _) = _ =>
      assert (E : isSuspended w r = true) end.
    { unfold isSuspended, suspendedStore, updateWatchers, monitorSuspendedWatchRequest.
      cbn [suspendedWatchRequests]. rewrite find_appended; [reflexivity|].
      unfold isSuspended, suspendedStore in Hs.
      destruct (List.find _ (suspendedWatchRequests this)); [discriminate | reflexivity]. }
    rewrite E. unfold suspendWatchRequest. rewrite Hs. reflexivity.
Qed.


End Watcher.

(* ===================================================================== *)
(** * class StatusUpdater : the badge of pending changes                  *)
(* ===================================================================== *)

Module WizeStatus.

Import Nls.

(** A resource group and a provider, by what [update] reads of them.
    [count] is [Some n] when [typeof provider.count === 'number']; counts
    are whole numbers. *)
Record IWizeResourceGroup : Type := { groupResources : list string }.

Record IWizeProvider : Type := {
  count : option Z;
  resources : list IWizeResourceGroup
}.

(** A [NumberBadge]: the number and the function that describes it. *)
Record NumberBadge : Type := {
  number : Z;
  descriptorFn : Z -> jsstring
}.

(** The local [count] of [update] when the badge is decided. *)
Definition pendingChanges (activeProvider : option IWizeProvider) : Z :=
  match activeProvider with
  | None => 0
  | Some provider =>
      match count provider with
      | Some n => n
      | None =>
          fold_left (fun r g => r + Z.of_nat (List.length (groupResources g)))
            (resources provider) 0
      end
  end.

(** [update]: the new value of [badgeHandle]; [None] is [null], no badge.
    [isPseudo] is the constant of vs/nls. *)
Definition update (isPseudo : bool) (activeProvider : option IWizeProvider)
  : option NumberBadge :=
  let count_ := pendingChanges activeProvider in
  if count_ >? 0 then
    Some {| number := count_;
            descriptorFn := fun num =>
              localize integerToString (fun _ => VUndefined) isPseudo
                (DataKey (units "wizePendingChangesBadge"))
                (units "{0} pending changes") [VNumber num] |}
  else None.

Lemma sum_of_lengths (groups : list IWizeResourceGroup) (start : Z) :
  fold_left (fun r g => r + Z.of_nat (List.length (groupResources g))) groups start
  = start + Z.of_nat (List.length (concat (map groupResources groups))).
Proof.
  revert start. induction groups as [|g rest IH]; intros start; simpl; [lia|].
  rewrite IH, length_app. lia.
Qed.

(** X30.  [update] shows a badge exactly when the number of pending changes
    is positive, and the badge carries that number: the provider's [count]
    when it is a number, otherwise the number of resources in all its
    groups together, and zero without a provider.  With the pseudo flag
    off the badge describes a number [n] as [String(n)] followed by
    [ pending changes]. *)
Theorem update_badge (activeProvider : option IWizeProvider) :
  let total :=
    match activeProvider with
    | None => 0
    | Some provider =>
        match count provider with
        | Some n => n
        | None => Z.of_nat (List.length (concat (map groupResources (resources provider))))
        end
    end in
  match update false activeProvider with
  | Some badge =>
      0 < total /\ number badge = total /\
      forall n, descriptorFn badge n = (integerToString n ++ units " pending changes")%list
  | None => total <= 0
  end.
Proof.
  intros total.
  assert (E : pendingChanges activeProvider = total).
  { unfold pendingChanges, total. destruct activeProvider as [provider|]; [|reflexivity].
    destruct (count provider); [reflexivity|]. rewrite sum_of_lengths. lia. }
  unfold update. rewrite E.
  destruct (Z.gtb_spec total 0) as [H|H]; [|exact H].
  split; [lia|]. split; [reflexivity|].
  intros n. cbn [descriptorFn]. unfold localize.
  change (replacePlaceholders integerToString [VNumber n]
            (123%N :: [48%N] ++ 125%N :: units " pending changes")
          = (integerToString n ++ units " pending changes")%list).
  rewrite (replacePlaceholders_placeholder integerToString [VNumber n] 48%N []
             (units " pending changes") eq_refl).
  change (argAt [VNumber n] 48) with (VNumber (Number := Z) n). cbn [String_].
  reflexivity.
Qed.

End WizeStatus.

(* ===================================================================== *)
(** * class FileService2 : move and copy                                  *)
(* ===================================================================== *)

Module Files.

(** ** Resources *)

(** A [URI] by its scheme and the segments of its path; [absolute] tells
    whether the path starts with a slash. *)
Record URI : Type := {
  scheme : string;
  absolute : bool;
  segments : list string
}.

#[global] Instance URI_eq_dec : EqDecision URI.
Proof. solve_decision. Defined.

Definition toLowerChar (c : ascii) : ascii :=
  let n := nat_of_ascii c in
  if ((65 <=? n) && (n <=? 90))%nat then ascii_of_nat (n + 32) else c.

Fixpoint toLowerCase (s : string) : string :=
  match s with
  | EmptyString => EmptyString
  | String c rest => String (toLowerChar c) (toLowerCase rest)
  end.

Definition fold (ignoreCase : bool) (s : string) : string :=
  if ignoreCase then toLowerCase s else s.

Definition foldUri (ignoreCase : bool) (u : URI) : URI :=
  {| scheme := scheme u; absolute := absolute u;
     segments := map (fold ignoreCase) (segments u) |}.

Fixpoint isPrefix (p l : list string) : bool :=
  match p, l with
  | [], _ => true
  | x :: p', y :: l' => String.eqb x y && isPrefix p' l'
  | _ :: _, [] => false
  end.

(** Modelled from the spec: the helpers of vs/base/common/resources, which
    is not among the sources.  The spec speaks of a source that is an
    ancestor of the target, of a target above the source, and of a rename
    that changes case only: [isEqual(a, b, ignoreCase)] compares two
    resources, [isEqualOrParent(resource, candidate, ignoreCase)] tells
    whether [candidate] is [resource] or a folder above it, [dirname] and
    [joinPath] drop and add the last segment. *)
Definition isEqual (first second : URI) (ignoreCase : bool) : bool :=
  bool_decide (foldUri ignoreCase first = foldUri ignoreCase second).

Definition isEqualOrParent (resource candidate : URI) (ignoreCase : bool) : bool :=
  String.eqb (scheme resource) (scheme candidate)
  && Bool.eqb (absolute resource) (absolute candidate)
  && isPrefix (map (fold ignoreCase) (segments candidate))
              (map (fold ignoreCase) (segments resource)).

Definition dirname (u : URI) : URI :=
  {| scheme := scheme u; absolute := absolute u; segments := removelast (segments u) |}.

Definition joinPath (u : URI) (name : string) : URI :=
  {| scheme := scheme u; absolute := absolute u; segments := (segments u ++ [name])%list |}.

Definition isAbsolutePath (u : URI) : bool := absolute u.

(** ** Providers *)

(** The capability flags the service tests with
    [provider.capabilities & FileSystemProviderCapabilities.X]. *)
Record Capabilities : Type := {
  FileReadWrite : bool;
  FileOpenReadWriteClose : bool;
  FileFolderCopy : bool;
  PathCaseSensitive : bool;
  Readonly : bool
}.

(** [IStat], with the tests [type & FileType.Directory] and
    [type & FileType.SymbolicLink] as fields. *)
Record IStat : Type := {
  isDirectoryType : bool;
  isSymbolicLinkType : bool;
  mtime : Z;
  size : Z
}.

(** The error a provider call fails with, by what
    [toFileSystemProviderErrorCode] makes of it. *)
Inductive ProviderError : Type := FileNotFound | OtherProviderError.

(** [FileOperationResult], by the members used here. *)
Inductive FileOperationResult : Type :=
| FILE_NOT_FOUND | FILE_INVALID_PATH | FILE_MOVE_CONFLICT | FILE_PERMISSION_DENIED | FILE_OTHER_ERROR.

(** What a promise of the service is rejected with. *)
Inductive Failure : Type :=
| FileOperationError (message : string) (result : FileOperationResult)
| Error (message : string)
| ENOPRO
| Rejection (message : string)
| FromProvider (e : ProviderError)
| FromLegacy.

Inductive outcome (A : Type) : Type :=
| Done (a : A)
| Failed (e : Failure).
Arguments Done {A} a.
Arguments Failed {A} e.

(** The calls that reach a provider or the legacy service. *)
Inductive Call : Type :=
| CallStat (resource : URI)
| CallReaddir (resource : URI)
| CallReadFile (resource : URI)
| CallDelete (resource : URI) (recursive : bool)
| CallMkdir (resource : URI)
| CallRename (source target : URI) (overwrite : bool)
| CallCopy (source target : URI) (overwrite : bool)
| CallWriteFile (resource : URI) (create overwrite : bool)
| CallLegacyCopyFile (source target : URI) (overwrite : option bool)
| CallLegacyDel (resource : URI) (useTrash recursive : bool).

(** The calls that can change what a provider stores. *)
Definition isMutation (c : Call) : bool :=
  match c with
  | CallStat _ | CallReaddir _ | CallReadFile _ => false
  | _ => true
  end.

Inductive FileOperation : Type := CREATE | DELETE | MOVE | COPY.

Section Service.

(** The state behind all providers. *)
Variable Disk : Type.
Variable Content : Type.

(** An [IFileSystemProvider] acting on the disk. *)
Record Provider : Type := {
  capabilities : Capabilities;
  stat : URI -> Disk -> ProviderError + IStat;
  readdir : URI -> Disk -> ProviderError + list (string * IStat);
  readFile : URI -> Disk -> ProviderError + Content;
  delete : URI -> bool -> Disk -> ProviderError + Disk;
  mkdir : URI -> Disk -> ProviderError + Disk;
  rename : URI -> URI -> bool -> Disk -> ProviderError + Disk;
  copy : URI -> URI -> bool -> Disk -> ProviderError + Disk;
  writeFile : URI -> Content -> bool -> bool -> Disk -> ProviderError + Disk
}.

(** The registry [this.provider], by scheme, and [copyFile] and [del] of
    the legacy service. *)
Variable providers : string -> option Provider.
Variable legacyCopyFile : URI -> URI -> option bool -> Disk -> option Disk.
Variable legacyDel : URI -> bool -> bool -> Disk -> option Disk.

(** The disk, the calls made so far, and the events fired on
    [_onAfterOperation]. *)
Record World : Type := {
  disk : Disk;
  calls : list Call;
  events : list (FileOperation * URI)
}.

(** The service's promises: a computation on the world that is fulfilled
    or rejected. *)
Definition M (A : Type) : Type := World -> outcome A * World.

Definition ret {A : Type} (a : A) : M A := fun w => (Done a, w).

Definition reject {A : Type} (e : Failure) : M A := fun w => (Failed e, w).

Definition bind {A B : Type} (m : M A) (k : A -> M B) : M B :=
  fun w => match m w with
           | (Done a, w') => k a w'
           | (Failed e, w') => (Failed e, w')
           end.

(** [try { m } catch (e) { handler(e) }] *)
Definition catch {A : Type} (m : M A) (handler : Failure -> M A) : M A :=
  fun w => match m w with
           | (Done a, w') => (Done a, w')
           | (Failed e, w') => handler e w'
           end.

#[local] Instance M_ret : MRet M := @ret.
#[local] Instance M_bind : MBind M := fun A B k m => bind m k.

Definition record (c : Call) : M unit :=
  fun w => (Done tt, {| disk := disk w; calls := (calls w ++ [c])%list; events := events w |}).

Definition fire (op : FileOperation) (resource : URI) : M unit :=
  fun w => (Done tt, {| disk := disk w; calls := calls w;
                        events := (events w ++ [(op, resource)])%list |}).

(** A provider call that reads. *)
Definition reading {A : Type} (c : Call) (f : Disk -> ProviderError + A) : M A :=
  record c ;;
  (fun w => match f (disk w) with
            | inr a => (Done a, w)
            | inl e => (Failed (FromProvider e), w)
            end) : M A.

(** A provider call that writes. *)
Definition writing (c : Call) (f : Disk -> ProviderError + Disk) : M unit :=
  record c ;;
  (fun w => match f (disk w) with
            | inr d => (Done tt, {| disk := d; calls := calls w; events := events w |})
            | inl e => (Failed (FromProvider e), w)
            end) : M unit.

(** [withProvider] *)
Definition withProvider (resource : URI) : M Provider :=
  if negb (isAbsolutePath resource) then
    reject (FileOperationError "The path of resource must be absolute" FILE_INVALID_PATH)
  else
    match providers (scheme resource) with
    | Some provider => ret provider
    | None => reject ENOPRO
    end.

(** [throwIfFileSystemIsReadonly] *)
Definition throwIfFileSystemIsReadonly (provider : Provider) : M Provider :=
  if Readonly (capabilities provider) then
    reject (FileOperationError "Resource can not be modified." FILE_PERMISSION_DENIED)
  else ret provider.

(** An [IFileStat], by what the callers here read of it. *)
Record IFileStat : Type := {
  statResource : URI;
  isDirectory : bool;
  children : option (list URI)
}.

(** The children of a resolved folder: with [resolveMetadata] each child is
    stated, and a child whose stat fails is left out. *)
Fixpoint resolveChildren (provider : Provider) (resource : URI) (resolveMetadata : bool)
  (entries : list (string * IStat)) : M (list URI) :=
  match entries with
  | [] => ret []
  | (name, _) :: rest =>
      let childResource := joinPath resource name in
      child ← (if resolveMetadata then
                 catch (reading (CallStat childResource) (stat provider childResource) ;;
                        ret (Some childResource))
                       (fun _ => ret None)
               else ret (Some childResource));
      others ← resolveChildren provider resource resolveMetadata rest;
      ret (match child with Some c => c :: others | None => others end)
  end.

(** [doResolveFile] without [resolveTo] and [resolveSingleChildDescendants]:
    the resource itself is resolved, and its children if it is a folder. *)
Definition doResolveFile (resource : URI) (resolveMetadata : bool) : M IFileStat :=
  provider ← withProvider resource;
  st ← reading (CallStat resource) (stat provider resource);
  if isDirectoryType st then
    kids ← catch (entries ← reading (CallReaddir resource) (readdir provider resource);
                  resolveChildren provider resource resolveMetadata entries)
                 (fun _ => ret []);
    ret {| statResource := resource; isDirectory := true; children := Some kids |}
  else
    ret {| statResource := resource; isDirectory := false; children := None |}.

(** [resolveFile] *)
Definition resolveFile (resource : URI) (resolveMetadata : bool) : M IFileStat :=
  catch (doResolveFile resource resolveMetadata)
    (fun error =>
       match error with
       | FromProvider FileNotFound =>
           reject (FileOperationError "File not found" FILE_NOT_FOUND)
       | _ => reject error
       end).

(** [existsFile] *)
Definition existsFile (resource : URI) : M bool :=
  catch (resolveFile resource false ;; ret true) (fun _ => ret false).

(** The upward loop of [mkdirp], on the reversed segments of [directory]:
    the folders to create, innermost first, and the folder they go into. *)
Fixpoint mkdirpUp (provider : Provider) (scheme_ : string) (absolute_ : bool)
  (reversed : list string) (directoriesToCreate : list string)
  : M (URI * list string) :=
  let directory :=
    {| scheme := scheme_; absolute := absolute_; segments := List.rev reversed |} in
  match reversed with
  | [] => ret (directory, directoriesToCreate)
  | name :: above =>
      catch
        (st ← reading (CallStat directory) (stat provider directory);
         if negb (isDirectoryType st) then
           reject (Error "exists, but is not a directory")
         else ret (directory, directoriesToCreate))
        (fun error =>
           match error with
           | FromProvider FileNotFound =>
               mkdirpUp provider scheme_ absolute_ above (directoriesToCreate ++ [name])%list
           | _ => reject error
           end)
  end.

(** The downward loop of [mkdirp]. *)
Fixpoint mkdirpDown (provider : Provider) (directory : URI) (reversedNames : list string)
  : M unit :=
  match reversedNames with
  | [] => ret tt
  | name :: rest =>
      let directory' := joinPath directory name in
      writing (CallMkdir directory') (mkdir provider directory') ;;
      mkdirpDown provider directory' rest
  end.

(** [mkdirp] *)
Definition mkdirp (provider : Provider) (directory : URI) : M unit :=
  found ← mkdirpUp provider (scheme directory) (absolute directory)
            (List.rev (segments directory)) [];
  mkdirpDown provider (fst found) (List.rev (snd found)).

(** The [legacy.del(resource, options)] call. *)
Definition legacyDelete (resource : URI) (useTrash recursive : bool) : M unit :=
  record (CallLegacyDel resource useTrash recursive) ;;
  (fun w => match legacyDel resource useTrash recursive (disk w) with
            | Some d => (Done tt, {| disk := d; calls := calls w; events := events w |})
            | None => (Failed FromLegacy, w)
            end) : M unit.

(** [del]; [useTrash] and [recursive] are the options as the code reads
    them: missing options and missing fields count as false. *)
Definition del (resource : URI) (useTrash recursive : bool) : M unit :=
  if useTrash then legacyDelete resource useTrash recursive
  else
    provider ← (p ← withProvider resource; throwIfFileSystemIsReadonly p);
    ((if negb recursive then
        present ← existsFile resource;
        if (present : bool) then
          st ← resolveFile resource false;
          match isDirectory st, children st with
          | true, Some (_ :: _) => reject (Error "Failed to delete non-empty folder")
          | _, _ => ret tt
          end
        else ret tt
      else ret tt) : M unit) ;;
    writing (CallDelete resource recursive) (delete provider resource recursive) ;;
    fire DELETE resource.

(** [doValidateMoveCopy]: whether the target exists, and [isCaseChange]. *)
Definition doValidateMoveCopy (provider : Provider) (source target : URI)
  (overwrite : option bool) : M (bool * bool) :=
  let isPathCaseSensitive := PathCaseSensitive (capabilities provider) in
  let isCaseChange := if isPathCaseSensitive then false else isEqual source target true in
  if negb isCaseChange && isEqualOrParent target source (negb isPathCaseSensitive) then
    reject (Error "Unable to move/copy when source path is equal or parent of target path")
  else
    exists_ ← existsFile target;
    if exists_ && negb isCaseChange then
      if negb (default false overwrite) then
        reject (FileOperationError "Unable to move/copy. File already exists at destination."
                  FILE_MOVE_CONFLICT)
      else if isEqualOrParent source target (negb isPathCaseSensitive) then
        reject (Error "Unable to move/copy. File would replace folder it is contained in.")
      else ret (exists_, isCaseChange)
    else ret (exists_, isCaseChange).

Inductive Mode : Type := ModeMove | ModeCopy.

(** The [legacy.copyFile] call of the buffered copy. *)
Definition legacyCopy (source target : URI) (overwrite : option bool) : M unit :=
  record (CallLegacyCopyFile source target overwrite) ;;
  (fun w => match legacyCopyFile source target overwrite (disk w) with
            | Some d => (Done tt, {| disk := d; calls := calls w; events := events w |})
            | None => (Failed FromLegacy, w)
            end) : M unit.

(** [doMoveCopy] *)
Definition doMoveCopy (provider : Provider) (source target : URI) (mode : Mode)
  (overwrite : option bool) : M unit :=
  validation ← doValidateMoveCopy provider source target overwrite;
  ((if fst validation && negb (snd validation) && default false overwrite
    then del target false true else ret tt) : M unit) ;;
  mkdirp provider (dirname target) ;;
  match mode with
  | ModeCopy =>
      if FileFolderCopy (capabilities provider) then
        writing (CallCopy source target (default false overwrite))
          (copy provider source target (default false overwrite))
      else if FileOpenReadWriteClose (capabilities provider) then
        legacyCopy source target overwrite
      else if FileReadWrite (capabilities provider) then
        content ← reading (CallReadFile source) (readFile provider source);
        writing (CallWriteFile target true (default false overwrite))
          (writeFile provider target content true (default false overwrite))
      else
        reject (Rejection "Provider neither has FileReadWrite nor FileOpenReadWriteClose capability which is needed to support copy.")
  | ModeMove =>
      writing (CallRename source target (default false overwrite))
        (rename provider source target (default false overwrite))
  end.

(** [doCopyAcrossProviders]; it does not pass [overwrite] on. *)
Definition doCopyAcrossProviders (source target : URI) : M unit :=
  legacyCopy source target None.

(** [copyFile] *)
Definition copyFile (source target : URI) (overwrite : option bool) : M IFileStat :=
  ((if String.eqb (scheme source) (scheme target) then
      provider ← (p ← withProvider source; throwIfFileSystemIsReadonly p);
      doMoveCopy provider source target ModeCopy overwrite
    else doCopyAcrossProviders source target) : M unit) ;;
  fileStat ← resolveFile target true;
  fire COPY source ;;
  ret fileStat.

(** [doMoveAcrossProviders]; [copyFile] is called with the [overwrite]
    parameter that [moveFile] leaves undefined. *)
Definition doMoveAcrossProviders (source target : URI) : M unit :=
  copyFile source target None ;;
  del source false true.

(** [moveFile] *)
Definition moveFile (source target : URI) (overwrite : option bool) : M IFileStat :=
  ((if String.eqb (scheme source) (scheme target) then
      provider ← (p ← withProvider source; throwIfFileSystemIsReadonly p);
      doMoveCopy provider source target ModeMove overwrite
    else doMoveAcrossProviders source target) : M unit) ;;
  fileStat ← resolveFile target true;
  fire MOVE source ;;
  ret fileStat.

(** The calls a computation adds to the world's. *)
Definition newCalls {A : Type} (m : M A) (w : World) : list Call :=
  drop (List.length (calls w)) (calls (snd (m w))).

(** ** What a computation does to the world *)

(** The calls of a list that can change a provider's files. *)
Definition mutations (cs : list Call) : list Call := List.filter isMutation cs.

(** [Grows m]: [m] only appends to the calls. *)
Definition Grows {A : Type} (m : M A) : Prop :=
  forall w, exists cs, calls (snd (m w)) = (calls w ++ cs)%list.

(** [Reads m]: [m] leaves disk and events alone and appends only calls that
    read. *)
Definition Reads {A : Type} (m : M A) : Prop :=
  forall w, exists cs,
    snd (m w) = {| disk := disk w; calls := (calls w ++ cs)%list; events := events w |}
    /\ mutations cs = [].

Lemma world_eta (w : World) :
  w = {| disk := disk w; calls := (calls w ++ [])%list; events := events w |}.
Proof. destruct w. simpl. rewrite app_nil_r. reflexivity. Qed.

Lemma Reads_ret {A : Type} (a : A) : Reads (ret a).
Proof. intros w. exists []. split; [apply world_eta | reflexivity]. Qed.

Lemma Reads_reject {A : Type} (e : Failure) : Reads (reject (A := A) e).
Proof. intros w. exists []. split; [apply world_eta | reflexivity]. Qed.

Lemma Reads_bind {A B : Type} (m : M A) (k : A -> M B) :
  Reads m -> (forall a, Reads (k a)) -> Reads (bind m k).
Proof.
  intros Hm Hk w. unfold bind. destruct (Hm w) as (cs & E & N).
  destruct (m w) as [[a|e] w']; simpl in E; subst w'.
  - destruct (Hk a {| disk := disk w; calls := (calls w ++ cs)%list; events := events w |})
      as (cs' & E' & N').
    exists (cs ++ cs')%list. simpl in E'. rewrite E', <- app_assoc. split; [reflexivity|].
    unfold mutations in *. rewrite List.filter_app, N, N'. reflexivity.
  - exists cs. split; [reflexivity | exact N].
Qed.

Lemma Reads_catch {A : Type} (m : M A) (handler : Failure -> M A) :
  Reads m -> (forall e, Reads (handler e)) -> Reads (catch m handler).
Proof.
  intros Hm Hk w. unfold catch. destruct (Hm w) as (cs & E & N).
  destruct (m w) as [[a|e] w']; simpl in E; subst w'.
  - exists cs. split; [reflexivity | exact N].
  - destruct (Hk e {| disk := disk w; calls := (calls w ++ cs)%list; events := events w |})
      as (cs' & E' & N').
    exists (cs ++ cs')%list. simpl in E'. rewrite E', <- app_assoc. split; [reflexivity|].
    unfold mutations in *. rewrite List.filter_app, N, N'. reflexivity.
Qed.

Lemma Reads_reading {A : Type} (c : Call) (f : Disk -> ProviderError + A) :
  isMutation c = false -> Reads (reading c f).
Proof.
  intros Hc w. exists [c]. unfold reading, mbind, M_bind, bind, record. simpl.
  destruct (f (disk w)); simpl; (split; [reflexivity | unfold mutations; simpl; rewrite Hc; reflexivity]).
Qed.

Lemma Reads_withProvider (resource : URI) : Reads (withProvider resource).
Proof.
  unfold withProvider. destruct (negb _); [apply Reads_reject|].
  destruct (providers _); [apply Reads_ret | apply Reads_reject].
Qed.

Lemma Reads_resolveChildren (provider : Provider) (resource : URI) (resolveMetadata : bool)
  (entries : list (string * IStat)) :
  Reads (resolveChildren provider resource resolveMetadata entries).
Proof.
  induction entries as [|[name st] rest IH]; simpl; [apply Reads_ret|].
  unfold mbind, M_bind. apply Reads_bind.
  - destruct resolveMetadata; [|apply Reads_ret].
    apply Reads_catch; [|intros; apply Reads_ret].
    apply Reads_bind; [apply Reads_reading; reflexivity | intros; apply Reads_ret].
  - intros child. apply Reads_bind; [exact IH | intros; apply Reads_ret].
Qed.

Lemma Reads_resolveFile (resource : URI) (resolveMetadata : bool) :
  Reads (resolveFile resource resolveMetadata).
Proof.
  unfold resolveFile, doResolveFile, mbind, M_bind.
  apply Reads_catch.
  - apply Reads_bind; [apply Reads_withProvider | intros provider].
    apply Reads_bind; [apply Reads_reading; reflexivity | intros st].
    destruct (isDirectoryType st); [|apply Reads_ret].
    apply Reads_bind; [|intros; apply Reads_ret].
    apply Reads_catch; [|intros; apply Reads_ret].
    apply Reads_bind; [apply Reads_reading; reflexivity | intros entries].
    apply Reads_resolveChildren.
  - intros [ | | | | [|] | ]; apply Reads_reject.
Qed.

Lemma Reads_existsFile (resource : URI) : Reads (existsFile resource).
Proof.
  unfold existsFile, mbind, M_bind.
  apply Reads_catch; [|intros; apply Reads_ret].
  apply Reads_bind; [apply Reads_resolveFile | intros; apply Reads_ret].
Qed.

(** [existsFile] never fails. *)
Lemma existsFile_done (resource : URI) (w : World) :
  exists b, fst (existsFile resource w) = Done b.
Proof.
  unfold existsFile, catch, mbind, M_bind, bind.
  destruct (resolveFile resource false w) as [[st|e] w']; simpl; eauto.
Qed.

(** What [existsFile] leaves behind. *)
Lemma existsFile_spec (resource : URI) (w : World) :
  exists (b : bool) (reads : list Call),
    existsFile resource w =
      (Done b, {| disk := disk w; calls := (calls w ++ reads)%list; events := events w |})
    /\ mutations reads = [].
Proof.
  destruct (existsFile_done resource w) as [b Hb].
  destruct (Reads_existsFile resource w) as (cs & E & N).
  exists b, cs. split; [|exact N].
  destruct (existsFile resource w) as [r w']. simpl in *. subst. reflexivity.
Qed.

Lemma Grows_ret {A : Type} (a : A) : Grows (ret a).
Proof. intros w. exists []. simpl. rewrite app_nil_r. reflexivity. Qed.

Lemma Grows_reject {A : Type} (e : Failure) : Grows (reject (A := A) e).
Proof. intros w. exists []. simpl. rewrite app_nil_r. reflexivity. Qed.

Lemma Grows_bind {A B : Type} (m : M A) (k : A -> M B) :
  Grows m -> (forall a, Grows (k a)) -> Grows (bind m k).
Proof.
  intros Hm Hk w. unfold bind. destruct (Hm w) as (cs & E).
  destruct (m w) as [[a|e] w']; simpl in E.
  - destruct (Hk a w') as (cs' & E').
    exists (cs ++ cs')%list. rewrite E', E, <- app_assoc. reflexivity.
  - exists cs. exact E.
Qed.

Lemma Grows_catch {A : Type} (m : M A) (handler : Failure -> M A) :
  Grows m -> (forall e, Grows (handler e)) -> Grows (catch m handler).
Proof.
  intros Hm Hk w. unfold catch. destruct (Hm w) as (cs & E).
  destruct (m w) as [[a|e] w']; simpl in E.
  - exists cs. exact E.
  - destruct (Hk e w') as (cs' & E').
    exists (cs ++ cs')%list. rewrite E', E, <- app_assoc. reflexivity.
Qed.

Lemma Grows_Reads {A : Type} (m : M A) : Reads m -> Grows m.
Proof. intros H w. destruct (H w) as (cs & E & _). exists cs. rewrite E. reflexivity. Qed.

Lemma Grows_record (c : Call) : Grows (record c).
Proof. intros w. exists [c]. reflexivity. Qed.

Lemma Grows_fire (op : FileOperation) (resource : URI) : Grows (fire op resource).
Proof. intros w. exists []. simpl. rewrite app_nil_r. reflexivity. Qed.

Lemma Grows_writing (c : Call) (f : Disk -> ProviderError + Disk) : Grows (writing c f).
Proof.
  intros w. exists [c]. unfold writing, mbind, M_bind, bind, record. simpl.
  destruct (f (disk w)); reflexivity.
Qed.

Lemma Grows_legacyCopy (source target : URI) (overwrite : option bool) :
  Grows (legacyCopy source target overwrite).
Proof.
  intros w. exists [CallLegacyCopyFile source target overwrite].
  unfold legacyCopy, mbind, M_bind, bind, record. simpl.
  destruct (legacyCopyFile _ _ _ _); reflexivity.
Qed.

Lemma Grows_mkdirpUp (provider : Provider) (scheme_ : string) (absolute_ : bool)
  (reversed : list string) (directoriesToCreate : list string) :
  Grows (mkdirpUp provider scheme_ absolute_ reversed directoriesToCreate).
Proof.
  revert directoriesToCreate.
  induction reversed as [|name above IH]; intros directoriesToCreate; simpl;
    [apply Grows_ret|].
  unfold mbind, M_bind. apply Grows_catch.
  - apply Grows_bind; [apply Grows_Reads, Reads_reading; reflexivity | intros st].
    destruct (negb _); [apply Grows_reject | apply Grows_ret].
  - intros [ | | | | [|] | ]; try apply Grows_reject. apply IH.
Qed.

Lemma Grows_mkdirpDown (provider : Provider) (directory : URI) (names : list string) :
  Grows (mkdirpDown provider directory names).
Proof.
  revert directory. induction names as [|name rest IH]; intros directory; simpl;
    [apply Grows_ret|].
  unfold mbind, M_bind. apply Grows_bind; [apply Grows_writing | intros; apply IH].
Qed.

Lemma Grows_mkdirp (provider : Provider) (directory : URI) : Grows (mkdirp provider directory).
Proof.
  unfold mkdirp, mbind, M_bind.
  apply Grows_bind; [apply Grows_mkdirpUp | intros; apply Grows_mkdirpDown].
Qed.

(** The last step of [doMoveCopy]: the copy or the rename. *)
Definition transfer (provider : Provider) (source target : URI) (mode : Mode)
  (overwrite : option bool) : M unit :=
  match mode with
  | ModeCopy =>
      if FileFolderCopy (capabilities provider) then
        writing (CallCopy source target (default false overwrite))
          (copy provider source target (default false overwrite))
      else if FileOpenReadWriteClose (capabilities provider) then
        legacyCopy source target overwrite
      else if FileReadWrite (capabilities provider) then
        content ← reading (CallReadFile source) (readFile provider source);
        writing (CallWriteFile target true (default false overwrite))
          (writeFile provider target content true (default false overwrite))
      else
        reject (Rejection "Provider neither has FileReadWrite nor FileOpenReadWriteClose capability which is needed to support copy.")
  | ModeMove =>
      writing (CallRename source target (default false overwrite))
        (rename provider source target (default false overwrite))
  end.

Lemma Grows_transfer (provider : Provider) (source target : URI) (mode : Mode)
  (overwrite : option bool) : Grows (transfer provider source target mode overwrite).
Proof.
  unfold transfer, mbind, M_bind. destruct mode; [apply Grows_writing|].
  destruct (FileFolderCopy _); [apply Grows_writing|].
  destruct (FileOpenReadWriteClose _); [apply Grows_legacyCopy|].
  destruct (FileReadWrite _); [|apply Grows_reject].
  apply Grows_bind; [apply Grows_Reads, Reads_reading; reflexivity | intros; apply Grows_writing].
Qed.

(** ** Validation of move and copy *)

Definition isCaseChange (provider : Provider) (source target : URI) : bool :=
  if PathCaseSensitive (capabilities provider) then false else isEqual source target true.

(** [isEqualOrParent(target, source, !isPathCaseSensitive)]: the source is
    the target or a folder above it. *)
Definition sourceIsTargetOrAbove (provider : Provider) (source target : URI) : bool :=
  isEqualOrParent target source (negb (PathCaseSensitive (capabilities provider))).

(** [isEqualOrParent(source, target, !isPathCaseSensitive)]: the target is
    the source or a folder above it. *)
Definition targetIsSourceOrAbove (provider : Provider) (source target : URI) : bool :=
  isEqualOrParent source target (negb (PathCaseSensitive (capabilities provider))).

Lemma bind_done {A B : Type} (m : M A) (k : A -> M B) (w w' : World) (a : A) :
  m w = (Done a, w') -> (m ≫= k) w = k a w'.
Proof. intros E. unfold mbind, M_bind, bind. rewrite E. reflexivity. Qed.

Lemma bind_failed {A B : Type} (m : M A) (k : A -> M B) (w w' : World) (e : Failure) :
  m w = (Failed e, w') -> (m ≫= k) w = (Failed e, w').
Proof. intros E. unfold mbind, M_bind, bind. rewrite E. reflexivity. Qed.

(** The world after some more calls. *)
Definition after (w : World) (cs : list Call) : World :=
  {| disk := disk w; calls := (calls w ++ cs)%list; events := events w |}.

(** The outcomes of [doValidateMoveCopy]. *)
Lemma doValidateMoveCopy_spec (provider : Provider) (source target : URI)
  (overwrite : option bool) (w : World) :
  (isCaseChange provider source target = false ->
   sourceIsTargetOrAbove provider source target = true ->
     doValidateMoveCopy provider source target overwrite w =
       (Failed (Error "Unable to move/copy when source path is equal or parent of target path"),
        w))
  /\ (isCaseChange provider source target = true
      \/ sourceIsTargetOrAbove provider source target = false ->
      exists (present : bool) (reads : list Call),
        existsFile target w = (Done present, after w reads)
        /\ mutations reads = []
        /\ doValidateMoveCopy provider source target overwrite w =
             (if present && negb (isCaseChange provider source target) then
                if negb (default false overwrite) then
                  Failed (FileOperationError
                            "Unable to move/copy. File already exists at destination."
                            FILE_MOVE_CONFLICT)
                else if targetIsSourceOrAbove provider source target then
                  Failed (Error "Unable to move/copy. File would replace folder it is contained in.")
                else Done (present, isCaseChange provider source target)
              else Done (present, isCaseChange provider source target),
              after w reads)).
Proof.
  unfold doValidateMoveCopy, isCaseChange, sourceIsTargetOrAbove, targetIsSourceOrAbove.
  set (icc := if PathCaseSensitive (capabilities provider) then false
              else isEqual source target true).
  set (above := isEqualOrParent target source (negb (PathCaseSensitive (capabilities provider)))).
  split.
  - intros -> ->. reflexivity.
  - intros Hcase.
    assert (Hguard : negb icc && above = false).
    { destruct Hcase as [-> | ->]; [reflexivity | apply andb_false_r]. }
    rewrite Hguard.
    destruct (existsFile_spec target w) as (present & reads & E & N).
    exists present, reads. split; [exact E|]. split; [exact N|].
    rewrite (bind_done _ _ _ _ _ E).
    destruct (present && negb icc); [|reflexivity].
    destruct (negb (default false overwrite)); [reflexivity|].
    destruct (isEqualOrParent source target _); reflexivity.
Qed.

(** A target that exists is absolute and has a provider. *)
Lemma existsFile_true (resource : URI) (w w' : World) :
  existsFile resource w = (Done true, w') ->
  absolute resource = true /\ providers (scheme resource) <> None.
Proof.
  unfold existsFile, catch, resolveFile, doResolveFile, withProvider, isAbsolutePath.
  unfold mbind, M_bind, bind, reject, ret.
  destruct (absolute resource); simpl; [|discriminate].
  destruct (providers (scheme resource)); simpl; [|discriminate].
  intros _. split; [reflexivity | discriminate].
Qed.

(** [del(target, { recursive: true })] with a writable provider: the first
    thing it does is the provider's delete. *)
Lemma del_recursive_calls (provider : Provider) (resource : URI) (w : World) :
  absolute resource = true ->
  providers (scheme resource) = Some provider ->
  Readonly (capabilities provider) = false ->
  calls (snd (del resource false true w)) = (calls w ++ [CallDelete resource true])%list.
Proof.
  intros Ha Hp Hr.
  unfold del, withProvider, throwIfFileSystemIsReadonly, isAbsolutePath, writing, record, fire.
  unfold mbind, M_bind, bind, ret. rewrite Ha, Hp. simpl. rewrite Hr. simpl.
  destruct (delete provider resource true (disk w)); simpl; rewrite ?app_nil_r; reflexivity.
Qed.

(** [moveFile] or [copyFile], by mode. *)
Definition moveOrCopy (mode : Mode) (source target : URI) (overwrite : option bool)
  : M IFileStat :=
  match mode with
  | ModeMove => moveFile source target overwrite
  | ModeCopy => copyFile source target overwrite
  end.

(** What [moveFile] and [copyFile] do after [doMoveCopy]. *)
Definition finish (mode : Mode) (source target : URI) : M IFileStat :=
  fileStat ← resolveFile target true;
  fire (match mode with ModeMove => MOVE | ModeCopy => COPY end) source ;;
  ret fileStat.

Lemma Grows_finish (mode : Mode) (source target : URI) : Grows (finish mode source target).
Proof.
  unfold finish, mbind, M_bind.
  apply Grows_bind; [apply Grows_Reads, Reads_resolveFile | intros st].
  apply Grows_bind; [apply Grows_fire | intros; apply Grows_ret].
Qed.

(** Source and target on one writable provider. *)
Definition sameProvider (provider : Provider) (source target : URI) : Prop :=
  scheme source = scheme target
  /\ absolute source = true
  /\ providers (scheme source) = Some provider
  /\ Readonly (capabilities provider) = false.

Lemma moveOrCopy_sameProvider (provider : Provider) (mode : Mode) (source target : URI)
  (overwrite : option bool) (w : World) :
  sameProvider provider source target ->
  moveOrCopy mode source target overwrite w =
    (doMoveCopy provider source target mode overwrite ≫= fun _ => finish mode source target) w.
Proof.
  intros (Hs & Ha & Hp & Hr).
  assert (P : (p ← withProvider source; throwIfFileSystemIsReadonly p) w = (Done provider, w)).
  { unfold withProvider, throwIfFileSystemIsReadonly, isAbsolutePath, mbind, M_bind, bind.
    rewrite Ha, Hp. simpl. rewrite Hr. reflexivity. }
  destruct mode; unfold moveOrCopy, moveFile, copyFile, finish;
    rewrite Hs, String.eqb_refl;
    unfold mbind at 1; unfold M_bind at 1; unfold bind at 1;
    unfold mbind at 1; unfold M_bind at 1; unfold bind at 1;
    rewrite P; reflexivity.
Qed.

Lemma doMoveCopy_unfold (provider : Provider) (source target : URI) (mode : Mode)
  (overwrite : option bool) :
  doMoveCopy provider source target mode overwrite =
    (validation ← doValidateMoveCopy provider source target overwrite;
     ((if fst validation && negb (snd validation) && default false overwrite
       then del target false true else ret tt) : M unit) ;;
     mkdirp provider (dirname target) ;;
     transfer provider source target mode overwrite).
Proof. reflexivity. Qed.

Lemma newCalls_after {A : Type} (m : M A) (w : World) (cs : list Call) :
  calls (snd (m w)) = (calls w ++ cs)%list -> newCalls m w = cs.
Proof. intros E. unfold newCalls. rewrite E. apply drop_app_length. Qed.

(** A failed [doMoveCopy] is the failure of the whole operation. *)
Lemma moveOrCopy_failed (provider : Provider) (mode : Mode) (source target : URI)
  (overwrite : option bool) (w w' : World) (e : Failure) :
  sameProvider provider source target ->
  doMoveCopy provider source target mode overwrite w = (Failed e, w') ->
  moveOrCopy mode source target overwrite w = (Failed e, w').
Proof.
  intros Hsame E. rewrite (moveOrCopy_sameProvider provider mode source target overwrite w Hsame).
  apply bind_failed. exact E.
Qed.

Lemma validation_of_existing_target (provider : Provider) (source target : URI)
  (overwrite : option bool) (w : World) :
  isCaseChange provider source target = false ->
  sourceIsTargetOrAbove provider source target = false ->
  fst (existsFile target w) = Done true ->
  exists reads : list Call,
    existsFile target w = (Done true, after w reads)
    /\ mutations reads = []
    /\ doValidateMoveCopy provider source target overwrite w =
         (if negb (default false overwrite) then
            Failed (FileOperationError
                      "Unable to move/copy. File already exists at destination."
                      FILE_MOVE_CONFLICT)
          else if targetIsSourceOrAbove provider source target then
            Failed (Error "Unable to move/copy. File would replace folder it is contained in.")
          else Done (true, false),
          after w reads).
Proof.
  intros Hcase Habove Hexists.
  destruct (proj2 (doValidateMoveCopy_spec provider source target overwrite w))
    as (present & reads & E & N & V); [right; exact Habove|].
  rewrite E in Hexists. simpl in Hexists. injection Hexists as ->.
  exists reads. split; [exact E|]. split; [exact N|].
  rewrite V, Hcase. reflexivity.
Qed.

(** The source is the target or above it, and this is no change of case:
    rejected before any call. *)
Lemma moveOrCopy_source_above (provider : Provider) (mode : Mode) (source target : URI)
  (overwrite : option bool) (w : World) :
  sameProvider provider source target ->
  isCaseChange provider source target = false ->
  sourceIsTargetOrAbove provider source target = true ->
  moveOrCopy mode source target overwrite w =
    (Failed (Error "Unable to move/copy when source path is equal or parent of target path"), w).
Proof.
  intros Hsame Hcase Habove. eapply moveOrCopy_failed; [exact Hsame|].
  rewrite doMoveCopy_unfold. apply bind_failed.
  apply (proj1 (doValidateMoveCopy_spec provider source target overwrite w) Hcase Habove).
Qed.

(** The target exists and [overwrite] is not set: a move conflict, after
    reading calls only. *)
Lemma moveOrCopy_conflict (provider : Provider) (mode : Mode) (source target : URI)
  (overwrite : option bool) (w : World) :
  sameProvider provider source target ->
  isCaseChange provider source target = false ->
  sourceIsTargetOrAbove provider source target = false ->
  fst (existsFile target w) = Done true ->
  default false overwrite = false ->
  exists reads : list Call,
    moveOrCopy mode source target overwrite w =
      (Failed (FileOperationError "Unable to move/copy. File already exists at destination."
                 FILE_MOVE_CONFLICT),
       after w reads)
    /\ mutations reads = [].
Proof.
  intros Hsame Hcase Habove Hexists Hover.
  destruct (validation_of_existing_target provider source target overwrite w
              Hcase Habove Hexists) as (reads & _ & N & V).
  exists reads. split; [|exact N].
  eapply moveOrCopy_failed; [exact Hsame|].
  rewrite doMoveCopy_unfold. apply bind_failed. rewrite V, Hover. reflexivity.
Qed.

(** The target exists, [overwrite] is set, and the target is a folder
    above the source: rejected, after reading calls only. *)
Lemma moveOrCopy_contained (provider : Provider) (mode : Mode) (source target : URI)
  (overwrite : option bool) (w : World) :
  sameProvider provider source target ->
  isCaseChange provider source target = false ->
  sourceIsTargetOrAbove provider source target = false ->
  fst (existsFile target w) = Done true ->
  default false overwrite = true ->
  targetIsSourceOrAbove provider source target = true ->
  exists reads : list Call,
    moveOrCopy mode source target overwrite w =
      (Failed (Error "Unable to move/copy. File would replace folder it is contained in."),
       after w reads)
    /\ mutations reads = [].
Proof.
  intros Hsame Hcase Habove Hexists Hover Hin.
  destruct (validation_of_existing_target provider source target overwrite w
              Hcase Habove Hexists) as (reads & _ & N & V).
  exists reads. split; [|exact N].
  eapply moveOrCopy_failed; [exact Hsame|].
  rewrite doMoveCopy_unfold. apply bind_failed. rewrite V, Hover, Hin. reflexivity.
Qed.

(** The target exists, [overwrite] is set, and the target is not above the
    source: the first call that can change anything deletes the target. *)
Lemma moveOrCopy_deletes_first (provider : Provider) (mode : Mode) (source target : URI)
  (overwrite : option bool) (w : World) :
  sameProvider provider source target ->
  isCaseChange provider source target = false ->
  sourceIsTargetOrAbove provider source target = false ->
  fst (existsFile target w) = Done true ->
  default false overwrite = true ->
  targetIsSourceOrAbove provider source target = false ->
  exists reads rest : list Call,
    newCalls (moveOrCopy mode source target overwrite) w
      = (reads ++ CallDelete target true :: rest)%list
    /\ mutations reads = [].
Proof.
  intros Hsame Hcase Habove Hexists Hover Hin.
  destruct (validation_of_existing_target provider source target overwrite w
              Hcase Habove Hexists) as (reads & E & N & V).
  rewrite Hover, Hin in V. simpl in V.
  destruct (existsFile_true target w _ E) as [Ha Hp'].
  destruct Hsame as (Hs & Hsa & Hp & Hr).
  assert (Hpt : providers (scheme target) = Some provider) by (rewrite <- Hs; exact Hp).
  pose proof (del_recursive_calls provider target (after w reads) Ha Hpt Hr) as D.
  exists reads.
  assert (Hsame : sameProvider provider source target) by (repeat split; assumption).
  assert (G : exists rest,
            calls (snd (moveOrCopy mode source target overwrite w))
              = (calls w ++ reads ++ CallDelete target true :: rest)%list).
  { rewrite (moveOrCopy_sameProvider provider mode source target overwrite w Hsame).
    rewrite doMoveCopy_unfold.
    unfold mbind at 1; unfold M_bind at 1; unfold bind at 1.
    unfold mbind at 1; unfold M_bind at 1; unfold bind at 1.
    rewrite V. cbn [fst snd negb andb]. rewrite Hover.
    unfold mbind at 1; unfold M_bind at 1; unfold bind at 1.
    destruct (del target false true (after w reads)) as [[u|e] w2] eqn:Hdel; simpl in D.
    - destruct (Grows_bind (mkdirp provider (dirname target))
                  (fun _ => transfer provider source target mode overwrite)
                  (Grows_mkdirp _ _) (fun _ => Grows_transfer _ _ _ _ _) w2) as (cs1 & G1).
      fold (mkdirp provider (dirname target) ≫= fun _ => transfer provider source target mode overwrite).
      unfold mbind at 1, M_bind at 1.
      destruct (bind (mkdirp provider (dirname target))
                  (fun _ => transfer provider source target mode overwrite) w2)
        as [[u'|e'] w3] eqn:Hrest; simpl in G1.
      + destruct (Grows_finish mode source target w3) as (cs2 & G2).
        exists (cs1 ++ cs2)%list. rewrite G2, G1, D.
        rewrite <- !app_assoc. reflexivity.
      + exists cs1. simpl. rewrite G1, D. rewrite <- !app_assoc. reflexivity.
    - exists []. simpl. rewrite D. rewrite <- !app_assoc. reflexivity. }
  destruct G as (rest & G). exists rest. split; [|exact N].
  apply newCalls_after. exact G.
Qed.

(** A change of case only, on a provider that ignores case, passes the
    validation whatever exists at the target. *)
Lemma doValidateMoveCopy_case_change (provider : Provider) (source target : URI)
  (overwrite : option bool) (w : World) :
  isCaseChange provider source target = true ->
  exists present : bool,
    fst (doValidateMoveCopy provider source target overwrite w) = Done (present, true).
Proof.
  intros Hcase.
  destruct (proj2 (doValidateMoveCopy_spec provider source target overwrite w))
    as (present & reads & _ & _ & V); [left; exact Hcase|].
  exists present. rewrite V, Hcase, andb_false_r. reflexivity.
Qed.

(** Equal paths count as a change of case on a provider that ignores
    case: such a move or copy passes the first check. *)
Lemma identical_paths_are_a_case_change (provider : Provider) (resource : URI) :
  PathCaseSensitive (capabilities provider) = false ->
  isCaseChange provider resource resource = true.
Proof.
  intros H. unfold isCaseChange, isEqual. rewrite H. apply bool_decide_eq_true_2. reflexivity.
Qed.

Lemma isPrefix_refl (l : list string) : isPrefix l l = true.
Proof. induction l as [|x l IH]; simpl; [reflexivity|]. rewrite String.eqb_refl. exact IH. Qed.

(** A resource is "equal or parent" of itself. *)
Lemma sourceIsTargetOrAbove_refl (provider : Provider) (resource : URI) :
  sourceIsTargetOrAbove provider resource resource = true.
Proof.
  unfold sourceIsTargetOrAbove, isEqualOrParent.
  rewrite String.eqb_refl, eqb_reflx, isPrefix_refl. reflexivity.
Qed.

(** What is left of [moveFile] and [copyFile] once the validation has passed
    and nothing is to be deleted: the parent folders, the rename or the
    copy, and the event. *)
Definition proceed (provider : Provider) (mode : Mode) (source target : URI)
  (overwrite : option bool) : M IFileStat :=
  mkdirp provider (dirname target) ;;
  transfer provider source target mode overwrite ;;
  finish mode source target.

(** On a change of case the validation passes after calls that only read,
    whatever exists at the target, and the target is not deleted: the
    operation goes straight on to the parent folders and the rename or
    copy. *)
Lemma moveOrCopy_case_change (provider : Provider) (mode : Mode) (source target : URI)
  (overwrite : option bool) (w : World) :
  sameProvider provider source target ->
  isCaseChange provider source target = true ->
  exists (present : bool) (reads : list Call),
    mutations reads = []
    /\ doValidateMoveCopy provider source target overwrite w
         = (Done (present, true), after w reads)
    /\ moveOrCopy mode source target overwrite w
         = proceed provider mode source target overwrite (after w reads).
Proof.
  intros Hsame Hcase.
  destruct (proj2 (doValidateMoveCopy_spec provider source target overwrite w))
    as (present & reads & _ & N & V); [left; exact Hcase|].
  rewrite Hcase, andb_false_r in V.
  exists present, reads. split; [exact N|]. split; [exact V|].
  rewrite (moveOrCopy_sameProvider provider mode source target overwrite w Hsame).
  rewrite doMoveCopy_unfold. unfold proceed.
  unfold mbind at 1; unfold M_bind at 1; unfold bind at 1.
  unfold mbind at 1; unfold M_bind at 1; unfold bind at 1.
  rewrite V. cbn [fst snd negb]. rewrite andb_false_r. cbn [andb].
  unfold mbind, M_bind, bind, ret.
  destruct (mkdirp provider (dirname target) (after w reads)) as [[u|e] w1]; [|reflexivity].
  destruct (transfer provider source target mode overwrite w1) as [[u'|e'] w2]; reflexivity.
Qed.

(** ** Resolving, and whether a resource exists *)

(** Whether a child entry ends up among the resolved children: with
    [resolveMetadata] its stat has to succeed. *)
Definition resolvable (provider : Provider) (resource : URI) (resolveMetadata : bool)
  (d : Disk) (entry : string * IStat) : bool :=
  if resolveMetadata then
    match stat provider (joinPath resource (fst entry)) d with
    | inr _ => true
    | inl _ => false
    end
  else true.

Lemma resolveChildren_spec (provider : Provider) (resource : URI) (resolveMetadata : bool)
  (entries : list (string * IStat)) (w : World) :
  exists reads,
    resolveChildren provider resource resolveMetadata entries w =
      (Done (map (fun entry => joinPath resource (fst entry))
               (List.filter (resolvable provider resource resolveMetadata (disk w)) entries)),
       after w reads)
    /\ mutations reads = [].
Proof.
  revert w. induction entries as [|[name st] rest IH]; intros w.
  - exists []. split; [|reflexivity]. simpl. unfold ret, after. rewrite app_nil_r.
    destruct w; reflexivity.
  - cbn [resolveChildren List.filter].
    set (child := joinPath resource name).
    assert (C : exists w1 reads1,
              (if resolveMetadata then
                 catch (reading (CallStat child) (stat provider child) ;; ret (Some child))
                   (fun _ => ret None)
               else ret (Some child)) w
              = (Done (if resolvable provider resource resolveMetadata (disk w) (name, st)
                       then Some child else None), w1)
              /\ w1 = after w reads1 /\ mutations reads1 = []).
    { unfold resolvable. cbn [fst]. fold child. destruct resolveMetadata.
      - exists (after w [CallStat child]), [CallStat child].
        split; [|split; reflexivity].
        unfold catch, reading, record, mbind, M_bind, bind, ret. simpl.
        destruct (stat provider child (disk w)); reflexivity.
      - exists w, []. split; [reflexivity|]. split; [|reflexivity].
        unfold after. rewrite app_nil_r. destruct w; reflexivity. }
    destruct C as (w1 & reads1 & C & -> & N1).
    rewrite (bind_done _ _ _ _ _ C).
    destruct (IH (after w reads1)) as (reads & E & N).
    rewrite (bind_done _ _ _ _ _ E).
    exists (reads1 ++ reads)%list. split.
    + unfold ret, after. cbn [disk calls events]. rewrite <- app_assoc.
      destruct (resolvable provider resource resolveMetadata (disk w) (name, st)); reflexivity.
    + unfold mutations in *. rewrite List.filter_app, N1, N. reflexivity.
Qed.

(** What [resolveFile] returns, by the path, the registry and the
    provider's answers. *)
Lemma resolveFile_result (resource : URI) (resolveMetadata : bool) (w : World) :
  let r := resolveFile resource resolveMetadata w in
  (exists reads, snd r = after w reads /\ mutations reads = []) /\
  if negb (absolute resource) then
    r = (Failed (FileOperationError "The path of resource must be absolute" FILE_INVALID_PATH), w)
  else
    match providers (scheme resource) with
    | None => r = (Failed ENOPRO, w)
    | Some provider =>
        match stat provider resource (disk w) with
        | inl FileNotFound =>
            fst r = Failed (FileOperationError "File not found" FILE_NOT_FOUND)
        | inl OtherProviderError => fst r = Failed (FromProvider OtherProviderError)
        | inr st =>
            fst r =
              Done {| statResource := resource;
                      isDirectory := isDirectoryType st;
                      children :=
                        if isDirectoryType st then
                          Some match readdir provider resource (disk w) with
                               | inr entries =>
                                   map (fun entry => joinPath resource (fst entry))
                                     (List.filter
                                        (resolvable provider resource resolveMetadata (disk w))
                                        entries)
                               | inl _ => []
                               end
                        else None |}
        end
    end.
Proof.
  intros r. split.
  - destruct (Reads_resolveFile resource resolveMetadata w) as (reads & E & N).
    exists reads. split; [exact E | exact N].
  - subst r. unfold resolveFile, doResolveFile, withProvider, isAbsolutePath.
    destruct (absolute resource); simpl; [|reflexivity].
    destruct (providers (scheme resource)) as [provider|]; [|reflexivity].
    unfold catch, reading, record, mbind, M_bind, bind, ret. simpl.
    destruct (stat provider resource (disk w)) as [[|]|st]; simpl; try reflexivity.
    destruct (isDirectoryType st); simpl; [|reflexivity].
    destruct (readdir provider resource (disk w)) as [e|entries]; simpl; [reflexivity|].
    match goal with
    | |- context [resolveChildren provider resource resolveMetadata entries ?w'] =>
        destruct (resolveChildren_spec provider resource resolveMetadata entries w')
          as (reads & E & _)
    end.
    rewrite E. reflexivity.
Qed.

(** X20.  [resolveFile] only reads, and its outcome is decided by the path,
    the registry and the provider's [stat]: a path that is not absolute is
    rejected as FILE_INVALID_PATH and a scheme without a provider as ENOPRO,
    both without any call; a [stat] that fails with FileNotFound becomes
    the file operation error FILE_NOT_FOUND, and any other failure of
    [stat] is passed on as it is.  Once [stat] has succeeded the promise is
    fulfilled: a file has no children, and a folder has as children the
    entries of [readdir] (with [resolveMetadata], those whose own [stat]
    succeeds), or none at all when [readdir] fails. *)
Theorem resolveFile_outcome (resource : URI) (resolveMetadata : bool) (w : World) :
  let r := resolveFile resource resolveMetadata w in
  (exists reads, snd r = after w reads /\ mutations reads = []) /\
  if negb (absolute resource) then
    r = (Failed (FileOperationError "The path of resource must be absolute" FILE_INVALID_PATH), w)
  else
    match providers (scheme resource) with
    | None => r = (Failed ENOPRO, w)
    | Some provider =>
        match stat provider resource (disk w) with
        | inl FileNotFound =>
            fst r = Failed (FileOperationError "File not found" FILE_NOT_FOUND)
        | inl OtherProviderError => fst r = Failed (FromProvider OtherProviderError)
        | inr st =>
            fst r =
              Done {| statResource := resource;
                      isDirectory := isDirectoryType st;
                      children :=
                        if isDirectoryType st then
                          Some match readdir provider resource (disk w) with
                               | inr entries =>
                                   map (fun entry => joinPath resource (fst entry))
                                     (List.filter
                                        (resolvable provider resource resolveMetadata (disk w))
                                        entries)
                               | inl _ => []
                               end
                        else None |}
        end
    end.
Proof. exact (resolveFile_result resource resolveMetadata w). Qed.

(** Whether the provider's [stat] of a resource can be asked and succeeds. *)
Definition statSucceeds (resource : URI) (d : Disk) : bool :=
  absolute resource &&
  match providers (scheme resource) with
  | Some provider =>
      match stat provider resource d with inr _ => true | inl _ => false end
  | None => false
  end.

(** The answer of [existsFile]. *)
Lemma existsFile_result (resource : URI) (w : World) :
  exists reads : list Call,
    existsFile resource w = (Done (statSucceeds resource (disk w)), after w reads)
    /\ mutations reads = [].
Proof.
  destruct (existsFile_spec resource w) as (b & reads & E & N).
  exists reads. split; [|exact N]. rewrite E. f_equal. f_equal.
  assert (Hb : fst (existsFile resource w) = Done b) by (rewrite E; reflexivity).
  clear E. revert Hb.
  pose proof (proj2 (resolveFile_result resource false w)) as H. cbv zeta in H.
  unfold existsFile, catch, mbind, M_bind, bind, ret, statSucceeds.
  destruct (absolute resource); simpl in *.
  - destruct (providers (scheme resource)) as [provider|].
    + destruct (resolveFile resource false w) as [[st|e] w'] eqn:R; simpl in *;
        destruct (stat provider resource (disk w)) as [[|]|s]; try discriminate;
        intros [= <-]; reflexivity.
    + rewrite H. simpl. intros [= <-]. reflexivity.
  - rewrite H. simpl. intros [= <-]. reflexivity.
Qed.

(** X21.  [existsFile] is always fulfilled, makes reading calls only and
    leaves disk and events as they are.  Its answer is [true] exactly when
    the resource is absolute, its scheme has a provider and the provider's
    [stat] of the resource succeeds; a failing [readdir] does not make a
    folder non-existent. *)
Theorem existsFile_answer (resource : URI) (w : World) :
  exists reads : list Call,
    existsFile resource w = (Done (statSucceeds resource (disk w)), after w reads)
    /\ mutations reads = [].
Proof. exact (existsFile_result resource w). Qed.

(** ** Folders, deletion and read-only providers *)


(** The provider an operation that writes gets hold of. *)
Definition writableProvider (resource : URI) : M Provider :=
  p ← withProvider resource; throwIfFileSystemIsReadonly p.

Lemma writableProvider_spec (resource : URI) (w : World) :
  writableProvider resource w =
    if negb (absolute resource) then
      (Failed (FileOperationError "The path of resource must be absolute" FILE_INVALID_PATH), w)
    else
      match providers (scheme resource) with
      | None => (Failed ENOPRO, w)
      | Some provider =>
          if Readonly (capabilities provider) then
            (Failed (FileOperationError "Resource can not be modified." FILE_PERMISSION_DENIED),
             w)
          else (Done provider, w)
      end.
Proof.
  unfold writableProvider, withProvider, throwIfFileSystemIsReadonly, isAbsolutePath.
  unfold mbind, M_bind, bind, reject, ret.
  destruct (absolute resource); simpl; [|reflexivity].
  destruct (providers (scheme resource)) as [provider|]; [|reflexivity].
  destruct (Readonly (capabilities provider)); reflexivity.
Qed.




(** The check of [del] before the provider is asked to delete. *)
Definition validateRecursive (resource : URI) (recursive : bool) : M unit :=
  if negb recursive then
    present ← existsFile resource;
    if (present : bool) then
      st ← resolveFile resource false;
      match isDirectory st, children st with
      | true, Some (_ :: _) => reject (Error "Failed to delete non-empty folder")
      | _, _ => ret tt
      end
    else ret tt
  else ret tt.

Lemma Reads_validateRecursive (resource : URI) (recursive : bool) :
  Reads (validateRecursive resource recursive).
Proof.
  unfold validateRecursive. destruct recursive; simpl; [apply Reads_ret|].
  unfold mbind, M_bind. apply Reads_bind; [apply Reads_existsFile | intros present].
  destruct present; [|apply Reads_ret].
  apply Reads_bind; [apply Reads_resolveFile | intros st].
  destruct (isDirectory st), (children st) as [[|c cs]|];
    first [apply Reads_ret | apply Reads_reject].
Qed.

Lemma del_unfold (resource : URI) (recursive : bool) :
  del resource false recursive =
    (provider ← writableProvider resource;
     validateRecursive resource recursive ;;
     writing (CallDelete resource recursive) (delete provider resource recursive) ;;
     fire DELETE resource).
Proof. reflexivity. Qed.

(** X23.  [del] without [useTrash] asks the provider for at most one
    change, the delete of the resource itself with the [recursive] flag it
    was given, and only after calls that read.  It fires the DELETE event for the resource
    exactly when that delete has succeeded; when [del] is rejected earlier,
    or the provider's delete fails, the disk and the events are as they
    were. *)
Theorem del_effects (resource : URI) (recursive : bool) (w : World) :
  let r := del resource false recursive w in
  exists reads : list Call,
    mutations reads = [] /\
    ((exists e, r = (Failed e, after w reads))
     \/ exists provider,
          providers (scheme resource) = Some provider /\
          Readonly (capabilities provider) = false /\
          match delete provider resource recursive (disk w) with
          | inr d =>
              r = (Done tt,
                   {| disk := d;
                      calls := (calls w ++ reads ++ [CallDelete resource recursive])%list;
                      events := (events w ++ [(DELETE, resource)])%list |})
          | inl e =>
              r = (Failed (FromProvider e),
                   after w (reads ++ [CallDelete resource recursive]))
          end).
Proof.
  intros r. subst r. rewrite del_unfold.
  pose proof (writableProvider_spec resource w) as P.
  assert (Hnil : w = after w []).
  { unfold after. rewrite app_nil_r. destruct w; reflexivity. }
  destruct (negb (absolute resource)).
  { exists []. split; [reflexivity|]. left. eexists.
    rewrite (bind_failed _ _ _ _ _ P). rewrite <- Hnil. reflexivity. }
  destruct (providers (scheme resource)) as [provider|] eqn:Hp.
  2:{ exists []. split; [reflexivity|]. left. eexists.
      rewrite (bind_failed _ _ _ _ _ P). rewrite <- Hnil. reflexivity. }
  destruct (Readonly (capabilities provider)) eqn:Hr.
  { exists []. split; [reflexivity|]. left. eexists.
    rewrite (bind_failed _ _ _ _ _ P). rewrite <- Hnil. reflexivity. }
  rewrite (bind_done _ _ _ _ _ P).
  destruct (Reads_validateRecursive resource recursive w) as (reads & E & N).
  exists reads. split; [exact N|].
  destruct (validateRecursive resource recursive w) as [[[]|e] w1] eqn:V; simpl in E; subst w1.
  - right. exists provider. split; [reflexivity|]. split; [exact Hr|].
    rewrite (bind_done _ _ _ _ _ V).
    unfold writing, record, fire, mbind, M_bind, bind. simpl.
    destruct (delete provider resource recursive (disk w)) as [e|d]; simpl.
    + unfold after. simpl. rewrite app_assoc. reflexivity.
    + rewrite app_assoc. reflexivity.
  - left. exists e. rewrite (bind_failed _ _ _ _ _ V). reflexivity.
Qed.

Lemma filter_resolvable_all (provider : Provider) (resource : URI) (d : Disk)
  (entries : list (string * IStat)) :
  List.filter (resolvable provider resource false d) entries = entries.
Proof. apply forallb_filter_id, forallb_forall. intros; reflexivity. Qed.

(** X24.  On a provider that is not read-only, [del] without [useTrash]
    and without [recursive] of a folder whose [readdir] lists at least one
    entry is refused with the error for a non-empty folder, after reading
    calls only: the provider's delete is not called.  If the folder lists
    no entry, or cannot be listed at all, [del] goes on to the provider's
    non-recursive delete. *)
Theorem del_refuses_non_empty_folder (provider : Provider) (resource : URI) (st : IStat)
  (w : World) :
  absolute resource = true ->
  providers (scheme resource) = Some provider ->
  Readonly (capabilities provider) = false ->
  stat provider resource (disk w) = inr st ->
  isDirectoryType st = true ->
  exists reads : list Call,
    mutations reads = [] /\
    match readdir provider resource (disk w) with
    | inr (_ :: _) =>
        del resource false false w
          = (Failed (Error "Failed to delete non-empty folder"), after w reads)
    | _ =>
        mutations (newCalls (del resource false false) w) = [CallDelete resource false]
    end.
Proof.
  intros Ha Hp Hr Hst Hdir.
  pose proof (writableProvider_spec resource w) as P. rewrite Ha, Hp, Hr in P. simpl in P.
  destruct (existsFile_result resource w) as (reads1 & E & N1).
  assert (Hyes : statSucceeds resource (disk w) = true).
  { unfold statSucceeds. rewrite Ha, Hp, Hst. reflexivity. }
  rewrite Hyes in E.
  destruct (resolveFile_result resource false (after w reads1)) as [(reads2 & E2 & N2) O].
  cbv zeta in O. rewrite Ha, Hp in O. simpl in O. rewrite Hst, Hdir in O.
  destruct (resolveFile resource false (after w reads1)) as [res w2] eqn:R.
  simpl in E2, O. subst w2 res.
  assert (V : validateRecursive resource false w =
              ((match readdir provider resource (disk w) with
                | inr (_ :: _) => Failed (Error "Failed to delete non-empty folder")
                | _ => Done tt
                end), after (after w reads1) reads2)).
  { unfold validateRecursive. change (negb false) with true. cbv iota.
    rewrite (bind_done _ _ _ _ _ E). cbv iota.
    rewrite (bind_done _ _ _ _ _ R). cbn [isDirectory children].
    destruct (readdir provider resource (disk w)) as [e|[|entry entries]];
      rewrite ?filter_resolvable_all; reflexivity. }
  assert (A : after (after w reads1) reads2 = after w (reads1 ++ reads2)).
  { unfold after. simpl. rewrite <- app_assoc. reflexivity. }
  rewrite A in V.
  assert (N : mutations (reads1 ++ reads2) = []).
  { unfold mutations in *. rewrite List.filter_app, N1, N2. reflexivity. }
  exists (reads1 ++ reads2)%list. split; [exact N|].
  assert (Go : validateRecursive resource false w = (Done tt, after w (reads1 ++ reads2)) ->
               mutations (newCalls (del resource false false) w) = [CallDelete resource false]).
  { intros V'. rewrite del_unfold.
    assert (C : exists tail, mutations tail = [] /\
                calls (snd ((provider ← writableProvider resource;
                             validateRecursive resource false ;;
                             writing (CallDelete resource false) (delete provider resource false) ;;
                             fire DELETE resource) w))
                = (calls w ++ (reads1 ++ reads2) ++ [CallDelete resource false] ++ tail)%list).
    { exists []. split; [reflexivity|].
      rewrite (bind_done _ _ _ _ _ P), (bind_done _ _ _ _ _ V').
      unfold writing, record, fire, mbind, M_bind, bind. simpl.
      destruct (delete provider resource false (disk w)); simpl;
        rewrite <- ?app_assoc; reflexivity. }
    destruct C as (tail & Nt & C).
    rewrite (newCalls_after _ _ _ C).
    unfold mutations in *. rewrite !List.filter_app, N1, N2, Nt. reflexivity. }
  destruct (readdir provider resource (disk w)) as [e|[|entry entries]].
  - exact (Go V).
  - exact (Go V).
  - rewrite del_unfold, (bind_done _ _ _ _ _ P). apply bind_failed. exact V.
Qed.

(** ** [mkdirp] *)

(** The folder made of the first [i] segments of a resource. *)
Definition prefixOf (directory : URI) (i : nat) : URI :=
  {| scheme := scheme directory; absolute := absolute directory;
     segments := take i (segments directory) |}.

Lemma after_nil (w : World) : w = after w [].
Proof. unfold after. rewrite app_nil_r. destruct w; reflexivity. Qed.

Lemma after_after (w : World) (cs cs' : list Call) :
  after (after w cs) cs' = after w (cs ++ cs').
Proof. unfold after. simpl. rewrite <- app_assoc. reflexivity. Qed.

Lemma mkdirpUp_spec (provider : Provider) (scheme_ : string) (absolute_ : bool)
  (reversed directoriesToCreate : list string) (w : World) :
  let dirOf rs := {| scheme := scheme_; absolute := absolute_; segments := List.rev rs |} in
  let r := mkdirpUp provider scheme_ absolute_ reversed directoriesToCreate w in
  exists reads,
    mutations reads = [] /\ snd r = after w reads /\
    match fst r with
    | Failed _ => True
    | Done (dir, names) =>
        exists k, (k <= List.length reversed)%nat /\
          dir = dirOf (drop k reversed) /\
          names = (directoriesToCreate ++ take k reversed)%list /\
          (forall j, (j < k)%nat ->
             stat provider (dirOf (drop j reversed)) (disk w) = inl FileNotFound) /\
          (drop k reversed = [] \/
           exists st, stat provider (dirOf (drop k reversed)) (disk w) = inr st
                      /\ isDirectoryType st = true)
    end.
Proof.
  intros dirOf. revert directoriesToCreate w.
  induction reversed as [|name above IH]; intros dtc w r; subst r.
  - exists []. split; [reflexivity|]. split; [apply after_nil|].
    simpl. exists 0%nat. rewrite app_nil_r. repeat split; [lia | intros j Hj; lia | left; reflexivity].
  - cbn [mkdirpUp]. fold (dirOf (name :: above)).
    unfold catch, reading, record, mbind, M_bind, bind, ret, reject. cbn [disk calls events].
    destruct (stat provider (dirOf (name :: above)) (disk w)) as [[|]|st] eqn:Hst; cbn.
    + destruct (IH (dtc ++ [name])%list (after w [CallStat (dirOf (name :: above))]))
        as (reads & N & E & H).
      fold (after w [CallStat (dirOf (name :: above))]).
      exists (CallStat (dirOf (name :: above)) :: reads).
      split; [exact N|]. split; [rewrite E, after_after; reflexivity|].
      destruct (mkdirpUp provider scheme_ absolute_ above (dtc ++ [name])
                  (after w [CallStat (dirOf (name :: above))])) as [[[dir names]|e] w'];
        cbn in *; [|exact I].
      destruct H as (k & Hk & Hd & Hn & Hmiss & Hstop).
      exists (S k). split; [lia|]. split; [exact Hd|].
      split; [rewrite Hn, <- app_assoc; reflexivity|]. split; [|exact Hstop].
      intros [|j] Hj; [exact Hst|]. apply Hmiss. lia.
    + exists [CallStat (dirOf (name :: above))]. repeat split.
    + destruct (isDirectoryType st) eqn:Hdir; cbn.
      * exists [CallStat (dirOf (name :: above))]. split; [reflexivity|].
        split; [reflexivity|]. exists 0%nat. rewrite app_nil_r.
        repeat split; [lia | intros j Hj; lia|].
        right. exists st. split; assumption.
      * exists [CallStat (dirOf (name :: above))]. repeat split.
Qed.

Lemma map_seq_offset {A : Type} (f g : nat -> A) (a b m : nat) :
  (forall i, f (a + i)%nat = g (b + i)%nat) ->
  map f (seq a m) = map g (seq b m).
Proof.
  revert a b. induction m as [|m IH]; intros a b H; simpl; [reflexivity|].
  f_equal.
  - specialize (H 0%nat). rewrite !Nat.add_0_r in H. exact H.
  - apply IH. intros i. specialize (H (S i)).
    rewrite !Nat.add_succ_r in H. exact H.
Qed.

Lemma mkdirpDown_spec (provider : Provider) (names : list string) (directory : URI)
  (w : World) :
  let r := mkdirpDown provider directory names w in
  exists m, (m <= List.length names)%nat /\
    calls (snd r) =
      (calls w ++
         map (fun i => CallMkdir {| scheme := scheme directory; absolute := absolute directory;
                                    segments := (segments directory ++ take i names)%list |})
           (seq 1 m))%list /\
    events (snd r) = events w /\
    (fst r = Done tt -> m = List.length names).
Proof.
  revert directory w. induction names as [|name rest IH]; intros directory w r; subst r.
  - exists 0%nat. simpl. rewrite app_nil_r. repeat split; lia.
  - cbn [mkdirpDown]. unfold writing, record, mbind, M_bind, bind. cbn [disk calls events].
    destruct (mkdir provider (joinPath directory name) (disk w)) as [e|d]; cbn.
    + exists 1%nat. simpl. repeat split; [lia | discriminate].
    + match goal with |- context [mkdirpDown provider ?d' rest ?w'] =>
        destruct (IH d' w') as (m & Hm & Hc & He & Hd) end.
      cbn [calls events scheme absolute segments joinPath] in *.
      exists (S m). split; [simpl; lia|]. split; [|split; [exact He|]].
      * rewrite Hc. rewrite <- app_assoc. f_equal.
        change (seq 1 (S m)) with (1%nat :: seq 2 m). cbn [map app take].
        f_equal. rewrite <- (seq_shift m 1), List.map_map.
        apply map_ext. intros i. simpl. rewrite <- app_assoc. reflexivity.
      * intros H. simpl. f_equal. exact (Hd H).
Qed.

(** X25.  [mkdirp] first asks for the stat of the folder and then of its
    ancestors, from the folder upwards, until one of them exists (or the
    root is reached); then it creates the missing folders from the top
    down.  So its calls are reading calls followed by [mkdir] calls for
    consecutive prefixes of the folder's path, and it fires no event.  When
    it is fulfilled, the folders created are exactly the prefixes that were
    missing, the last one being the folder itself: every prefix longer than
    the one that was found had answered FileNotFound, and the one found is
    the root or a directory. *)
Theorem mkdirp_creates_missing_tail (provider : Provider) (directory : URI) (w : World) :
  let r := mkdirp provider directory w in
  let len := List.length (segments directory) in
  exists (reads : list Call) (n m : nat),
    mutations reads = [] /\
    calls (snd r) =
      (calls w ++ reads ++ map (fun i => CallMkdir (prefixOf directory i)) (seq (S n) m))%list /\
    events (snd r) = events w /\
    (n + m <= len)%nat /\
    (fst r = Done tt ->
       (n + m = len)%nat /\
       (forall i, (n < i <= len)%nat ->
          stat provider (prefixOf directory i) (disk w) = inl FileNotFound) /\
       (n = 0%nat \/
        exists st, stat provider (prefixOf directory n) (disk w) = inr st
                   /\ isDirectoryType st = true)).
Proof.
  intros r len. subst r. unfold mkdirp.
  set (segs := segments directory) in *.
  destruct (mkdirpUp_spec provider (scheme directory) (absolute directory)
              (List.rev segs) [] w) as (reads & N & E & H).
  cbv zeta in H.
  destruct (mkdirpUp provider (scheme directory) (absolute directory) (List.rev segs) [] w)
    as [[[dir names]|e] w1] eqn:Up; cbn [fst snd] in *; subst w1.
  2:{ exists reads, 0%nat, 0%nat. rewrite (bind_failed _ _ _ _ _ Up). cbn.
      rewrite app_nil_r. split; [exact N|]. split; [reflexivity|].
      split; [reflexivity|]. split; [lia | discriminate]. }
  destruct H as (k & Hk & Hd & Hn & Hmiss & Hstop).
  rewrite length_rev in Hk. fold len in Hk.
  rewrite (bind_done _ _ _ _ _ Up). cbn [fst snd].
  assert (Hsegs : segments dir = take (len - k) segs).
  { rewrite Hd. cbn. rewrite skipn_rev, rev_involutive. reflexivity. }
  assert (Hnames : List.rev names = drop (len - k) segs).
  { rewrite Hn. cbn. rewrite firstn_rev, rev_involutive. reflexivity. }
  assert (Hdir : forall j, (j <= len)%nat ->
            {| scheme := scheme directory; absolute := absolute directory;
               segments := List.rev (drop j (List.rev segs)) |} = prefixOf directory (len - j)).
  { intros j Hj. unfold prefixOf. fold segs. rewrite skipn_rev, rev_involutive. reflexivity. }
  destruct (mkdirpDown_spec provider (List.rev names) dir (after w reads))
    as (m & Hm & Hc & He & Hdone).
  cbv zeta in Hc, He, Hdone.
  rewrite Hnames in *. rewrite length_drop in Hm, Hdone. fold len in Hm, Hdone.
  exists reads, (len - k)%nat, m.
  split; [exact N|]. split; [|split; [exact He|]]. 2: split; [lia|].
  - rewrite Hc. cbn [calls after]. rewrite <- app_assoc. f_equal. f_equal.
    apply map_seq_offset. intros i. unfold prefixOf. fold segs.
    rewrite Hsegs, take_take_drop. rewrite Hd. cbn [scheme absolute].
    do 2 f_equal. f_equal. lia.
  - intros Hr. specialize (Hdone Hr). split; [lia|]. split.
    + intros i Hi. specialize (Hmiss (len - i)%nat).
      rewrite (Hdir (len - i)%nat) in Hmiss by lia.
      replace (len - (len - i))%nat with i in Hmiss by lia. apply Hmiss. lia.
    + destruct Hstop as [Hroot | (st & Hst & Hdt)].
      * left. apply (f_equal (@List.length string)) in Hroot.
        rewrite length_drop, length_rev in Hroot. fold len in Hroot. simpl in Hroot. lia.
      * right. exists st. rewrite (Hdir k Hk) in Hst. split; assumption.
Qed.

(** ** Moving and copying across providers *)




End Service.

Arguments disk {Disk} w.
Arguments calls {Disk} w.
Arguments events {Disk} w.
Arguments after {Disk} w cs.
Arguments mutations cs : simpl never.

(** ** A provider in memory *)

(** Paths with their content; a folder has none. *)
Definition MemDisk : Type := list (list string * option string).

Fixpoint entryOf (p : list string) (d : MemDisk) : option (option string) :=
  match d with
  | [] => None
  | (q, c) :: rest => if bool_decide (q = p) then Some c else entryOf p rest
  end.

Definition memStatOf (c : option string) : IStat :=
  {| isDirectoryType := match c with None => true | Some _ => false end;
     isSymbolicLinkType := false; mtime := 0; size := 0 |}.

Definition memProvider (caps : Capabilities) : Provider MemDisk string :=
  {| capabilities := caps;
     stat := fun u d =>
       match entryOf (segments u) d with
       | Some c => inr (memStatOf c)
       | None => inl FileNotFound
       end;
     readdir := fun u d =>
       inr (omap (fun e => if bool_decide (removelast (fst e) = segments u)
                              && negb (bool_decide (fst e = []))
                           then Some (List.last (fst e) EmptyString, memStatOf (snd e))
                           else None) d);
     readFile := fun u d =>
       match entryOf (segments u) d with
       | Some (Some text) => inr text
       | _ => inl FileNotFound
       end;
     delete := fun u _ d =>
       match entryOf (segments u) d with
       | Some _ => inr (List.filter (fun e => negb (isPrefix (segments u) (fst e))) d)
       | None => inl FileNotFound
       end;
     mkdir := fun u d => inr (d ++ [(segments u, None)])%list;
     rename := fun s t _ d =>
       inr (map (fun e => if isPrefix (segments s) (fst e)
                          then ((segments t ++ drop (List.length (segments s)) (fst e))%list, snd e)
                          else e) d);
     copy := fun s t _ d =>
       inr (d ++ omap (fun e => if isPrefix (segments s) (fst e)
                                then Some ((segments t ++ drop (List.length (segments s)) (fst e))%list,
                                           snd e)
                                else None) d)%list;
     writeFile := fun u text _ _ d => inr (d ++ [(segments u, Some text)])%list |}.

Definition caseSensitiveDisk : Capabilities :=
  {| FileReadWrite := true; FileOpenReadWriteClose := false; FileFolderCopy := true;
     PathCaseSensitive := true; Readonly := false |}.

Definition memProviders (scheme_ : string) : option (Provider MemDisk string) :=
  if String.eqb scheme_ "mem" then Some (memProvider caseSensitiveDisk) else None.

Definition noLegacy (source target : URI) (overwrite : option bool) (d : MemDisk)
  : option MemDisk := None.

Definition noLegacyDel (resource : URI) (useTrash recursive : bool) (d : MemDisk)
  : option MemDisk := None.

Definition mem (path : list string) : URI :=
  {| scheme := "mem"; absolute := true; segments := path |}.

(** Folders [/a] (holding a file [x]) and [/b]. *)
Definition sampleWorld : World MemDisk :=
  {| disk := [(["a"], None); (["a"; "x"], Some "text"); (["b"], None)]%string;
     calls := []; events := [] |}.

Definition memMoveOrCopy := moveOrCopy MemDisk string memProviders noLegacy noLegacyDel.

Example move_onto_free_target :
  let '(result, w) := memMoveOrCopy ModeMove (mem ["a"]) (mem ["c"; "d"]) None sampleWorld in
  (exists st, result = Done st)
  /\ disk w = [(["c"; "d"], None); (["c"; "d"; "x"], Some "text"); (["b"], None);
               (["c"], None)]%string
  /\ mutations (calls w)
       = [CallMkdir (mem ["c"]); CallRename (mem ["a"]) (mem ["c"; "d"]) false]%string.
Proof. vm_compute. repeat split. eexists. reflexivity. Qed.

(** The guards of [moveFile] and [copyFile] with source and target on one
    writable provider: (1) if the source is the target or a folder above it
    and the code does not take the pair for a change of case, the operation
    is rejected and nothing at all is called; (2) if the target exists (and
    this is no change of case), then without [overwrite] the operation
    fails with FILE_MOVE_CONFLICT, and with [overwrite] it is rejected when
    the target is a folder above the source, both after calls that only
    read, and otherwise the first call that can change anything is the
    recursive delete of the target; (3) what the code takes for a change of
    case passes the validation whatever exists at the target, and the
    target is not deleted. *)
Theorem move_copy_guards (Disk Content : Type)
  (providers : string -> option (Provider Disk Content))
  (legacyCopyFile : URI -> URI -> option bool -> Disk -> option Disk)
  (legacyDel : URI -> bool -> bool -> Disk -> option Disk)
  (provider : Provider Disk Content) (mode : Mode) (source target : URI)
  (overwrite : option bool) (w : World Disk) :
  sameProvider Disk Content providers provider source target ->
  let run :=
    moveOrCopy Disk Content providers legacyCopyFile legacyDel mode source target overwrite in
  let caseChange := isCaseChange Disk Content provider source target in
  let sourceAbove := sourceIsTargetOrAbove Disk Content provider source target in
  let targetAbove := targetIsSourceOrAbove Disk Content provider source target in
  (caseChange = false -> sourceAbove = true ->
     run w = (Failed (Error "Unable to move/copy when source path is equal or parent of target path"),
              w))
  /\ (caseChange = false -> sourceAbove = false ->
      fst (existsFile Disk Content providers target w) = Done true ->
        (default false overwrite = false ->
           exists reads,
             run w = (Failed (FileOperationError
                                "Unable to move/copy. File already exists at destination."
                                FILE_MOVE_CONFLICT),
                      after w reads)
             /\ mutations reads = [])
        /\ (default false overwrite = true -> targetAbove = true ->
              exists reads,
                run w = (Failed (Error "Unable to move/copy. File would replace folder it is contained in."),
                         after w reads)
                /\ mutations reads = [])
        /\ (default false overwrite = true -> targetAbove = false ->
              exists reads rest,
                newCalls Disk run w = (reads ++ CallDelete target true :: rest)%list
                /\ mutations reads = []))
  /\ (caseChange = true ->
        exists (present : bool) (reads : list Call),
          mutations reads = []
          /\ doValidateMoveCopy Disk Content providers provider source target overwrite w
               = (Done (present, true), after w reads)
          /\ run w = proceed Disk Content providers legacyCopyFile provider mode source target
                       overwrite (after w reads)).
Proof.
  intros Hsame run caseChange sourceAbove targetAbove.
  split; [|split].
  - intros Hcase Habove. apply (moveOrCopy_source_above _ _ _ _ _ provider); assumption.
  - intros Hcase Habove Hexists. split; [|split].
    + intros Hover. apply (moveOrCopy_conflict _ _ _ _ _ provider); assumption.
    + intros Hover Hin. apply (moveOrCopy_contained _ _ _ _ _ provider); assumption.
    + intros Hover Hin. apply (moveOrCopy_deletes_first _ _ _ _ _ provider); assumption.
  - intros Hcase. apply moveOrCopy_case_change; assumption.
Qed.

Lemma move_copy_guards_witness :
  memMoveOrCopy ModeMove (mem ["a"]) (mem ["a"; "sub"]) None sampleWorld
    = (Failed (Error "Unable to move/copy when source path is equal or parent of target path"),
       sampleWorld)
  /\ (exists reads,
        memMoveOrCopy ModeMove (mem ["a"]) (mem ["b"]) None sampleWorld
          = (Failed (FileOperationError
                       "Unable to move/copy. File already exists at destination."
                       FILE_MOVE_CONFLICT),
             after sampleWorld reads)
        /\ mutations reads = [])
  /\ (exists reads rest,
        newCalls MemDisk (memMoveOrCopy ModeCopy (mem ["a"]) (mem ["b"]) (Some true)) sampleWorld
          = (reads ++ CallDelete (mem ["b"]) true :: rest)%list
        /\ mutations reads = []).
Proof.
  assert (S : forall target : list string,
            sameProvider MemDisk string memProviders (memProvider caseSensitiveDisk)
              (mem ["a"]) (mem target)).
  { intros target. repeat split. }
  split; [|split].
  - apply (proj1 (move_copy_guards MemDisk string memProviders noLegacy noLegacyDel
                    (memProvider caseSensitiveDisk) ModeMove (mem ["a"]) (mem ["a"; "sub"])
                    None sampleWorld (S _))); reflexivity.
  - apply (proj1 (proj2 (move_copy_guards MemDisk string memProviders noLegacy noLegacyDel
                           (memProvider caseSensitiveDisk) ModeMove (mem ["a"]) (mem ["b"])
                           None sampleWorld (S _)))); reflexivity.
  - apply (proj1 (proj2 (move_copy_guards MemDisk string memProviders noLegacy noLegacyDel
                           (memProvider caseSensitiveDisk) ModeCopy (mem ["a"]) (mem ["b"])
                           (Some true) sampleWorld (S _)))); reflexivity.
Defined.

(** ** Moving a resource onto itself *)

Definition caseInsensitiveDisk : Capabilities :=
  {| FileReadWrite := true; FileOpenReadWriteClose := false; FileFolderCopy := true;
     PathCaseSensitive := false; Readonly := false |}.

(** The scheme [mem] on a provider that ignores case. *)
Definition insensitiveProviders (scheme_ : string) : option (Provider MemDisk string) :=
  if String.eqb scheme_ "mem" then Some (memProvider caseInsensitiveDisk) else None.

(** On a provider that tells case apart, moving [/a] onto [/a] is rejected
    at once; on one that ignores case the same move is fulfilled, the
    provider having been asked to rename [/a] to [/a]. *)
Example move_onto_itself_by_case_sensitivity :
  moveFile MemDisk string memProviders noLegacy noLegacyDel (mem ["a"]) (mem ["a"]) None
    sampleWorld
    = (Failed (Error "Unable to move/copy when source path is equal or parent of target path"),
       sampleWorld)
  /\ let '(result, w) :=
       moveFile MemDisk string insensitiveProviders noLegacy noLegacyDel (mem ["a"]) (mem ["a"])
         None sampleWorld in
     result = Done {| statResource := mem ["a"]; isDirectory := true;
                      children := Some [mem ["a"; "x"]] |}
     /\ mutations (calls w) = [CallRename (mem ["a"]) (mem ["a"]) false]
     /\ events w = [(MOVE, mem ["a"])].
Proof. vm_compute. repeat split. Qed.

(** C6 (the code departs from it).  The claim: a move or copy is rejected
    when the source equals the target, unless the pair is a pure case
    rename on a provider that ignores case.  The code does not reject
    identical source and target on any provider without the
    PathCaseSensitive capability: there [isCaseChange] is [isEqual]
    ignoring case, which holds for identical paths too, so the check for a
    source that is equal or parent of the target is skipped although it
    would reject.  For source and target the same resource on one writable
    provider that ignores case, with or without [overwrite] and whether or
    not the resource exists, the validation is fulfilled after calls that
    only read, nothing is deleted, and [moveFile] and [copyFile] go on to
    create the parent folders and to ask the provider to rename or copy the
    resource onto itself. *)
Theorem move_onto_itself_is_not_rejected (Disk Content : Type)
  (providers : string -> option (Provider Disk Content))
  (legacyCopyFile : URI -> URI -> option bool -> Disk -> option Disk)
  (legacyDel : URI -> bool -> bool -> Disk -> option Disk)
  (provider : Provider Disk Content) (mode : Mode) (resource : URI)
  (overwrite : option bool) (w : World Disk) :
  sameProvider Disk Content providers provider resource resource ->
  PathCaseSensitive (capabilities Disk Content provider) = false ->
  sourceIsTargetOrAbove Disk Content provider resource resource = true
  /\ isCaseChange Disk Content provider resource resource = true
  /\ exists (present : bool) (reads : list Call),
       mutations reads = []
       /\ doValidateMoveCopy Disk Content providers provider resource resource overwrite w
            = (Done (present, true), after w reads)
       /\ moveOrCopy Disk Content providers legacyCopyFile legacyDel mode resource resource
            overwrite w
            = proceed Disk Content providers legacyCopyFile provider mode resource resource
                overwrite (after w reads).
Proof.
  intros Hsame Hcase.
  split; [apply sourceIsTargetOrAbove_refl|].
  split; [apply identical_paths_are_a_case_change; exact Hcase|].
  apply moveOrCopy_case_change; [exact Hsame|].
  apply identical_paths_are_a_case_change. exact Hcase.
Qed.

Lemma move_onto_itself_is_not_rejected_witness :
  exists (present : bool) (reads : list Call),
    mutations reads = []
    /\ doValidateMoveCopy MemDisk string insensitiveProviders (memProvider caseInsensitiveDisk)
         (mem ["a"]) (mem ["a"]) None sampleWorld
         = (Done (present, true), after sampleWorld reads)
    /\ moveFile MemDisk string insensitiveProviders noLegacy noLegacyDel (mem ["a"]) (mem ["a"])
         None sampleWorld
         = proceed MemDisk string insensitiveProviders noLegacy
             (memProvider caseInsensitiveDisk) ModeMove (mem ["a"]) (mem ["a"]) None
             (after sampleWorld reads).
Proof.
  assert (S : sameProvider MemDisk string insensitiveProviders
                (memProvider caseInsensitiveDisk) (mem ["a"]) (mem ["a"])).
  { repeat split. }
  exact (proj2 (proj2 (move_onto_itself_is_not_rejected MemDisk string insensitiveProviders
                         noLegacy noLegacyDel (memProvider caseInsensitiveDisk) ModeMove
                         (mem ["a"]) None sampleWorld S eq_refl))).
Defined.

(** ** Runs on the provider in memory *)





Lemma del_refuses_non_empty_folder_witness :
  exists reads,
    del MemDisk string memProviders noLegacyDel (mem ["a"]) false false sampleWorld
      = (Failed (Error "Failed to delete non-empty folder"), after sampleWorld reads)
    /\ mutations reads = [].
Proof.
  destruct (del_refuses_non_empty_folder MemDisk string memProviders noLegacyDel
              (memProvider caseSensitiveDisk) (mem ["a"]) (memStatOf None) sampleWorld
              eq_refl eq_refl eq_refl eq_refl eq_refl) as (reads & N & H).
  exists reads. split; [exact H | exact N].
Defined.


End Files.

(* ===================================================================== *)
(** * vs/base/node/nls.js : [resolveNLSConfiguration]                     *)
(* ===================================================================== *)

Module NodeNls.

Import Json.
#[local] Open Scope string_scope.

Record INLSLanguagePackConfiguration : Type := {
  translationsConfigFile : string;
  messagesFile : string;
  corruptMarkerFile : string
}.

Record INLSConfiguration : Type := {
  userLocale : string;
  osLocale : string;
  resolvedLocale : string;
  languagePack : option INLSLanguagePackConfiguration;
  defaultMessagesFile : string
}.

(** The context argument; [userDataPath] and [commit] may be undefined. *)
Record IResolveNLSConfigurationContext : Type := {
  ctxUserLocale : string;
  ctxOsLocale : string;
  ctxUserDataPath : option string;
  ctxCommit : option string;
  ctxNlsMetadataPath : string
}.

(** What is thrown inside the resolver. *)
Inductive Thrown : Type := IOError | SyntaxError | TypeError.

(** Truthiness of a string that may be undefined. *)
Definition truthyString (s : option string) : bool :=
  match s with
  | Some text => negb (String.eqb text "")
  | None => false
  end.

(** ** Parsed values as the generating loop reads them

    The loop that generates the messages indexes and iterates whatever
    [JSON.parse] has returned, without checking its shape.  A value that
    may be [undefined] is an [option json]; a result that may be a
    TypeError is an [option] of what is returned. *)

(** The decimal text of an index. *)
Definition decimal (n : nat) : string :=
  NilEmpty.string_of_uint (N.to_uint (N.of_nat n)).

(** The index a property key stands for: the key is the decimal text of a
    number, written without leading zero. *)
Definition indexOfKey (key : string) : option N :=
  match NilEmpty.uint_of_string key with
  | Some d =>
      let n := N.of_uint d in
      if String.eqb (NilEmpty.string_of_uint (N.to_uint n)) key then Some n else None
  | None => None
  end.

Definition itemAt {A : Type} (l : list A) (n : N) : option A :=
  if (n <? N.of_nat (List.length l))%N then nth_error l (N.to_nat n) else None.

(** The one-character strings a string is made of; a character of the
    model stands for a code unit, and there are no surrogate pairs. *)
Definition characters (s : string) : list json :=
  map (fun c => JString (String c EmptyString)) (list_ascii_of_string s).

(** [v[key]] for a parsed value [v] other than [null]: the own properties
    of the value, which are the members of an object, the items and the
    length of an array, the characters and the length of a string; a
    number or a boolean has none.  Properties inherited from a prototype
    are not modelled.  [None] is [undefined]. *)
Definition member (v : json) (key : string) : option json :=
  match v with
  | JObject members => assoc key members
  | JArray items =>
      match indexOfKey key with
      | Some n => itemAt items n
      | None =>
          if String.eqb key "length" then Some (JNumber (decimal (List.length items)))
          else None
      end
  | JString text =>
      match indexOfKey key with
      | Some n => itemAt (characters text) n
      | None =>
          if String.eqb key "length" then Some (JNumber (decimal (String.length text)))
          else None
      end
  | _ => None
  end.

(** [v[key]] for a value that may be [undefined] or [null]: then it is a
    TypeError. *)
Definition propertyOf (v : option json) (key : string) : option (option json) :=
  match v with
  | None | Some JNull => None
  | Some object => Some (member object key)
  end.

(** What [for (const x of v)] and the array pattern [[a, b] = v] iterate
    over: the items of an array and the characters of a string; anything
    else is not iterable, which is a TypeError. *)
Definition iterate (v : option json) : option (list json) :=
  match v with
  | Some (JArray items) => Some items
  | Some (JString text) => Some (characters text)
  | _ => None
  end.

Section Resolver.

(** The file system behind [fs.promises], with the calls the resolver
    makes; [None] is a rejected promise.  [access], [readFile] do not change
    it.  [path.join], [JSON.parse] and [JSON.stringify] are parameters
    too. *)
Variable FileSystem : Type.
Variable access : string -> FileSystem -> bool.
Variable readFileUtf8 : string -> FileSystem -> option string.
Variable rm : string -> FileSystem -> option FileSystem.
Variable mkdir : string -> FileSystem -> option FileSystem.
Variable writeFileUtf8 : string -> string -> FileSystem -> option FileSystem.
Variable utimes : string -> FileSystem -> FileSystem.
Variable path_join : string -> string -> string.
Variable JSON_parse : string -> option json.
Variable JSON_stringify : json -> string.

(** [String(n)] for the number a JSON number literal denotes, which is how
    a number used as a property key is read. *)
Variable Number_toString : string -> string.

(** [process.env['VSCODE_DEV']] *)
Variable VSCODE_DEV : option string.

(** The file system, the marks set with [perf.mark] and the lines written
    with [console.error]. *)
Record World : Type := {
  fileSystem : FileSystem;
  marks : list string;
  consoleErrors : list string
}.

Definition IO (A : Type) : Type := World -> (Thrown + A) * World.

#[local] Instance IO_ret : MRet IO := fun A a w => (inr a, w).
#[local] Instance IO_bind : MBind IO :=
  fun A B k m w =>
    match m w with
    | (inr a, w') => k a w'
    | (inl e, w') => (inl e, w')
    end.

Definition throw {A : Type} (e : Thrown) : IO A := fun w => (inl e, w).

Definition mark (name : string) : IO unit :=
  fun w => (inr tt, {| fileSystem := fileSystem w; marks := (marks w ++ [name])%list;
                       consoleErrors := consoleErrors w |}).

Definition setFileSystem (w : World) (f : FileSystem) : World :=
  {| fileSystem := f; marks := marks w; consoleErrors := consoleErrors w |}.

(** [exists]: never throws. *)
Definition exists_ (path : string) : IO bool :=
  fun w => (inr (access path (fileSystem w)), w).

(** [touch], not awaited and with its failure ignored. *)
Definition touch (path : string) : IO unit :=
  fun w => (inr tt, setFileSystem w (utimes path (fileSystem w))).

(** A call that changes the file system: when it fails the file system
    stays and the promise is rejected. *)
Definition changing (f : FileSystem -> option FileSystem) : IO unit :=
  fun w => match f (fileSystem w) with
           | Some f' => (inr tt, setFileSystem w f')
           | None => (inl IOError, w)
           end.

Definition mkdirp (path : string) : IO unit := changing (mkdir path).
Definition rimraf (path : string) : IO unit := changing (rm path).
Definition writeFile (path content : string) : IO unit := changing (writeFileUtf8 path content).

Definition readFile (path : string) : IO string :=
  fun w => match readFileUtf8 path (fileSystem w) with
           | Some text => (inr text, w)
           | None => (inl IOError, w)
           end.

(** [JSON.parse(await readFile(path))] *)
Definition readJson (path : string) : IO json :=
  text ← readFile path;
  match JSON_parse text with
  | Some v => mret v
  | None => throw SyntaxError
  end.

(** A promise started now and awaited later: its effect is applied, its
    rejection kept for the [await]. *)
Definition start (m : IO unit) : IO (option Thrown) :=
  fun w => match m w with
           | (inr _, w') => (inr None, w')
           | (inl e, w') => (inr (Some e), w')
           end.

Definition await (settled : option Thrown) : IO unit :=
  match settled with
  | None => mret tt
  | Some e => throw e
  end.

(** [getLanguagePackConfigurations]: [None] is [undefined]. *)
Definition getLanguagePackConfigurations (userDataPath : string) : IO (option json) :=
  let configFile := path_join userDataPath "languagepacks.json" in
  fun w => match readJson configFile w with
           | (inr v, w') => (inr (Some v), w')
           | (inl _, w') => (inr None, w')
           end.

(** [locale.lastIndexOf('-')], as the position of the last dash. *)
Fixpoint lastIndexOfDash (s : string) (i : nat) : option nat :=
  match s with
  | EmptyString => None
  | String c rest =>
      match lastIndexOfDash rest (S i) with
      | Some j => Some j
      | None => if Ascii.eqb c "-"%char then Some i else None
      end
  end.

(** [languagePacks[locale]] being truthy. *)
Definition hasPack (languagePacks : json) (locale : string) : bool :=
  match member languagePacks locale with
  | Some v => truthy v
  | None => false
  end.

(** The loop of [resolveLanguagePackLocale]; every turn shortens the
    locale, so its length plus one bounds the turns. *)
Fixpoint resolveLocaleLoop (turns : nat) (languagePacks : json) (locale : string)
  : option string :=
  match turns with
  | O => None
  | S turns' =>
      if String.eqb locale "" then None
      else if hasPack languagePacks locale then Some locale
      else
        match lastIndexOfDash locale 0 with
        | Some (S index) =>
            resolveLocaleLoop turns' languagePacks (String.substring 0 (S index) locale)
        | _ => None
        end
  end.

(** [resolveLanguagePackLocale] *)
Definition resolveLanguagePackLocale (languagePacks : json) (locale : string) : option string :=
  resolveLocaleLoop (S (String.length locale)) languagePacks locale.

(** [defaultNLSConfiguration], without its mark. *)
Definition defaultConfiguration (context : IResolveNLSConfigurationContext) : INLSConfiguration :=
  {| userLocale := ctxUserLocale context;
     osLocale := ctxOsLocale context;
     resolvedLocale := "en";
     languagePack := None;
     defaultMessagesFile := path_join (ctxNlsMetadataPath context) "nls.messages.json" |}.

(** [defaultNLSConfiguration] *)
Definition defaultNLSConfiguration (context : IResolveNLSConfigurationContext)
  : IO INLSConfiguration :=
  mark "code/didGenerateNls" ;;
  mret (defaultConfiguration context).

(** [String(v)], which is also the property key a value used as a key
    stands for.  An array is joined with commas, [null] items giving the
    empty text. *)
Fixpoint toString (v : json) : string :=
  match v with
  | JNull => "null"
  | JBool true => "true"
  | JBool false => "false"
  | JNumber literal => Number_toString literal
  | JString text => text
  | JArray items =>
      (fix joined (l : list json) : string :=
         match l with
         | [] => ""
         | [x] => match x with JNull => "" | _ => toString x end
         | x :: rest => match x with JNull => "" | _ => toString x end ++ "," ++ joined rest
         end) items
  | JObject _ => "[object Object]"
  end.

(** The property key of a value that may be [undefined]. *)
Definition propertyKey (v : option json) : string :=
  match v with
  | Some value => toString value
  | None => "undefined"
  end.

(** [moduleTranslations?.[nlsKey] || nlsDefaultMessages[nlsIndex]]: the
    default messages are read only when there is no truthy translation. *)
Definition messageFor (moduleTranslations : option json) (nlsKey nlsDefaultMessages : json)
  (nlsIndex : nat) : option (option json) :=
  let translated :=
    match moduleTranslations with
    | None | Some JNull => None
    | Some translations => member translations (toString nlsKey)
    end in
  if match translated with Some t => truthy t | None => false end
  then Some translated
  else propertyOf (Some nlsDefaultMessages) (decimal nlsIndex).

(** The inner loop of lines 237 to 240, from the running index on. *)
Fixpoint moduleLoop (moduleTranslations : option json) (nlsKeys : list json)
  (nlsDefaultMessages : json) (nlsIndex : nat) : option (list (option json)) :=
  match nlsKeys with
  | [] => Some []
  | nlsKey :: rest =>
      message ← messageFor moduleTranslations nlsKey nlsDefaultMessages nlsIndex;
      others ← moduleLoop moduleTranslations rest nlsDefaultMessages (S nlsIndex);
      Some (message :: others)
  end.

(** The outer loop of lines 235 to 241: each entry of the keys is taken
    apart by the pattern [[moduleId, nlsKeys]]. *)
Fixpoint keysLoop (entries : list json) (nlsDefaultMessages nlsPackdata : json)
  (nlsIndex : nat) : option (list (option json)) :=
  match entries with
  | [] => Some []
  | entry :: rest =>
      pattern ← iterate (Some entry);
      let moduleId := nth_error pattern 0 in
      let nlsKeys := nth_error pattern 1 in
      contents ← propertyOf (Some nlsPackdata) "contents";
      moduleTranslations ← propertyOf contents (propertyKey moduleId);
      keys ← iterate nlsKeys;
      messages ← moduleLoop moduleTranslations keys nlsDefaultMessages nlsIndex;
      others ← keysLoop rest nlsDefaultMessages nlsPackdata (nlsIndex + List.length keys);
      Some (messages ++ others)%list
  end.

(** The messages of lines 226 to 241, or the TypeError the loop ends in. *)
Definition generateMessages (nlsDefaultKeys nlsDefaultMessages nlsPackdata : json)
  : option (list (option json)) :=
  entries ← iterate (Some nlsDefaultKeys);
  keysLoop entries nlsDefaultMessages nlsPackdata 0.

Definition typeChecked {A : Type} (result : option A) : IO A :=
  match result with
  | Some a => mret a
  | None => throw TypeError
  end.

(** *** The loop on files of the annotated shape

    The code annotates the keys as [Array<[string, string[]]>], the default
    messages as [string[]] and the translations as a record of records.
    [keysOf] reads keys of that shape, and [allMessages] is the loop on
    them. *)
Fixpoint strings (items : list json) : option (list string) :=
  match items with
  | [] => Some []
  | JString s :: rest => cons s <$> strings rest
  | _ => None
  end.

Fixpoint keysOf (items : list json) : option (list (string * list string)) :=
  match items with
  | [] => Some []
  | JArray [JString moduleId; JArray nlsKeys] :: rest =>
      match strings nlsKeys, keysOf rest with
      | Some ks, Some others => Some ((moduleId, ks) :: others)
      | _, _ => None
      end
  | _ => None
  end.

(** [a || b] on values that may be undefined. *)
Definition orElse (a b : option json) : option json :=
  match a with
  | Some v => if truthy v then a else b
  | None => b
  end.

(** The inner loop on keys that are strings and default messages that are
    an array: one entry per key, the translation or else the default
    message at the running index. *)
Fixpoint moduleMessages (moduleTranslations : option json) (nlsKeys : list string)
  (nlsDefaultMessages : list json) (nlsIndex : nat) : list (option json) :=
  match nlsKeys with
  | [] => []
  | nlsKey :: rest =>
      orElse (moduleTranslations ≫= fun t => getProperty t nlsKey)
             (nth_error nlsDefaultMessages nlsIndex)
        :: moduleMessages moduleTranslations rest nlsDefaultMessages (S nlsIndex)
  end.

(** The outer loop on keys of the annotated shape. *)
Fixpoint allMessages (nlsDefaultKeys : list (string * list string)) (contents : json)
  (nlsDefaultMessages : list json) (nlsIndex : nat) : list (option json) :=
  match nlsDefaultKeys with
  | [] => []
  | (moduleId, nlsKeys) :: rest =>
      (moduleMessages (getProperty contents moduleId) nlsKeys nlsDefaultMessages nlsIndex
         ++ allMessages rest contents nlsDefaultMessages (nlsIndex + List.length nlsKeys))%list
  end.

(** [JSON.stringify] of an array writes [null] for an undefined item. *)
Definition arrayOf (items : list (option json)) : json :=
  JArray (map (default JNull) items).

(** The language pack as the checks of lines 170 to 181 accept it: its
    hash, its translations and the path of the main translation file. *)
Definition acceptedPack (languagePacks : json) (resolvedLocale : string)
  : option (string * json * string) :=
  match member languagePacks resolvedLocale with
  | Some pack =>
      if negb (truthy pack) then None
      else
        match getProperty pack "hash", getProperty pack "translations" with
        | Some (JString hash), Some translations =>
            if negb (truthy translations) then None
            else
              match getProperty translations "vscode" with
              | Some (JString mainLanguagePackPath) => Some (hash, translations, mainLanguagePackPath)
              | _ => None
              end
        | _, _ => None
        end
  | None => None
  end.

(** The end of the [try] block, lines 212 to 250: the cache is generated.
    [mkdirp] is started before the three files are read and awaited after
    them; the two writes are started together and then awaited. *)
Definition generateCache (context : IResolveNLSConfigurationContext)
  (mainLanguagePackPath : string) (translations : json)
  (commitLanguagePackCachePath languagePackMessagesFile translationsConfigFile_ : string)
  (result : INLSConfiguration) : IO INLSConfiguration :=
  made ← start (mkdirp commitLanguagePackCachePath);
  nlsDefaultKeys ← readJson (path_join (ctxNlsMetadataPath context) "nls.keys.json");
  nlsDefaultMessages ← readJson (path_join (ctxNlsMetadataPath context) "nls.messages.json");
  nlsPackdata ← readJson mainLanguagePackPath;
  await made ;;
  nlsResult ← typeChecked (generateMessages nlsDefaultKeys nlsDefaultMessages nlsPackdata);
  written1 ← start (writeFile languagePackMessagesFile (JSON_stringify (arrayOf nlsResult)));
  written2 ← start (writeFile translationsConfigFile_ (JSON_stringify translations));
  await written1 ;;
  await written2 ;;
  mark "code/didGenerateNls" ;;
  mret result.

(** The body of the [try] block. *)
Definition resolveWithLanguagePack (context : IResolveNLSConfigurationContext)
  (userDataPath commit : string) : IO INLSConfiguration :=
  languagePacks ← getLanguagePackConfigurations userDataPath;
  match languagePacks with
  | None => defaultNLSConfiguration context
  | Some languagePacks =>
      if negb (truthy languagePacks) then defaultNLSConfiguration context
      else
        match resolveLanguagePackLocale languagePacks (ctxUserLocale context) with
        | None => defaultNLSConfiguration context
        | Some resolvedLocale_ =>
            match acceptedPack languagePacks resolvedLocale_ with
            | None => defaultNLSConfiguration context
            | Some (hash, translations, mainLanguagePackPath) =>
                present ← exists_ mainLanguagePackPath;
                if negb present then defaultNLSConfiguration context
                else
                  let languagePackId := hash ++ "." ++ resolvedLocale_ in
                  let globalLanguagePackCachePath :=
                    path_join (path_join userDataPath "clp") languagePackId in
                  let commitLanguagePackCachePath :=
                    path_join globalLanguagePackCachePath commit in
                  let languagePackMessagesFile :=
                    path_join commitLanguagePackCachePath "nls.messages.json" in
                  let translationsConfigFile_ :=
                    path_join globalLanguagePackCachePath "tcf.json" in
                  let languagePackCorruptMarkerFile :=
                    path_join globalLanguagePackCachePath "corrupted.info" in
                  corrupt ← exists_ languagePackCorruptMarkerFile;
                  ((if corrupt : bool then rimraf globalLanguagePackCachePath else mret tt)
                     : IO unit) ;;
                  let result :=
                    {| userLocale := ctxUserLocale context;
                       osLocale := ctxOsLocale context;
                       resolvedLocale := resolvedLocale_;
                       languagePack :=
                         Some {| translationsConfigFile := translationsConfigFile_;
                                 messagesFile := languagePackMessagesFile;
                                 corruptMarkerFile := languagePackCorruptMarkerFile |};
                       defaultMessagesFile :=
                         path_join (ctxNlsMetadataPath context) "nls.messages.json" |} in
                  cached ← exists_ commitLanguagePackCachePath;
                  if cached : bool then
                    touch commitLanguagePackCachePath ;;
                    mark "code/didGenerateNls" ;;
                    mret result
                  else
                    generateCache context mainLanguagePackPath translations
                      commitLanguagePackCachePath languagePackMessagesFile
                      translationsConfigFile_ result
            end
        end
  end.

Definition consoleError (line : string) (w : World) : World :=
  {| fileSystem := fileSystem w; marks := marks w;
     consoleErrors := (consoleErrors w ++ [line])%list |}.

(** The early return of [resolveNLSConfiguration]. *)
Definition useDefault (context : IResolveNLSConfigurationContext) : bool :=
  truthyString VSCODE_DEV
  || String.eqb (ctxUserLocale context) "pseudo"
  || String.eqb (ctxUserLocale context) "en"
  || String.eqb (ctxUserLocale context) "en-us"
  || negb (truthyString (ctxCommit context))
  || negb (truthyString (ctxUserDataPath context)).

(** [resolveNLSConfiguration]: the promise it returns is always fulfilled. *)
Definition resolveNLSConfiguration (context : IResolveNLSConfigurationContext) (w : World)
  : INLSConfiguration * World :=
  let run (m : IO INLSConfiguration) (w0 : World) :=
    match m w0 with
    | (inr configuration, w') => (configuration, w')
    | (inl _, w') =>
        let w'' := consoleError "Generating translation files failed." w' in
        (defaultConfiguration context,
         {| fileSystem := fileSystem w''; marks := (marks w'' ++ ["code/didGenerateNls"])%list;
            consoleErrors := consoleErrors w'' |})
    end in
  let w1 := {| fileSystem := fileSystem w; marks := (marks w ++ ["code/willGenerateNls"])%list;
               consoleErrors := consoleErrors w |} in
  if useDefault context then
    (defaultConfiguration context,
     {| fileSystem := fileSystem w1; marks := (marks w1 ++ ["code/didGenerateNls"])%list;
        consoleErrors := consoleErrors w1 |})
  else
    match ctxUserDataPath context, ctxCommit context with
    | Some userDataPath, Some commit =>
        run (resolveWithLanguagePack context userDataPath commit) w1
    | _, _ =>
        (defaultConfiguration context,
         {| fileSystem := fileSystem w1; marks := (marks w1 ++ ["code/didGenerateNls"])%list;
            consoleErrors := consoleErrors w1 |})
    end.

(** ** The locale loop ends *)

Lemma lastIndexOfDash_bound (s : string) (i j : nat) :
  lastIndexOfDash s i = Some j -> (i <= j < i + String.length s)%nat.
Proof.
  revert i. induction s as [|c rest IH]; intros i; simpl; [discriminate|].
  destruct (lastIndexOfDash rest (S i)) as [k|] eqn:E.
  - intros H. injection H as <-. apply IH in E. lia.
  - destruct (Ascii.eqb c "-"); [|discriminate]. intros H. injection H as <-. lia.
Qed.

Lemma length_prefix (n : nat) (s : string) :
  (n <= String.length s)%nat -> String.length (String.substring 0 n s) = n.
Proof.
  revert n. induction s as [|c rest IH]; intros [|n]; simpl; intros H; try reflexivity.
  - lia.
  - rewrite IH; [reflexivity | lia].
Qed.

(** More turns than the locale has characters change nothing: the loop
    never stops for lack of turns. *)
Lemma resolveLocaleLoop_turns (languagePacks : json) (n m : nat) (locale : string) :
  (String.length locale < n)%nat -> (String.length locale < m)%nat ->
  resolveLocaleLoop n languagePacks locale = resolveLocaleLoop m languagePacks locale.
Proof.
  revert m locale. induction n as [|n IH]; intros [|m] locale Hn Hm; try lia.
  simpl. destruct (String.eqb locale ""); [reflexivity|].
  destruct (hasPack languagePacks locale); [reflexivity|].
  destruct (lastIndexOfDash locale 0) as [[|index]|] eqn:E; try reflexivity.
  apply lastIndexOfDash_bound in E. simpl in E.
  apply IH; rewrite length_prefix; lia.
Qed.

(** ** Falling back to the default configuration *)

(** The world when the [try] block is entered. *)
Definition entered (w : World) : World :=
  {| fileSystem := fileSystem w; marks := (marks w ++ ["code/willGenerateNls"])%list;
     consoleErrors := consoleErrors w |}.

Lemma resolve_early (context : IResolveNLSConfigurationContext) (w : World) :
  useDefault context = true ->
  fst (resolveNLSConfiguration context w) = defaultConfiguration context
  /\ fileSystem (snd (resolveNLSConfiguration context w)) = fileSystem w.
Proof. intros H. unfold resolveNLSConfiguration. rewrite H. split; reflexivity. Qed.

(** Whatever the [try] block returns or throws decides the result. *)
Lemma resolve_from_body (context : IResolveNLSConfigurationContext) (w : World)
  (userDataPath commit : string) :
  ctxUserDataPath context = Some userDataPath ->
  ctxCommit context = Some commit ->
  fst (resolveNLSConfiguration context w) = defaultConfiguration context
  \/ exists w',
       resolveWithLanguagePack context userDataPath commit (entered w)
         = (inr (fst (resolveNLSConfiguration context w)), w').
Proof.
  intros Hu Hc. unfold resolveNLSConfiguration. fold (entered w).
  destruct (useDefault context); [left; reflexivity|].
  rewrite Hu, Hc.
  destruct (resolveWithLanguagePack context userDataPath commit (entered w)) as [[e|c] w'].
  - left. reflexivity.
  - right. exists w'. reflexivity.
Qed.

Lemma resolve_body_default (context : IResolveNLSConfigurationContext) (w : World)
  (userDataPath commit : string) :
  ctxUserDataPath context = Some userDataPath ->
  ctxCommit context = Some commit ->
  (forall w' c, resolveWithLanguagePack context userDataPath commit (entered w) = (inr c, w') ->
                c = defaultConfiguration context) ->
  fst (resolveNLSConfiguration context w) = defaultConfiguration context.
Proof.
  intros Hu Hc H.
  destruct (resolve_from_body context w userDataPath commit Hu Hc) as [E | [w' E]];
    [exact E | exact (H _ _ E)].
Qed.

Lemma defaultNLSConfiguration_value (context : IResolveNLSConfigurationContext) (w w' : World)
  (c : INLSConfiguration) :
  defaultNLSConfiguration context w = (inr c, w') -> c = defaultConfiguration context.
Proof. unfold defaultNLSConfiguration. cbv. intros E. injection E as <- _. reflexivity. Qed.

(** What [getLanguagePackConfigurations] returns. *)
Lemma getLanguagePackConfigurations_value (userDataPath : string) (w : World) :
  getLanguagePackConfigurations userDataPath w =
    (inr (readFileUtf8 (path_join userDataPath "languagepacks.json") (fileSystem w)
            ≫= JSON_parse), w).
Proof.
  unfold getLanguagePackConfigurations, readJson, readFile, mbind, IO_bind, throw, mret, IO_ret.
  destruct (readFileUtf8 _ _) as [text|]; simpl; [|reflexivity].
  destruct (JSON_parse text); reflexivity.
Qed.

(** The language packs' file cannot be read or parsed, is falsy, names no
    pack for the locale, names a pack that the checks refuse, or names a
    translation file that is not there: the default configuration. *)
Lemma resolve_pack_unusable (context : IResolveNLSConfigurationContext) (w : World)
  (userDataPath commit : string) :
  ctxUserDataPath context = Some userDataPath ->
  ctxCommit context = Some commit ->
  match readFileUtf8 (path_join userDataPath "languagepacks.json") (fileSystem w)
          ≫= JSON_parse with
  | None => True
  | Some languagePacks =>
      truthy languagePacks = false
      \/ match resolveLanguagePackLocale languagePacks (ctxUserLocale context) with
         | None => True
         | Some locale =>
             match acceptedPack languagePacks locale with
             | None => True
             | Some (_, _, mainLanguagePackPath) =>
                 access mainLanguagePackPath (fileSystem w) = false
             end
         end
  end ->
  fst (resolveNLSConfiguration context w) = defaultConfiguration context.
Proof.
  intros Hu Hc H. apply (resolve_body_default context w userDataPath commit Hu Hc).
  intros w' c. unfold resolveWithLanguagePack.
  unfold mbind at 1, IO_bind at 1. rewrite getLanguagePackConfigurations_value.
  change (fileSystem (entered w)) with (fileSystem w).
  destruct (readFileUtf8 _ _ ≫= JSON_parse) as [languagePacks|];
    [|apply defaultNLSConfiguration_value].
  destruct (truthy languagePacks) eqn:Ht; simpl; [|apply defaultNLSConfiguration_value].
  destruct H as [H|H]; [discriminate|].
  destruct (resolveLanguagePackLocale languagePacks (ctxUserLocale context)) as [locale|];
    [|apply defaultNLSConfiguration_value].
  destruct (acceptedPack languagePacks locale) as [[[hash translations] main]|];
    [|apply defaultNLSConfiguration_value].
  unfold mbind at 1, IO_bind at 1, exists_ at 1.
  change (fileSystem (entered w)) with (fileSystem w). rewrite H. simpl.
  apply defaultNLSConfiguration_value.
Qed.

(** An exception anywhere in the [try] block: the default configuration. *)
Lemma resolve_body_throws (context : IResolveNLSConfigurationContext) (w w' : World)
  (userDataPath commit : string) (e : Thrown) :
  ctxUserDataPath context = Some userDataPath ->
  ctxCommit context = Some commit ->
  resolveWithLanguagePack context userDataPath commit (entered w) = (inl e, w') ->
  fst (resolveNLSConfiguration context w) = defaultConfiguration context.
Proof.
  intros Hu Hc E. apply (resolve_body_default context w userDataPath commit Hu Hc).
  intros w'' c E'. rewrite E in E'. discriminate.
Qed.

(** ** Generating the cache *)

Lemma IO_bind_inr {A B : Type} (m : IO A) (k : A -> IO B) (w w' : World) (a : A) :
  m w = (inr a, w') -> (m ≫= k) w = k a w'.
Proof. intros E. unfold mbind, IO_bind. rewrite E. reflexivity. Qed.

Lemma IO_bind_inl {A B : Type} (m : IO A) (k : A -> IO B) (w w' : World) (e : Thrown) :
  m w = (inl e, w') -> (m ≫= k) w = (inl e, w').
Proof. intros E. unfold mbind, IO_bind. rewrite E. reflexivity. Qed.

(** A file read and parsed; [None] when either fails. *)
Definition parsedFile (path : string) (f : FileSystem) : option json :=
  readFileUtf8 path f ≫= JSON_parse.

Lemma readJson_spec (path : string) (w : World) :
  match parsedFile path (fileSystem w) with
  | Some v => readJson path w = (inr v, w)
  | None => exists e, readJson path w = (inl e, w)
  end.
Proof.
  unfold parsedFile.
  destruct (readFileUtf8 path (fileSystem w)) as [text|] eqn:E; simpl.
  - destruct (JSON_parse text) eqn:P; [|eexists];
      unfold readJson, readFile, mbind, IO_bind; rewrite E, P; reflexivity.
  - eexists. unfold readJson, readFile, mbind, IO_bind. rewrite E. reflexivity.
Qed.

(** The three files the generation reads. *)
Definition sources (context : IResolveNLSConfigurationContext) (mainLanguagePackPath : string)
  (f : FileSystem) : option (json * json * json) :=
  match parsedFile (path_join (ctxNlsMetadataPath context) "nls.keys.json") f,
        parsedFile (path_join (ctxNlsMetadataPath context) "nls.messages.json") f,
        parsedFile mainLanguagePackPath f with
  | Some nlsDefaultKeys, Some nlsDefaultMessages, Some nlsPackdata =>
      Some (nlsDefaultKeys, nlsDefaultMessages, nlsPackdata)
  | _, _, _ => None
  end.

Lemma reads_spec {A : Type} (context : IResolveNLSConfigurationContext)
  (mainLanguagePackPath : string) (k : json -> json -> json -> IO A) (w : World) :
  match sources context mainLanguagePackPath (fileSystem w) with
  | Some (nlsDefaultKeys, nlsDefaultMessages, nlsPackdata) =>
      (a ← readJson (path_join (ctxNlsMetadataPath context) "nls.keys.json");
       b ← readJson (path_join (ctxNlsMetadataPath context) "nls.messages.json");
       c ← readJson mainLanguagePackPath;
       k a b c) w = k nlsDefaultKeys nlsDefaultMessages nlsPackdata w
  | None =>
      exists e,
        (a ← readJson (path_join (ctxNlsMetadataPath context) "nls.keys.json");
         b ← readJson (path_join (ctxNlsMetadataPath context) "nls.messages.json");
         c ← readJson mainLanguagePackPath;
         k a b c) w = (inl e, w)
  end.
Proof.
  unfold sources.
  pose proof (readJson_spec (path_join (ctxNlsMetadataPath context) "nls.keys.json") w) as K.
  pose proof (readJson_spec (path_join (ctxNlsMetadataPath context) "nls.messages.json") w) as M.
  pose proof (readJson_spec mainLanguagePackPath w) as P.
  destruct (parsedFile (path_join (ctxNlsMetadataPath context) "nls.keys.json") (fileSystem w))
    as [a|].
  2:{ destruct K as [e K]. exists e. apply IO_bind_inl. exact K. }
  rewrite (IO_bind_inr _ _ _ _ _ K).
  destruct (parsedFile (path_join (ctxNlsMetadataPath context) "nls.messages.json")
              (fileSystem w)) as [b|].
  2:{ destruct M as [e M]. exists e. apply IO_bind_inl. exact M. }
  rewrite (IO_bind_inr _ _ _ _ _ M).
  destruct (parsedFile mainLanguagePackPath (fileSystem w)) as [c|].
  2:{ destruct P as [e P]. exists e. apply IO_bind_inl. exact P. }
  rewrite (IO_bind_inr _ _ _ _ _ P). reflexivity.
Qed.

(** What the generation of the cache comes to.  It returns the language
    pack's configuration exactly when the cache folder is made, the keys,
    the default messages and the translations are read and parsed, the loop
    over them raises no TypeError, and both files are written; in every
    other case it throws. *)
Lemma generateCache_spec (context : IResolveNLSConfigurationContext)
  (mainLanguagePackPath : string) (translations : json)
  (commitCache messagesFile_ configFile : string) (result : INLSConfiguration) (w : World) :
  let r := generateCache context mainLanguagePackPath translations commitCache messagesFile_
             configFile result w in
  match mkdir commitCache (fileSystem w) with
  | None => exists e w', r = (inl e, w')
  | Some f2 =>
      match sources context mainLanguagePackPath f2 with
      | None => exists e w', r = (inl e, w')
      | Some (nlsDefaultKeys, nlsDefaultMessages, nlsPackdata) =>
          match generateMessages nlsDefaultKeys nlsDefaultMessages nlsPackdata with
          | None => exists e w', r = (inl e, w')
          | Some nlsResult =>
              match writeFileUtf8 messagesFile_ (JSON_stringify (arrayOf nlsResult)) f2 with
              | None => exists e w', r = (inl e, w')
              | Some f3 =>
                  match writeFileUtf8 configFile (JSON_stringify translations) f3 with
                  | None => exists e w', r = (inl e, w')
                  | Some f4 =>
                      r = (inr result,
                           {| fileSystem := f4;
                              marks := (marks w ++ ["code/didGenerateNls"])%list;
                              consoleErrors := consoleErrors w |})
                  end
              end
          end
      end
  end.
Proof.
  intros r. subst r. unfold generateCache.
  destruct (mkdir commitCache (fileSystem w)) as [f2|] eqn:Hmk.
  - erewrite IO_bind_inr;
      [|unfold start, mkdirp, changing; rewrite Hmk; reflexivity].
    match goal with
    | |- context [(a ← readJson _; b ← readJson _; c ← readJson _; @?k a b c) ?w1] =>
        pose proof (reads_spec context mainLanguagePackPath k w1) as R
    end.
    cbn [fileSystem setFileSystem] in R.
    destruct (sources context mainLanguagePackPath f2) as [[[keys messages] packdata]|].
    2:{ destruct R as [e R]. exists e. eexists. exact R. }
    cbv beta in R. rewrite R. clear R.
    erewrite IO_bind_inr; [|reflexivity].
    destruct (generateMessages keys messages packdata) as [nlsResult|];
      [|do 2 eexists; apply IO_bind_inl; reflexivity].
    erewrite IO_bind_inr; [|reflexivity].
    destruct (writeFileUtf8 messagesFile_ (JSON_stringify (arrayOf nlsResult)) f2)
      as [f3|] eqn:Hw1.
    + erewrite IO_bind_inr;
        [|unfold start, writeFile, changing; cbn [fileSystem setFileSystem];
          rewrite Hw1; reflexivity].
      destruct (writeFileUtf8 configFile (JSON_stringify translations) f3) as [f4|] eqn:Hw2.
      * erewrite IO_bind_inr;
          [|unfold start, writeFile, changing; cbn [fileSystem setFileSystem];
            rewrite Hw2; reflexivity].
        reflexivity.
      * erewrite IO_bind_inr;
          [|unfold start, writeFile, changing; cbn [fileSystem setFileSystem];
            rewrite Hw2; reflexivity].
        do 2 eexists. reflexivity.
    + erewrite IO_bind_inr;
        [|unfold start, writeFile, changing; cbn [fileSystem setFileSystem];
          rewrite Hw1; reflexivity].
      unfold mbind at 1, IO_bind at 1, start, writeFile, changing.
      cbn [fileSystem setFileSystem].
      destruct (writeFileUtf8 configFile (JSON_stringify translations) f2);
        do 2 eexists; reflexivity.
  - erewrite IO_bind_inr;
      [|unfold start, mkdirp, changing; rewrite Hmk; reflexivity].
    match goal with
    | |- context [(a ← readJson _; b ← readJson _; c ← readJson _; @?k a b c) ?w1] =>
        pose proof (reads_spec context mainLanguagePackPath k w1) as R
    end.
    destruct (sources context mainLanguagePackPath (fileSystem w)) as [[[keys messages] packdata]|].
    2:{ destruct R as [e R]. exists e. eexists. exact R. }
    cbv beta in R. rewrite R. do 2 eexists. reflexivity.
Qed.

(** What the [try] block returns is the result. *)
Lemma resolve_body_returns (context : IResolveNLSConfigurationContext) (w w' : World)
  (userDataPath commit : string) (c : INLSConfiguration) :
  useDefault context = false ->
  ctxUserDataPath context = Some userDataPath ->
  ctxCommit context = Some commit ->
  resolveWithLanguagePack context userDataPath commit (entered w) = (inr c, w') ->
  resolveNLSConfiguration context w = (c, w').
Proof.
  intros Hd Hu Hc E. unfold resolveNLSConfiguration. fold (entered w).
  rewrite Hd, Hu, Hc, E. reflexivity.
Qed.

(** The configuration for a language pack, lines 194 to 204. *)
Definition languagePackConfiguration (context : IResolveNLSConfigurationContext)
  (userDataPath commit hash locale : string) : INLSConfiguration :=
  let globalCache := path_join (path_join userDataPath "clp") (hash ++ "." ++ locale) in
  {| userLocale := ctxUserLocale context;
     osLocale := ctxOsLocale context;
     resolvedLocale := locale;
     languagePack :=
       Some {| translationsConfigFile := path_join globalCache "tcf.json";
               messagesFile := path_join (path_join globalCache commit) "nls.messages.json";
               corruptMarkerFile := path_join globalCache "corrupted.info" |};
     defaultMessagesFile := path_join (ctxNlsMetadataPath context) "nls.messages.json" |}.

(** The [try] block with a language pack that passes the checks: a corrupt
    cache is removed, and then the cache is used or generated. *)
Lemma resolveWithLanguagePack_accepted (context : IResolveNLSConfigurationContext) (w : World)
  (userDataPath commit : string) (languagePacks translations : json)
  (locale hash mainLanguagePackPath : string) :
  parsedFile (path_join userDataPath "languagepacks.json") (fileSystem w) = Some languagePacks ->
  truthy languagePacks = true ->
  resolveLanguagePackLocale languagePacks (ctxUserLocale context) = Some locale ->
  acceptedPack languagePacks locale = Some (hash, translations, mainLanguagePackPath) ->
  access mainLanguagePackPath (fileSystem w) = true ->
  let globalCache := path_join (path_join userDataPath "clp") (hash ++ "." ++ locale) in
  let commitCache := path_join globalCache commit in
  let result := languagePackConfiguration context userDataPath commit hash locale in
  resolveWithLanguagePack context userDataPath commit w =
    match (if access (path_join globalCache "corrupted.info") (fileSystem w)
           then rm globalCache (fileSystem w) else Some (fileSystem w)) with
    | None => (inl IOError, w)
    | Some f1 =>
        if access commitCache f1 then
          (inr result,
           {| fileSystem := utimes commitCache f1;
              marks := (marks w ++ ["code/didGenerateNls"])%list;
              consoleErrors := consoleErrors w |})
        else
          generateCache context mainLanguagePackPath translations commitCache
            (path_join commitCache "nls.messages.json") (path_join globalCache "tcf.json")
            result (setFileSystem w f1)
    end.
Proof.
  intros Hpacks Htruthy Hlocale Hpack Hmain globalCache commitCache result.
  unfold resolveWithLanguagePack.
  unfold mbind at 1, IO_bind at 1. rewrite getLanguagePackConfigurations_value.
  unfold parsedFile in Hpacks. rewrite Hpacks, Htruthy. cbn [negb]. rewrite Hlocale, Hpack.
  unfold mbind at 1, IO_bind at 1, exists_ at 1. rewrite Hmain. cbn [negb].
  fold globalCache. fold commitCache.
  unfold mbind at 1, IO_bind at 1, exists_ at 1.
  unfold mbind at 1, IO_bind at 1.
  destruct (access (path_join globalCache "corrupted.info") (fileSystem w)).
  - unfold rimraf, changing.
    destruct (rm globalCache (fileSystem w)) as [f1|]; [|reflexivity].
    unfold mbind at 1, IO_bind at 1, exists_ at 1. cbn [fileSystem setFileSystem].
    destruct (access commitCache f1); reflexivity.
  - unfold mret at 1, IO_ret at 1.
    unfold mbind at 1, IO_bind at 1, exists_ at 1.
    destruct (access commitCache (fileSystem w)); [|destruct w]; reflexivity.
Qed.

(** The cache is generated: the language pack's configuration is the
    result exactly when every step of the generation succeeds, and the
    default configuration otherwise. *)
Lemma resolve_generation (context : IResolveNLSConfigurationContext) (w : World)
  (userDataPath commit : string) (languagePacks translations : json)
  (locale hash mainLanguagePackPath : string) :
  useDefault context = false ->
  ctxUserDataPath context = Some userDataPath ->
  ctxCommit context = Some commit ->
  parsedFile (path_join userDataPath "languagepacks.json") (fileSystem w) = Some languagePacks ->
  truthy languagePacks = true ->
  resolveLanguagePackLocale languagePacks (ctxUserLocale context) = Some locale ->
  acceptedPack languagePacks locale = Some (hash, translations, mainLanguagePackPath) ->
  access mainLanguagePackPath (fileSystem w) = true ->
  let globalCache := path_join (path_join userDataPath "clp") (hash ++ "." ++ locale) in
  let commitCache := path_join globalCache commit in
  let resolved := resolveNLSConfiguration context w in
  let fallback := defaultConfiguration context in
  match (if access (path_join globalCache "corrupted.info") (fileSystem w)
         then rm globalCache (fileSystem w) else Some (fileSystem w)) with
  | None => fst resolved = fallback
  | Some f1 =>
      access commitCache f1 = false ->
      match mkdir commitCache f1 with
      | None => fst resolved = fallback
      | Some f2 =>
          match sources context mainLanguagePackPath f2 with
          | None => fst resolved = fallback
          | Some (nlsDefaultKeys, nlsDefaultMessages, nlsPackdata) =>
              match generateMessages nlsDefaultKeys nlsDefaultMessages nlsPackdata with
              | None => fst resolved = fallback
              | Some nlsResult =>
                  match writeFileUtf8 (path_join commitCache "nls.messages.json")
                          (JSON_stringify (arrayOf nlsResult)) f2 with
                  | None => fst resolved = fallback
                  | Some f3 =>
                      match writeFileUtf8 (path_join globalCache "tcf.json")
                              (JSON_stringify translations) f3 with
                      | None => fst resolved = fallback
                      | Some f4 =>
                          fst resolved
                            = languagePackConfiguration context userDataPath commit hash locale
                          /\ fileSystem (snd resolved) = f4
                      end
                  end
              end
          end
      end
  end.
Proof.
  intros Hd Hu Hc Hpacks Htruthy Hlocale Hpack Hmain globalCache commitCache resolved fallback.
  pose proof (resolveWithLanguagePack_accepted context (entered w) userDataPath commit
                languagePacks translations locale hash mainLanguagePackPath
                Hpacks Htruthy Hlocale Hpack Hmain) as B.
  cbv zeta in B. fold globalCache commitCache in B.
  change (fileSystem (entered w)) with (fileSystem w) in B.
  assert (T : forall e w', resolveWithLanguagePack context userDataPath commit (entered w)
                           = (inl e, w') -> fst resolved = fallback).
  { intros e w' E. exact (resolve_body_throws context w w' userDataPath commit e Hu Hc E). }
  destruct (if access (path_join globalCache "corrupted.info") (fileSystem w)
            then rm globalCache (fileSystem w) else Some (fileSystem w)) as [f1|];
    [|exact (T _ _ B)].
  intros Hcached. rewrite Hcached in B.
  pose proof (generateCache_spec context mainLanguagePackPath translations commitCache
                (path_join commitCache "nls.messages.json") (path_join globalCache "tcf.json")
                (languagePackConfiguration context userDataPath commit hash locale)
                (setFileSystem (entered w) f1)) as G.
  cbv zeta in G. rewrite <- B in G. cbn [fileSystem setFileSystem] in G.
  destruct (mkdir commitCache f1) as [f2|]; [|destruct G as (e & w' & G); exact (T _ _ G)].
  destruct (sources context mainLanguagePackPath f2) as [[[keys messages] packdata]|];
    [|destruct G as (e & w' & G); exact (T _ _ G)].
  destruct (generateMessages keys messages packdata) as [nlsResult|];
    [|destruct G as (e & w' & G); exact (T _ _ G)].
  destruct (writeFileUtf8 (path_join commitCache "nls.messages.json") _ f2) as [f3|];
    [|destruct G as (e & w' & G); exact (T _ _ G)].
  destruct (writeFileUtf8 (path_join globalCache "tcf.json") _ f3) as [f4|];
    [|destruct G as (e & w' & G); exact (T _ _ G)].
  subst resolved.
  rewrite (resolve_body_returns context w _ userDataPath commit _ Hd Hu Hc G).
  split; reflexivity.
Qed.

(** ** A cache that is already there *)

(** X29.  When the early return does not apply, [languagepacks.json] is
    read and parsed to a truthy value, a locale resolves, its pack passes
    the checks, the pack's main translation file exists, no corrupt marker
    is there and the cache folder for the commit exists,
    [resolveNLSConfiguration] returns the configuration of that language
    pack (resolved locale, the three cache paths) without reading the
    translations and without writing a file: the only change to the file
    system is the touch of the cache folder; both marks are set and nothing
    is logged. *)
Theorem resolve_uses_existing_cache (context : IResolveNLSConfigurationContext) (w : World)
  (userDataPath commit : string) (languagePacks translations : json)
  (locale hash mainLanguagePackPath : string) :
  useDefault context = false ->
  ctxUserDataPath context = Some userDataPath ->
  ctxCommit context = Some commit ->
  readFileUtf8 (path_join userDataPath "languagepacks.json") (fileSystem w) ≫= JSON_parse
    = Some languagePacks ->
  truthy languagePacks = true ->
  resolveLanguagePackLocale languagePacks (ctxUserLocale context) = Some locale ->
  acceptedPack languagePacks locale = Some (hash, translations, mainLanguagePackPath) ->
  access mainLanguagePackPath (fileSystem w) = true ->
  let globalCache := path_join (path_join userDataPath "clp") (hash ++ "." ++ locale) in
  let commitCache := path_join globalCache commit in
  access (path_join globalCache "corrupted.info") (fileSystem w) = false ->
  access commitCache (fileSystem w) = true ->
  resolveNLSConfiguration context w =
    ({| userLocale := ctxUserLocale context;
        osLocale := ctxOsLocale context;
        resolvedLocale := locale;
        languagePack :=
          Some {| translationsConfigFile := path_join globalCache "tcf.json";
                  messagesFile := path_join commitCache "nls.messages.json";
                  corruptMarkerFile := path_join globalCache "corrupted.info" |};
        defaultMessagesFile := path_join (ctxNlsMetadataPath context) "nls.messages.json" |},
     {| fileSystem := utimes commitCache (fileSystem w);
        marks := (marks w ++ ["code/willGenerateNls"; "code/didGenerateNls"])%list;
        consoleErrors := consoleErrors w |}).
Proof.
  intros Hd Hu Hc Hpacks Htruthy Hlocale Hpack Hmain globalCache commitCache Hcorrupt Hcached.
  unfold resolveNLSConfiguration. rewrite Hd, Hu, Hc.
  unfold resolveWithLanguagePack.
  unfold mbind at 1, IO_bind at 1. rewrite getLanguagePackConfigurations_value.
  cbn [fileSystem]. rewrite Hpacks, Htruthy. cbn [negb]. rewrite Hlocale, Hpack.
  unfold mbind, IO_bind, exists_, touch, mark, mret, IO_ret, setFileSystem.
  cbn [fileSystem marks consoleErrors].
  fold globalCache. fold commitCache.
  rewrite Hmain. cbn [negb]. cbv beta iota. cbn [fileSystem marks consoleErrors].
  rewrite Hcorrupt. cbv beta iota. cbn [fileSystem marks consoleErrors].
  rewrite Hcached. cbv beta iota. cbn [fileSystem marks consoleErrors].
  rewrite <- app_assoc. reflexivity.
Qed.

End Resolver.

Arguments fileSystem {FileSystem} w.
Arguments marks {FileSystem} w.
Arguments consoleErrors {FileSystem} w.
Arguments entered {FileSystem} w.

(** The conditions of the early return, in the specification's words. *)
Definition developmentOrEnglish (VSCODE_DEV : option string)
  (context : IResolveNLSConfigurationContext) : Prop :=
  truthyString VSCODE_DEV = true
  \/ ctxUserLocale context = "pseudo"
  \/ ctxUserLocale context = "en"
  \/ ctxUserLocale context = "en-us"
  \/ truthyString (ctxCommit context) = false
  \/ truthyString (ctxUserDataPath context) = false.

Lemma developmentOrEnglish_useDefault (VSCODE_DEV : option string)
  (context : IResolveNLSConfigurationContext) :
  developmentOrEnglish VSCODE_DEV context -> useDefault VSCODE_DEV context = true.
Proof.
  unfold developmentOrEnglish, useDefault.
  intros [H | [H | [H | [H | [H | H]]]]]; rewrite H; cbn;
    rewrite ?orb_true_r; reflexivity.
Qed.

(** ** A file system in memory *)

Definition MemFs : Type := list (string * string).

Definition memRead (path : string) (f : MemFs) : option string :=
  snd <$> List.find (fun e => String.eqb (fst e) path) f.

Definition memAccess (path : string) (f : MemFs) : bool :=
  match memRead path f with Some _ => true | None => false end.

Definition memRemove (path : string) (f : MemFs) : option MemFs :=
  Some (List.filter (fun e => negb (String.prefix path (fst e))) f).

Definition memMkdir (path : string) (f : MemFs) : option MemFs := Some ((path, "") :: f).

(** Writing fails on a file system mounted read-only. *)
Definition memWrite (readOnly : bool) (path content : string) (f : MemFs) : option MemFs :=
  if readOnly then None else Some ((path, content) :: f).

Definition join (a b : string) : string := a ++ "/" ++ b.

(** Number literals are taken to be written the way [String] prints
    them. *)
Definition asWritten (literal : string) : string := literal.

Definition memResolve (readOnly : bool) (VSCODE_DEV : option string) :=
  resolveNLSConfiguration MemFs memAccess memRead memRemove memMkdir (memWrite readOnly)
    (fun _ f => f) join parse stringify asWritten VSCODE_DEV.

Definition frenchPack : list (string * string) :=
  [("/data/languagepacks.json",
    stringify (JObject [("fr", JObject [("hash", JString "h1");
                                        ("translations",
                                         JObject [("vscode", JString "/ext/fr/main.i18n.json")])])]));
   ("/ext/fr/main.i18n.json",
    stringify (JObject [("contents", JObject [("vs/a", JObject [("k1", JString "bonjour")])])]));
   ("/app/out/nls.keys.json",
    stringify (JArray [JArray [JString "vs/a"; JArray [JString "k1"; JString "k2"]]]));
   ("/app/out/nls.messages.json", stringify (JArray [JString "hello"; JString "world"]))].

Definition startWorld : World MemFs :=
  {| fileSystem := frenchPack; marks := []; consoleErrors := [] |}.

Definition canadianFrench : IResolveNLSConfigurationContext :=
  {| ctxUserLocale := "fr-CA"; ctxOsLocale := "en-us"; ctxUserDataPath := Some "/data";
     ctxCommit := Some "abc"; ctxNlsMetadataPath := "/app/out" |}.

Definition english : IResolveNLSConfigurationContext :=
  {| ctxUserLocale := "en"; ctxOsLocale := "fr"; ctxUserDataPath := Some "/data";
     ctxCommit := Some "abc"; ctxNlsMetadataPath := "/app/out" |}.

Example resolve_locale_truncates :
  resolveLanguagePackLocale (JObject [("fr", JObject [])]) "fr-CA" = Some "fr"
  /\ resolveLanguagePackLocale (JObject [("fr", JObject [])]) "de-DE" = None.
Proof. split; reflexivity. Qed.

Example resolve_french :
  let '(configuration, w) := memResolve false None canadianFrench startWorld in
  resolvedLocale configuration = "fr"
  /\ languagePack configuration
       = Some {| translationsConfigFile := "/data/clp/h1.fr/tcf.json";
                 messagesFile := "/data/clp/h1.fr/abc/nls.messages.json";
                 corruptMarkerFile := "/data/clp/h1.fr/corrupted.info" |}
  /\ memRead "/data/clp/h1.fr/abc/nls.messages.json" (fileSystem w)
       = Some (stringify (JArray [JString "bonjour"; JString "world"])).
Proof. vm_compute. repeat split. Qed.

Example resolve_french_read_only :
  fst (memResolve true None canadianFrench startWorld)
    = defaultConfiguration join canadianFrench
  /\ consoleErrors (snd (memResolve true None canadianFrench startWorld))
       = ["Generating translation files failed."].
Proof. vm_compute. repeat split. Qed.

Definition frenchPacks : json :=
  JObject [("fr", JObject [("hash", JString "h1");
                           ("translations",
                            JObject [("vscode", JString "/ext/fr/main.i18n.json")])])].

(** C4.  The default configuration has the resolved locale [en], the
    default messages file under the NLS metadata path and no language pack.
    [resolveNLSConfiguration] returns it, touching no file, when the
    development variable is set, the user locale is [pseudo], [en] or
    [en-us], or the commit or the user-data path is missing.  On the
    language-pack path it returns it when [languagepacks.json] cannot be read
    or parsed or is falsy, when no pack resolves for the locale, and when
    the pack is refused or its translation file is missing.  With a pack
    that passes these checks it returns it when the removal of a corrupt
    cache fails and, the cache for the commit being absent, when the cache
    folder cannot be made, when one of [nls.keys.json], [nls.messages.json]
    and the translation file cannot be read or parsed, when the loop over
    them ends in a TypeError, and when one of the two generated files
    cannot be written; only when all of these steps succeed is the language
    pack's configuration returned, with both files written.  Whatever is
    thrown inside the [try] block gives the default configuration; in every
    case a configuration is returned and nothing is thrown. *)
Theorem resolveNLSConfiguration_falls_back
  (FileSystem : Type)
  (access : string -> FileSystem -> bool)
  (readFileUtf8 : string -> FileSystem -> option string)
  (rm mkdir : string -> FileSystem -> option FileSystem)
  (writeFileUtf8 : string -> string -> FileSystem -> option FileSystem)
  (utimes : string -> FileSystem -> FileSystem)
  (path_join : string -> string -> string)
  (JSON_parse : string -> option json) (JSON_stringify : json -> string)
  (Number_toString : string -> string)
  (VSCODE_DEV : option string)
  (context : IResolveNLSConfigurationContext) (w : World FileSystem) :
  let resolved :=
    resolveNLSConfiguration FileSystem access readFileUtf8 rm mkdir writeFileUtf8 utimes
      path_join JSON_parse JSON_stringify Number_toString VSCODE_DEV context w in
  let body :=
    resolveWithLanguagePack FileSystem access readFileUtf8 rm mkdir writeFileUtf8 utimes
      path_join JSON_parse JSON_stringify Number_toString context in
  let fallback := defaultConfiguration path_join context in
  (resolvedLocale fallback = "en"
   /\ languagePack fallback = None
   /\ defaultMessagesFile fallback = path_join (ctxNlsMetadataPath context) "nls.messages.json")
  /\ (developmentOrEnglish VSCODE_DEV context ->
        fst resolved = fallback /\ fileSystem (snd resolved) = fileSystem w)
  /\ (forall userDataPath commit : string,
        ctxUserDataPath context = Some userDataPath ->
        ctxCommit context = Some commit ->
        (match readFileUtf8 (path_join userDataPath "languagepacks.json") (fileSystem w)
                 ≫= JSON_parse with
         | None => True
         | Some languagePacks =>
             truthy languagePacks = false
             \/ match resolveLanguagePackLocale languagePacks (ctxUserLocale context) with
                | None => True
                | Some locale =>
                    match acceptedPack languagePacks locale with
                    | None => True
                    | Some (_, _, mainLanguagePackPath) =>
                        access mainLanguagePackPath (fileSystem w) = false
                    end
                end
         end -> fst resolved = fallback)
        /\ (forall (languagePacks translations : json)
                   (locale hash mainLanguagePackPath : string),
              useDefault VSCODE_DEV context = false ->
              readFileUtf8 (path_join userDataPath "languagepacks.json") (fileSystem w)
                ≫= JSON_parse = Some languagePacks ->
              truthy languagePacks = true ->
              resolveLanguagePackLocale languagePacks (ctxUserLocale context) = Some locale ->
              acceptedPack languagePacks locale
                = Some (hash, translations, mainLanguagePackPath) ->
              access mainLanguagePackPath (fileSystem w) = true ->
              let globalCache :=
                path_join (path_join userDataPath "clp") (hash ++ "." ++ locale) in
              let commitCache := path_join globalCache commit in
              match (if access (path_join globalCache "corrupted.info") (fileSystem w)
                     then rm globalCache (fileSystem w) else Some (fileSystem w)) with
              | None => fst resolved = fallback
              | Some f1 =>
                  access commitCache f1 = false ->
                  match mkdir commitCache f1 with
                  | None => fst resolved = fallback
                  | Some f2 =>
                      match sources FileSystem readFileUtf8 path_join JSON_parse context
                              mainLanguagePackPath f2 with
                      | None => fst resolved = fallback
                      | Some (nlsDefaultKeys, nlsDefaultMessages, nlsPackdata) =>
                          match generateMessages Number_toString nlsDefaultKeys
                                  nlsDefaultMessages nlsPackdata with
                          | None => fst resolved = fallback
                          | Some nlsResult =>
                              match writeFileUtf8 (path_join commitCache "nls.messages.json")
                                      (JSON_stringify (arrayOf nlsResult)) f2 with
                              | None => fst resolved = fallback
                              | Some f3 =>
                                  match writeFileUtf8 (path_join globalCache "tcf.json")
                                          (JSON_stringify translations) f3 with
                                  | None => fst resolved = fallback
                                  | Some f4 =>
                                      fst resolved
                                        = languagePackConfiguration path_join context
                                            userDataPath commit hash locale
                                      /\ fileSystem (snd resolved) = f4
                                  end
                              end
                          end
                      end
                  end
              end)
        /\ (forall (e : Thrown) (w' : World FileSystem),
              body userDataPath commit (entered w) = (inl e, w') -> fst resolved = fallback)
        /\ (fst resolved = fallback
            \/ exists w', body userDataPath commit (entered w) = (inr (fst resolved), w'))).
Proof.
  intros resolved body fallback. split; [repeat split|]. split.
  - intros H. apply resolve_early. apply developmentOrEnglish_useDefault. exact H.
  - intros userDataPath commit Hu Hc. split; [|split; [|split]].
    + intros H. eapply resolve_pack_unusable; eassumption.
    + intros languagePacks translations locale hash mainLanguagePackPath
        Hd Hpacks Htruthy Hlocale Hpack Hmain.
      exact (resolve_generation FileSystem access readFileUtf8 rm mkdir writeFileUtf8 utimes
               path_join JSON_parse JSON_stringify Number_toString VSCODE_DEV context w
               userDataPath commit languagePacks translations locale hash
               mainLanguagePackPath Hd Hu Hc Hpacks Htruthy Hlocale Hpack Hmain).
    + intros e w' H. eapply resolve_body_throws; eassumption.
    + eapply resolve_from_body; eassumption.
Qed.

Lemma resolveNLSConfiguration_falls_back_witness :
  fst (memResolve false None english startWorld) = defaultConfiguration join english
  /\ fst (memResolve false None canadianFrench
            {| fileSystem := []; marks := []; consoleErrors := [] |})
       = defaultConfiguration join canadianFrench
  /\ fst (memResolve true None canadianFrench startWorld)
       = defaultConfiguration join canadianFrench
  /\ fst (memResolve false None canadianFrench startWorld)
       = languagePackConfiguration join canadianFrench "/data" "abc" "h1" "fr".
Proof.
  split; [|split; [|split]].
  - apply (proj1 (proj2 (resolveNLSConfiguration_falls_back MemFs memAccess memRead memRemove
             memMkdir (memWrite false) (fun _ f => f) join parse stringify asWritten None english
             startWorld))).
    right. right. left. reflexivity.
  - apply (proj2 (proj2 (resolveNLSConfiguration_falls_back MemFs memAccess memRead memRemove
             memMkdir (memWrite false) (fun _ f => f) join parse stringify asWritten None
             canadianFrench
             {| fileSystem := []; marks := []; consoleErrors := [] |})) "/data" "abc"
             eq_refl eq_refl).
    exact I.
  - pose proof (proj1 (proj2 (proj2 (proj2 (resolveNLSConfiguration_falls_back MemFs memAccess
             memRead memRemove memMkdir (memWrite true) (fun _ f => f) join parse stringify
             asWritten None canadianFrench startWorld)) "/data" "abc" eq_refl eq_refl))
             frenchPacks (JObject [("vscode", JString "/ext/fr/main.i18n.json")])
             "fr" "h1" "/ext/fr/main.i18n.json"
             ltac:(vm_compute; reflexivity) ltac:(vm_compute; reflexivity) eq_refl
             ltac:(vm_compute; reflexivity) ltac:(vm_compute; reflexivity)
             ltac:(vm_compute; reflexivity)) as H.
    vm_compute in H. vm_compute. exact (H eq_refl).
  - pose proof (proj1 (proj2 (proj2 (proj2 (resolveNLSConfiguration_falls_back MemFs memAccess
             memRead memRemove memMkdir (memWrite false) (fun _ f => f) join parse stringify
             asWritten None canadianFrench startWorld)) "/data" "abc" eq_refl eq_refl))
             frenchPacks (JObject [("vscode", JString "/ext/fr/main.i18n.json")])
             "fr" "h1" "/ext/fr/main.i18n.json"
             ltac:(vm_compute; reflexivity) ltac:(vm_compute; reflexivity) eq_refl
             ltac:(vm_compute; reflexivity) ltac:(vm_compute; reflexivity)
             ltac:(vm_compute; reflexivity)) as H.
    vm_compute in H. vm_compute. exact (proj1 (H eq_refl)).
Defined.

(** ** Which locale the language pack is resolved for *)

Lemma lastIndexOfDash_none (s : string) (i : nat) :
  lastIndexOfDash s i = None -> forall p rest, s <> p ++ String "-" rest.
Proof.
  revert i. induction s as [|c s IH]; intros i H p rest E.
  - destruct p; discriminate.
  - simpl in H. destruct (lastIndexOfDash s (S i)) eqn:Hl; [discriminate|].
    destruct p as [|c' p].
    + rewrite append_empty in E. injection E as -> _. simpl in H. discriminate.
    + rewrite append_cons in E. injection E as _ E. exact (IH _ Hl _ _ E).
Qed.

Lemma lastIndexOfDash_split (s : string) (i j : nat) :
  lastIndexOfDash s i = Some j ->
  exists a b, s = a ++ String "-" b /\ j = (i + String.length a)%nat /\
    forall p rest, s = p ++ String "-" rest -> (String.length p <= String.length a)%nat.
Proof.
  revert i. induction s as [|c s IH]; intros i H; [discriminate|].
  simpl in H. destruct (lastIndexOfDash s (S i)) as [k|] eqn:Hl.
  - injection H as <-. destruct (IH _ Hl) as (a & b & -> & -> & Hmax).
    exists (String c a), b. rewrite append_cons. split; [reflexivity|]. split; [simpl; lia|].
    intros [|c' p] rest E; simpl; [lia|].
    rewrite append_cons in E. injection E as _ E. specialize (Hmax _ _ E). lia.
  - destruct (Ascii.eqb_spec c "-") as [->|]; [|discriminate]. injection H as <-.
    exists "", s. rewrite append_empty. split; [reflexivity|]. split; [simpl; lia|].
    intros [|c' p] rest E; simpl; [lia|].
    rewrite append_cons in E. injection E as _ E.
    exfalso. exact (lastIndexOfDash_none _ _ Hl _ _ E).
Qed.

Lemma substring_prefix (a x : string) : String.substring 0 (String.length a) (a ++ x) = a.
Proof.
  induction a as [|c a IH].
  - rewrite append_empty. destruct x; reflexivity.
  - rewrite append_cons. simpl. rewrite IH. reflexivity.
Qed.

Lemma length_append (a b : string) :
  String.length (a ++ b) = (String.length a + String.length b)%nat.
Proof.
  induction a as [|c a IH]; [rewrite append_empty; reflexivity|].
  rewrite append_cons. simpl. now rewrite IH.
Qed.

Lemma dash_prefixes_nest (a b p rest : string) :
  a ++ String "-" b = p ++ String "-" rest ->
  (String.length p <= String.length a)%nat ->
  p = a \/ exists rest', a = p ++ String "-" rest'.
Proof.
  revert a. induction p as [|c p IH]; intros a E Hlen.
  - destruct a as [|c' a]; [left; reflexivity|].
    right. rewrite append_empty, append_cons in E. injection E as -> _.
    exists a. rewrite append_empty. reflexivity.
  - destruct a as [|c' a]; [simpl in Hlen; lia|].
    rewrite !append_cons in E. injection E as -> E. simpl in Hlen.
    destruct (IH a E) as [->|[rest' ->]]; [lia | left; reflexivity|].
    right. exists rest'. rewrite append_cons. reflexivity.
Qed.

(** A candidate for a locale: the locale itself or what stands before one
    of its dashes; never the empty string. *)
Definition candidate (locale p : string) : Prop :=
  p <> "" /\ (p = locale \/ exists rest, locale = p ++ "-" ++ rest).

(** The longest candidate with a language pack. *)
Definition longestWithPack (languagePacks : json) (locale r : string) : Prop :=
  candidate locale r /\ hasPack languagePacks r = true /\
  forall p, candidate locale p -> (String.length r < String.length p)%nat ->
            hasPack languagePacks p = false.

Lemma candidate_length (locale p : string) :
  candidate locale p -> p = locale \/ (String.length p < String.length locale)%nat.
Proof.
  intros [_ [->|[rest ->]]]; [left; reflexivity|].
  right. rewrite length_append. simpl. lia.
Qed.

Lemma candidate_step (a b p : string) :
  (forall q rest, a ++ String "-" b = q ++ String "-" rest ->
                  (String.length q <= String.length a)%nat) ->
  a <> "" ->
  candidate (a ++ String "-" b) p <-> p = a ++ String "-" b \/ candidate a p.
Proof.
  intros Hmax Ha. split.
  - intros [Hp [->|[rest E]]]; [left; reflexivity|]. right.
    change ("-" ++ rest) with (String "-" rest) in E.
    destruct (dash_prefixes_nest a b p rest E (Hmax _ _ E)) as [->|[rest' ->]].
    + split; [exact Ha | left; reflexivity].
    + split; [exact Hp|]. right. exists rest'. reflexivity.
  - intros [->|[Hp [->|[rest ->]]]].
    + split; [|left; reflexivity]. destruct a; discriminate.
    + split; [exact Hp|]. right. exists b. reflexivity.
    + split; [exact Hp|]. right. exists (rest ++ String "-" b).
      change ("-" ++ rest) with (String "-" rest).
      change ("-" ++ rest ++ String "-" b) with (String "-" (rest ++ String "-" b)).
      rewrite append_assoc, append_cons. reflexivity.
Qed.

Lemma resolveLocaleLoop_spec (languagePacks : json) (turns : nat) (locale r : string) :
  (String.length locale < turns)%nat ->
  resolveLocaleLoop turns languagePacks locale = Some r
  <-> longestWithPack languagePacks locale r.
Proof.
  revert locale. induction turns as [|turns IH]; intros locale Hn; [lia|].
  simpl. destruct (String.eqb_spec locale "") as [->|Hne].
  { split; [discriminate|]. intros [[Hr [->|[rest E]]] _]; [congruence|].
    destruct r; [congruence | discriminate]. }
  destruct (hasPack languagePacks locale) eqn:Hpack.
  { split.
    - intros [= <-]. split; [split; [exact Hne | left; reflexivity]|].
      split; [exact Hpack|]. intros p Hp Hlt.
      destruct (candidate_length _ _ Hp) as [->|]; lia.
    - intros (Hc & _ & Hmax). f_equal.
      destruct (candidate_length _ _ Hc) as [->|Hlt]; [reflexivity|].
      rewrite (Hmax locale) in Hpack; [discriminate| |exact Hlt].
      split; [exact Hne | left; reflexivity]. }
  destruct (lastIndexOfDash locale 0) as [index|] eqn:Hdash.
  2:{ split; [discriminate|]. intros ([_ [->|[rest E]]] & Hr & _); [congruence|].
      exfalso. exact (lastIndexOfDash_none _ _ Hdash r rest E). }
  destruct (lastIndexOfDash_split _ _ _ Hdash) as (a & b & E & -> & Hmax).
  simpl. destruct a as [|c a].
  { simpl. split; [discriminate|]. intros ([Hr [->|[rest E']]] & Hp & _); [congruence|].
    change ("-" ++ rest) with (String "-" rest) in E'. rewrite E' in Hmax.
    specialize (Hmax r rest eq_refl). destruct r; [congruence | simpl in Hmax; lia]. }
  cbn [String.length]. subst locale.
  change (S (String.length a)) with (String.length (String c a)).
  rewrite (substring_prefix (String c a) (String "-" b)).
  rewrite IH.
  2:{ rewrite length_append in Hn. simpl in *. lia. }
  assert (Hstep := fun p => candidate_step (String c a) b p Hmax ltac:(discriminate)).
  unfold longestWithPack. split.
  - intros (Hc & Hr & Hbest). split; [apply Hstep; right; exact Hc|].
    split; [exact Hr|]. intros p Hp Hlt. apply Hstep in Hp as [->|Hp]; [exact Hpack|].
    exact (Hbest p Hp Hlt).
  - intros (Hc & Hr & Hbest). apply Hstep in Hc as [->|Hc]; [congruence|].
    split; [exact Hc|]. split; [exact Hr|]. intros p Hp Hlt.
    apply Hbest; [apply Hstep; right; exact Hp | exact Hlt].
Qed.

(** X27.  [resolveLanguagePackLocale] returns a locale exactly when it is
    the longest candidate with a truthy entry among the language packs, the
    candidates being the locale itself and every non-empty text that stands
    before one of its dashes: [fr-CA] resolves to [fr-CA] if there is such a
    pack, else to [fr] if there is one, else to nothing; the empty locale
    resolves to nothing. *)
Theorem resolveLanguagePackLocale_longest_candidate (languagePacks : json)
  (locale r : string) :
  resolveLanguagePackLocale languagePacks locale = Some r
  <-> longestWithPack languagePacks locale r.
Proof. unfold resolveLanguagePackLocale. apply resolveLocaleLoop_spec. lia. Qed.

(** ** The generated messages *)






(** *** The resolver's loop on files of the annotated shape *)

Lemma indexOfKey_decimal (n : nat) : indexOfKey (decimal n) = Some (N.of_nat n).
Proof.
  unfold indexOfKey, decimal.
  rewrite NilEmpty.usu, DecimalN.Unsigned.of_to, String.eqb_refl. reflexivity.
Qed.

(** An array read at an index. *)
Lemma member_array_index (items : list json) (n : nat) :
  member (JArray items) (decimal n) = nth_error items n.
Proof.
  unfold member, itemAt. rewrite indexOfKey_decimal, Nat2N.id.
  destruct (N.ltb_spec (N.of_nat n) (N.of_nat (List.length items))) as [H|H]; [reflexivity|].
  symmetry. apply nth_error_None. lia.
Qed.

(** The translations as the annotation has them: a record of records. *)
Definition recordOfRecords (contents : json) : Prop :=
  exists members,
    contents = JObject members /\
    forall moduleId translations,
      assoc moduleId members = Some translations -> exists ms, translations = JObject ms.

Lemma messageFor_annotated (Number_toString : string -> string)
  (moduleTranslations : option json) (nlsKey : string) (nlsDefaultMessages : list json)
  (nlsIndex : nat) :
  (forall t, moduleTranslations = Some t -> exists ms, t = JObject ms) ->
  messageFor Number_toString moduleTranslations (JString nlsKey) (JArray nlsDefaultMessages)
    nlsIndex
  = Some (orElse (moduleTranslations ≫= fun t => getProperty t nlsKey)
            (nth_error nlsDefaultMessages nlsIndex)).
Proof.
  intros H. unfold messageFor, orElse, propertyOf. rewrite member_array_index.
  destruct moduleTranslations as [t|]; [|reflexivity].
  destruct (H t eq_refl) as [ms ->]. simpl.
  destruct (assoc nlsKey ms) as [v|]; [|reflexivity].
  destruct (truthy v); reflexivity.
Qed.

Lemma moduleLoop_annotated (Number_toString : string -> string)
  (moduleTranslations : option json) (nlsKeys : list string) (nlsDefaultMessages : list json)
  (nlsIndex : nat) :
  (forall t, moduleTranslations = Some t -> exists ms, t = JObject ms) ->
  moduleLoop Number_toString moduleTranslations (map JString nlsKeys)
    (JArray nlsDefaultMessages) nlsIndex
  = Some (moduleMessages moduleTranslations nlsKeys nlsDefaultMessages nlsIndex).
Proof.
  intros H. revert nlsIndex. induction nlsKeys as [|k rest IH]; intros nlsIndex; [reflexivity|].
  cbn [map moduleLoop moduleMessages].
  rewrite (messageFor_annotated _ _ _ _ _ H), IH. reflexivity.
Qed.

Lemma strings_map (items : list json) (ks : list string) :
  strings items = Some ks -> items = map JString ks.
Proof.
  revert ks. induction items as [|x items IH]; intros ks; simpl.
  - intros [= <-]. reflexivity.
  - destruct x; try discriminate.
    destruct (strings items) as [ks'|]; [|discriminate].
    intros [= <-]. simpl. f_equal. apply IH. reflexivity.
Qed.

Lemma keysLoop_annotated (Number_toString : string -> string) (items : list json)
  (ks : list (string * list string)) (nlsDefaultMessages : list json)
  (nlsPackdata contents : json) (nlsIndex : nat) :
  keysOf items = Some ks ->
  getProperty nlsPackdata "contents" = Some contents ->
  recordOfRecords contents ->
  keysLoop Number_toString items (JArray nlsDefaultMessages) nlsPackdata nlsIndex
  = Some (allMessages ks contents nlsDefaultMessages nlsIndex).
Proof.
  intros Hk Hc (members & -> & Hr).
  destruct nlsPackdata as [| | | | |fields]; try discriminate. simpl in Hc.
  revert ks nlsIndex Hk. induction items as [|entry rest IH]; intros ks nlsIndex; simpl.
  - intros [= <-]. reflexivity.
  - destruct entry as [| | | |[|[| | |moduleId| |] [|[| | | |nlsKeys|] [|]]]|]; try discriminate.
    destruct (strings nlsKeys) as [keys|] eqn:Hs; [|discriminate].
    destruct (keysOf rest) as [others|]; [|discriminate].
    intros [= <-]. rewrite Hc. cbn [mbind option_bind propertyOf member propertyKey toString].
    rewrite (strings_map _ _ Hs). cbn [iterate mbind option_bind].
    rewrite moduleLoop_annotated by (intros t Ht; exact (Hr _ _ Ht)).
    cbn [mbind option_bind]. rewrite length_map, (IH others _ eq_refl).
    reflexivity.
Qed.

(** When the keys, the default messages and the translations have the
    annotated shape, the loop of the resolver raises no TypeError and
    computes [allMessages]. *)
Lemma generateMessages_annotated (Number_toString : string -> string) (items : list json)
  (ks : list (string * list string)) (nlsDefaultMessages : list json)
  (nlsPackdata contents : json) :
  keysOf items = Some ks ->
  getProperty nlsPackdata "contents" = Some contents ->
  recordOfRecords contents ->
  generateMessages Number_toString (JArray items) (JArray nlsDefaultMessages) nlsPackdata
  = Some (allMessages ks contents nlsDefaultMessages 0).
Proof. intros Hk Hc Hr. apply keysLoop_annotated; assumption. Qed.

(** Where the shape is not the annotated one the loop does not always
    end in a TypeError: without keys the translations are not looked at,
    and with a truthy translation for every key neither are the default
    messages. *)
Example generateMessages_off_shape :
  generateMessages asWritten (JArray []) JNull JNull = Some []
  /\ generateMessages asWritten (JString "") (JNumber "1") (JBool true) = Some []
  /\ generateMessages asWritten
       (JArray [JArray [JString "vs/a"; JArray [JString "k1"]]]) JNull
       (JObject [("contents", JObject [("vs/a", JObject [("k1", JString "bonjour")])])])
     = Some [Some (JString "bonjour")]
  /\ generateMessages asWritten
       (JArray [JArray [JString "vs/a"; JArray [JString "k1"]]]) JNull
       (JObject [("contents", JObject [])])
     = None
  /\ generateMessages asWritten
       (JArray [JArray [JString "vs/a"; JString "k"]]) (JObject [("0", JString "hello")])
       (JObject [("contents", JArray [])])
     = Some [Some (JString "hello")].
Proof. repeat split. Qed.



(** The file system of [startWorld] with the cache folder of the commit. *)
Definition cachedWorld : World MemFs :=
  {| fileSystem := ("/data/clp/h1.fr/abc", "") :: frenchPack; marks := [];
     consoleErrors := [] |}.

Lemma resolve_uses_existing_cache_witness :
  memResolve false None canadianFrench cachedWorld
  = ({| userLocale := "fr-CA"; osLocale := "en-us"; resolvedLocale := "fr";
        languagePack :=
          Some {| translationsConfigFile := "/data/clp/h1.fr/tcf.json";
                  messagesFile := "/data/clp/h1.fr/abc/nls.messages.json";
                  corruptMarkerFile := "/data/clp/h1.fr/corrupted.info" |};
        defaultMessagesFile := "/app/out/nls.messages.json" |},
     {| fileSystem := fileSystem cachedWorld;
        marks := ["code/willGenerateNls"; "code/didGenerateNls"];
        consoleErrors := [] |}).
Proof.
  exact (resolve_uses_existing_cache MemFs memAccess memRead memRemove memMkdir
           (memWrite false) (fun _ f => f) join parse stringify asWritten None canadianFrench
           cachedWorld "/data" "abc"
           (JObject [("fr", JObject [("hash", JString "h1");
                                     ("translations",
                                      JObject [("vscode", JString "/ext/fr/main.i18n.json")])])])
           (JObject [("vscode", JString "/ext/fr/main.i18n.json")])
           "fr" "h1" "/ext/fr/main.i18n.json"
           ltac:(vm_compute; reflexivity) eq_refl eq_refl ltac:(vm_compute; reflexivity)
           eq_refl ltac:(vm_compute; reflexivity) ltac:(vm_compute; reflexivity)
           ltac:(vm_compute; reflexivity) ltac:(vm_compute; reflexivity)
           ltac:(vm_compute; reflexivity)).
Defined.

End NodeNls.
